(** * Scheduler and execution coordinator of [multi-auggie-orchestrator.py]

    A shallow embedding of class [MultiAuggieOrchestrator]: the task and agent
    records, the matcher [_find_best_agent_for_task], the eligibility check
    [_can_assign_task], the assign phase [assign_tasks], the execution
    coordinator [execute_task] and the loop [orchestrate].

    Representation choices.
    - [self.tasks] and [self.agents] are Python dicts.  Iteration order is
      insertion order and every key is the [id] field of its value
      (lines 74 and 104), so a dict is the list of its values in insertion
      order and a key lookup is a search on the [id] field.  [wf] says that
      keys are unique.
    - Tasks and agents are shared mutable objects.  A reference to one of
      them is modelled by its key, and an attribute assignment by
      [dict_update] on the store.
    - Strings are [string]; [str.lower] is modelled on the ASCII letters.
    - The coroutines of [orchestrate] are modelled by a labelled transition
      system whose labels are the scheduling choices of the event loop and
      the answers of the external collaborators.  [asyncio.wait] is given
      coroutine objects and wraps each of them in a task, as it does up to
      Python 3.10; [CancelledError] is a [BaseException], as it is from
      Python 3.8.
    - Calls of [print] are left out.
    - The parser [_parse_tasks_markdown], the command builder
      [_build_auggie_command] and [get_status_report] are functions on
      strings and on the stores.  A character is a code point below 256, and
      whitespace is what [str.split] and [str.strip] take for whitespace
      among these.
    - [_setup_agent_workspace], [_run_auggie_command] and
      [_merge_task_results] copy files and start a process; they are not
      embedded, and [execute_task] takes their answers as parameters. *)

From Stdlib Require Import List String Ascii Bool ZArith Arith Lia Permutation.
Import ListNotations.
Local Open Scope string_scope.

(** ** Strings *)

(** [c.lower()] on one ASCII character. *)
Definition lower_char (c : ascii) : ascii :=
  let n := nat_of_ascii c in
  if (65 <=? n)%nat && (n <=? 90)%nat then ascii_of_nat (n + 32) else c.

(** [s.lower()]. *)
Fixpoint lower (s : string) : string :=
  match s with
  | EmptyString => EmptyString
  | String c r => String (lower_char c) (lower r)
  end.

(** [needle in hay] on Python strings: substring test. *)
Fixpoint str_in (needle hay : string) : bool :=
  if prefix needle hay then true
  else match hay with
       | EmptyString => false
       | String _ r => str_in needle r
       end.

(** Truth value of an [Optional[str]]: [None] and the empty string are
    falsy. *)
Definition truthy (s : option string) : bool :=
  match s with
  | None => false
  | Some EmptyString => false
  | Some _ => true
  end.

(** ** Data model (lines 20-48) *)

Inductive TaskStatus : Type :=
| PENDING | ASSIGNED | IN_PROGRESS | COMPLETED | FAILED | BLOCKED.

Definition TaskStatus_eqb (a b : TaskStatus) : bool :=
  match a, b with
  | PENDING, PENDING | ASSIGNED, ASSIGNED | IN_PROGRESS, IN_PROGRESS
  | COMPLETED, COMPLETED | FAILED, FAILED | BLOCKED, BLOCKED => true
  | _, _ => false
  end.

Module Task.
Record t : Type := mk {
  id : string;
  description : string;
  component : string;
  files : list string;
  dependencies : list string;
  parallel_safe : bool;
  estimated_effort : Z;
  status : TaskStatus;
  assigned_agent : option string;
  output_path : option string
}.
Definition set_status (s : TaskStatus) (x : t) : t :=
  mk (id x) (description x) (component x) (files x) (dependencies x)
     (parallel_safe x) (estimated_effort x) s (assigned_agent x)
     (output_path x).
Definition set_assigned_agent (a : option string) (x : t) : t :=
  mk (id x) (description x) (component x) (files x) (dependencies x)
     (parallel_safe x) (estimated_effort x) (status x) a (output_path x).
Definition set_output_path (p : option string) (x : t) : t :=
  mk (id x) (description x) (component x) (files x) (dependencies x)
     (parallel_safe x) (estimated_effort x) (status x) (assigned_agent x) p.
End Task.

Module AuggieAgent.
Record t : Type := mk {
  id : string;
  name : string;
  specialization : string;
  working_dir : string;
  status : string;
  current_task : option string
}.
Definition set_status (s : string) (x : t) : t :=
  mk (id x) (name x) (specialization x) (working_dir x) s (current_task x).
Definition set_current_task (c : option string) (x : t) : t :=
  mk (id x) (name x) (specialization x) (working_dir x) (status x) c.
End AuggieAgent.

(** ** Dicts keyed by the [id] field *)

Section Dict.
Context {V : Type} (key : V -> string).

(** [d[k]], [None] standing for [KeyError]; also [k in d]. *)
Definition dict_get (k : string) (d : list V) : option V :=
  find (fun v => String.eqb (key v) k) d.

(** [d[key v] = v]: an existing key keeps its position. *)
Fixpoint dict_set (v : V) (d : list V) : list V :=
  match d with
  | [] => [v]
  | x :: r => if String.eqb (key x) (key v) then v :: r
              else x :: dict_set v r
  end.

(** Attribute assignments on the object stored under [k]. *)
Definition dict_update (k : string) (f : V -> V) (d : list V) : list V :=
  map (fun v => if String.eqb (key v) k then f v else v) d.

Definition keys (d : list V) : list string := map key d.

End Dict.

(** The orchestrator's mutable state (lines 54-55). *)
Record Orchestrator : Type := mkOrch {
  agents : list AuggieAgent.t;
  tasks : list Task.t
}.

Definition wf (o : Orchestrator) : Prop :=
  NoDup (keys AuggieAgent.id (agents o)) /\ NoDup (keys Task.id (tasks o)).

Definition get_task (k : string) (o : Orchestrator) : option Task.t :=
  dict_get Task.id k (tasks o).

Definition get_agent (k : string) (o : Orchestrator) : option AuggieAgent.t :=
  dict_get AuggieAgent.id k (agents o).

Definition update_task (k : string) (f : Task.t -> Task.t)
  (o : Orchestrator) : Orchestrator :=
  mkOrch (agents o) (dict_update Task.id k f (tasks o)).

Definition update_agent (k : string) (f : AuggieAgent.t -> AuggieAgent.t)
  (o : Orchestrator) : Orchestrator :=
  mkOrch (dict_update AuggieAgent.id k f (agents o)) (tasks o).

(** An entry of [agent_configs] (lines 60-73) and a dict returned by
    [_parse_tasks_markdown] (lines 120-128), whose items are the keyword
    arguments of the constructor [Task] at line 103. *)
Record AgentConfig : Type := mkAgentConfig {
  config_id : string;
  config_name : string;
  config_specialization : string
}.

Record TaskData : Type := mkTaskData {
  data_id : string;
  data_description : string;
  data_component : string;
  data_files : list string;
  data_dependencies : list string;
  data_parallel_safe : bool;
  data_estimated_effort : Z
}.

(** The constructor calls of lines 68-73 and 103, with the defaults of the
    dataclasses for the fields that are not given. *)
Definition new_agent (project_root : string) (config : AgentConfig)
  : AuggieAgent.t :=
  AuggieAgent.mk (config_id config) (config_name config)
                 (config_specialization config)
                 (project_root ++ "/work-" ++ config_id config)
                 "idle" None.

Definition new_task (task_data : TaskData) : Task.t :=
  Task.mk (data_id task_data) (data_description task_data)
          (data_component task_data) (data_files task_data)
          (data_dependencies task_data) (data_parallel_safe task_data)
          (data_estimated_effort task_data) PENDING None None.

(** [__init__] (lines 54-55). *)
Definition new_orchestrator : Orchestrator := mkOrch [] [].

(** Lines 60-74 and 102-104: the stores are filled by key assignment. *)
Definition initialize_agents (project_root : string)
  (agent_configs : list AgentConfig) (o : Orchestrator) : Orchestrator :=
  fold_left (fun o config =>
               mkOrch (dict_set AuggieAgent.id (new_agent project_root config)
                                (agents o))
                      (tasks o))
            agent_configs o.

Definition load_tasks_from_spec (parsed_tasks : list TaskData)
  (o : Orchestrator) : Orchestrator :=
  fold_left (fun o task_data =>
               mkOrch (agents o) (dict_set Task.id (new_task task_data) (tasks o)))
            parsed_tasks o.

(** ** Matcher (lines 159-178) *)

Definition score (agent : AuggieAgent.t) (task : Task.t) : Z :=
  ((if str_in (AuggieAgent.specialization agent) (lower (Task.component task))
    then 10 else 0)
   + (if str_in (AuggieAgent.specialization agent)
                (lower (Task.description task))
      then 5 else 0))%Z.

(** [scored_agents.sort(key=lambda x: x[0], reverse=True)]: a stable sort
    on decreasing score.  A stable sort has one result, computed here by
    insertion. *)
Fixpoint insert_desc {A : Type} (x : Z * A) (l : list (Z * A)) : list (Z * A) :=
  match l with
  | [] => [x]
  | y :: r => if (fst x <? fst y)%Z then y :: insert_desc x r else x :: y :: r
  end.

Fixpoint sort_desc {A : Type} (l : list (Z * A)) : list (Z * A) :=
  match l with
  | [] => []
  | x :: r => insert_desc x (sort_desc r)
  end.

Definition is_idle (a : AuggieAgent.t) : bool :=
  String.eqb (AuggieAgent.status a) "idle".

Definition _find_best_agent_for_task (o : Orchestrator) (task : Task.t)
  : option AuggieAgent.t :=
  let available_agents := filter is_idle (agents o) in
  match available_agents with
  | [] => None
  | _ =>
      let scored_agents :=
        map (fun agent => (score agent task, agent)) available_agents in
      match sort_desc scored_agents with
      | [] => None
      | (_, agent) :: _ => Some agent
      end
  end.

(** ** Eligibility (lines 180-197) *)

(** The dependency loop: [false] stands for its [return False]. *)
Definition deps_met (o : Orchestrator) (task : Task.t) : bool :=
  forallb (fun dep_id =>
             match get_task dep_id o with
             | Some dep_task => TaskStatus_eqb (Task.status dep_task) COMPLETED
             | None => true
             end)
          (Task.dependencies task).

(** [set(a) & set(b)] is non-empty. *)
Definition files_overlap (a b : list string) : bool :=
  existsb (fun f => existsb (String.eqb f) b) a.

(** The condition of the [if] at lines 192-194. *)
Definition conflicts_with (task other_task : Task.t) : bool :=
  TaskStatus_eqb (Task.status other_task) IN_PROGRESS
  && negb (String.eqb (Task.id other_task) (Task.id task))
  && files_overlap (Task.files task) (Task.files other_task).

Definition _can_assign_task (o : Orchestrator) (task : Task.t) : bool :=
  if negb (deps_met o task) then false
  else if negb (Task.parallel_safe task)
       then negb (existsb (conflicts_with task) (tasks o))
       else true.

(** ** Assign phase (lines 146-157) *)

(** The body of the [for] loop, for the task stored under [tid]. *)
Definition assign_one (o : Orchestrator) (tid : string) : Orchestrator :=
  match get_task tid o with
  | None => o
  | Some task =>
      match _find_best_agent_for_task o task with
      | None => o
      | Some best_agent =>
          if _can_assign_task o task then
            let o1 := update_task tid
                        (fun t => Task.set_assigned_agent
                                    (Some (AuggieAgent.id best_agent))
                                    (Task.set_status ASSIGNED t)) o in
            update_agent (AuggieAgent.id best_agent)
                         (AuggieAgent.set_current_task (Some tid)) o1
          else o
      end
  end.

Definition is_pending (t : Task.t) : bool :=
  TaskStatus_eqb (Task.status t) PENDING.

(** [available_tasks] is a snapshot of references taken before the loop. *)
Definition available_tasks (o : Orchestrator) : list string :=
  keys Task.id (filter is_pending (tasks o)).

Definition assign_tasks (o : Orchestrator) : Orchestrator :=
  fold_left assign_one (available_tasks o) o.

(** ** Execution coordinator (lines 199-232) *)

(** What the external collaborators answer.  [_run_auggie_command] returns
    an exit code or raises; [_merge_task_results] copies files and returns
    or raises. *)
Inductive WorkerResult : Type :=
| Returned (returncode : Z)
| WorkerRaised.

Inductive MergeResult : Type :=
| Merged
| MergeRaised.

(** What the [await] at line 211 delivers to the coroutine: the worker's
    answer, or [CancelledError] when the coroutine was cancelled while
    suspended there.  [CancelledError] derives from [BaseException], so the
    clause [except Exception] does not catch it and only [finally] runs. *)
Inductive Await : Type :=
| Answer (r : WorkerResult)
| CancelledError.

(** Calls made to the external collaborators, with the keys of the agent and
    of the task. *)
Inductive Call : Type :=
| RunAuggie (agent task : string)
| MergeTaskResults (agent task : string).

Definition is_merge (c : Call) : bool :=
  match c with
  | MergeTaskResults _ _ => true
  | RunAuggie _ _ => false
  end.

Section ExecuteTask.
Variables (agent : AuggieAgent.t) (task : Task.t).

Let aid := AuggieAgent.id agent.
Let tid := Task.id task.

(** Lines 203-204, up to the suspension at line 211. *)
Definition begin_execution (o : Orchestrator) : Orchestrator :=
  update_agent aid (AuggieAgent.set_status "working")
    (update_task tid (Task.set_status IN_PROGRESS) o).

(** The [finally] clause, lines 230-232. *)
Definition finally_clause (o : Orchestrator) : Orchestrator :=
  update_agent aid
    (fun a => AuggieAgent.set_current_task None
                (AuggieAgent.set_status "idle" a)) o.

(** The [except Exception] clause, lines 226-229. *)
Definition except_clause (o : Orchestrator) : Orchestrator :=
  update_task tid (Task.set_status FAILED) o.

(** Lines 211-232, from the resumption of the coroutine to its end.  The
    result is the new state, the calls made, and the returned value
    ([None] when [CancelledError] propagates to the caller). *)
Definition resume_execution (aw : Await) (m : MergeResult) (o : Orchestrator)
  : Orchestrator * list Call * option bool :=
  match aw with
  | CancelledError => (finally_clause o, [RunAuggie aid tid], None)
  | Answer WorkerRaised =>
      (finally_clause (except_clause o), [RunAuggie aid tid], Some false)
  | Answer (Returned returncode) =>
      if (returncode =? 0)%Z then
        let o1 :=
          update_task tid
            (fun t => Task.set_output_path
                        (Some (AuggieAgent.working_dir agent ++ "/output"))
                        (Task.set_status COMPLETED t)) o in
        match m with
        | Merged =>
            (finally_clause o1,
             [RunAuggie aid tid; MergeTaskResults aid tid], Some true)
        | MergeRaised =>
            (finally_clause (except_clause o1),
             [RunAuggie aid tid; MergeTaskResults aid tid], Some false)
        end
      else
        (finally_clause (update_task tid (Task.set_status FAILED) o),
         [RunAuggie aid tid], Some false)
  end.

(** One whole call of [execute_task]. *)
Definition execute_task (aw : Await) (m : MergeResult) (o : Orchestrator)
  : Orchestrator * list Call * option bool :=
  resume_execution aw m (begin_execution o).

End ExecuteTask.

(** The three components of the result. *)
Definition state_of (r : Orchestrator * list Call * option bool) : Orchestrator :=
  fst (fst r).
Definition calls_of (r : Orchestrator * list Call * option bool) : list Call :=
  snd (fst r).
Definition returned (r : Orchestrator * list Call * option bool) : option bool :=
  snd r.

(** ** The loop (lines 284-317) *)

(** A coroutine object [self.execute_task(agent, task)]. *)
Definition Exec : Type := (AuggieAgent.t * Task.t)%type.

(** Lines 293-298; [None] is the [KeyError] of [self.tasks[...]]. *)
Fixpoint collect_active (o : Orchestrator) (l : list AuggieAgent.t)
  : option (list Exec) :=
  match l with
  | [] => Some []
  | agent :: r =>
      if truthy (AuggieAgent.current_task agent) then
        match AuggieAgent.current_task agent with
        | None => collect_active o r
        | Some k =>
            match get_task k o with
            | None => None
            | Some task =>
                match collect_active o r with
                | None => None
                | Some rest =>
                    if TaskStatus_eqb (Task.status task) ASSIGNED
                    then Some ((agent, task) :: rest)
                    else Some rest
                end
            end
        end
      else collect_active o r
  end.

Definition active_tasks (o : Orchestrator) : option (list Exec) :=
  collect_active o (agents o).

(** Lines 309-310. *)
Definition is_remaining (t : Task.t) : bool :=
  negb (TaskStatus_eqb (Task.status t) COMPLETED
        || TaskStatus_eqb (Task.status t) FAILED).

Definition remaining_tasks (o : Orchestrator) : list Task.t :=
  filter is_remaining (tasks o).

(** Where the coroutine [orchestrate] stands.
    - [Assigning]: at the head of the [while], before [assign_tasks];
    - [Waiting todo live n]: suspended in [asyncio.wait]; the coroutines of
      [todo] have not run yet, those of [live] are suspended at line 211,
      [n] have ended;
    - [Checking pending]: [asyncio.wait] has returned and [cancel] was
      requested for [pending]; before line 309;
    - [Sleeping cancelled]: suspended in [asyncio.sleep], while the event
      loop delivers [CancelledError] to [cancelled];
    - [Terminated]: after the [break];
    - [Crashed]: [KeyError] at line 296. *)
Inductive Phase : Type :=
| Assigning
| Waiting (todo live : list Exec) (ndone : nat)
| Checking (pending : list Exec)
| Sleeping (cancelled : list Exec)
| Terminated
| Crashed.

Record Config : Type := mkConfig {
  orch : Orchestrator;
  phase : Phase
}.

(** The choices of the event loop and of the outside world. *)
Inductive Label : Type :=
| LAssign
| LStart (i : nat)
| LFinish (i : nat) (r : WorkerResult) (m : MergeResult)
| LWaitReturn
| LCheck
| LCancel (i : nat)
| LWake.

Fixpoint remove_nth {A : Type} (i : nat) (l : list A) : list A :=
  match i, l with
  | _, [] => []
  | O, _ :: r => r
  | S j, x :: r => x :: remove_nth j r
  end.

(** Where [orchestrate] goes after [assign_tasks] (lines 293-300) and after
    the test at line 312. *)
Definition after_assign (o : Orchestrator) : Phase :=
  match active_tasks o with
  | None => Crashed
  | Some [] => Checking []
  | Some active => Waiting active [] 0
  end.

Definition after_check (o : Orchestrator) (pending : list Exec) : Phase :=
  match remaining_tasks o with
  | [] => Terminated
  | _ => Sleeping pending
  end.

(** One step.  Every coroutine handed to [asyncio.wait] runs up to its first
    suspension before any of them is resumed, so [LFinish] and [LWaitReturn]
    need an empty [todo]; [asyncio.wait] returns once at least one coroutine
    has ended. *)
Definition step (l : Label) (c : Config) : option Config :=
  let o := orch c in
  match l, phase c with
  | LAssign, Assigning =>
      Some (mkConfig (assign_tasks o) (after_assign (assign_tasks o)))
  | LStart i, Waiting todo live n =>
      match nth_error todo i with
      | Some (agent, task) =>
          Some (mkConfig (begin_execution agent task o)
                         (Waiting (remove_nth i todo) ((agent, task) :: live) n))
      | None => None
      end
  | LFinish i r m, Waiting [] live n =>
      match nth_error live i with
      | Some (agent, task) =>
          Some (mkConfig (state_of (resume_execution agent task (Answer r) m o))
                         (Waiting [] (remove_nth i live) (S n)))
      | None => None
      end
  | LWaitReturn, Waiting [] live (S _) => Some (mkConfig o (Checking live))
  | LCheck, Checking pending => Some (mkConfig o (after_check o pending))
  | LCancel i, Sleeping cancelled =>
      match nth_error cancelled i with
      | Some (agent, task) =>
          Some (mkConfig
                  (state_of (resume_execution agent task CancelledError Merged o))
                  (Sleeping (remove_nth i cancelled)))
      | None => None
      end
  | LWake, Sleeping [] => Some (mkConfig o Assigning)
  | _, _ => None
  end.

(** The same steps as a relation. *)
Inductive Step : Label -> Config -> Config -> Prop :=
| StepAssign o :
    Step LAssign (mkConfig o Assigning)
         (mkConfig (assign_tasks o) (after_assign (assign_tasks o)))
| StepStart o todo live n i agent task :
    nth_error todo i = Some (agent, task) ->
    Step (LStart i) (mkConfig o (Waiting todo live n))
         (mkConfig (begin_execution agent task o)
                   (Waiting (remove_nth i todo) ((agent, task) :: live) n))
| StepFinish o live n i r m agent task :
    nth_error live i = Some (agent, task) ->
    Step (LFinish i r m) (mkConfig o (Waiting [] live n))
         (mkConfig (state_of (resume_execution agent task (Answer r) m o))
                   (Waiting [] (remove_nth i live) (S n)))
| StepWaitReturn o live n :
    Step LWaitReturn (mkConfig o (Waiting [] live (S n)))
         (mkConfig o (Checking live))
| StepCheck o pending :
    Step LCheck (mkConfig o (Checking pending))
         (mkConfig o (after_check o pending))
| StepCancel o cancelled i agent task :
    nth_error cancelled i = Some (agent, task) ->
    Step (LCancel i) (mkConfig o (Sleeping cancelled))
         (mkConfig
            (state_of (resume_execution agent task CancelledError Merged o))
            (Sleeping (remove_nth i cancelled)))
| StepWake o :
    Step LWake (mkConfig o (Sleeping [])) (mkConfig o Assigning).

(** A run along a list of labels. *)
Fixpoint run (ls : list Label) (c : Config) : option Config :=
  match ls with
  | [] => Some c
  | l :: r => match step l c with
              | Some c1 => run r c1
              | None => None
              end
  end.

(** [orchestrate] is entered at the head of the loop. *)
Definition start (o : Orchestrator) : Config := mkConfig o Assigning.

(** The states of runs that begin in [o]. *)
Definition reachable_from (o : Orchestrator) (c : Config) : Prop :=
  exists ls, run ls (start o) = Some c.

(** The state before [orchestrate]: tasks as loaded, agents as created. *)
Definition fresh_task (t : Task.t) : Prop :=
  Task.status t = PENDING /\ Task.assigned_agent t = None.

Definition fresh_agent (a : AuggieAgent.t) : Prop :=
  AuggieAgent.status a = "idle" /\ AuggieAgent.current_task a = None.

Definition initial (o : Orchestrator) : Prop :=
  wf o /\ Forall fresh_agent (agents o) /\ Forall fresh_task (tasks o).

(** ** Reading [tasks.md] (lines 106-144) *)

(** [c.isspace()] on a character below 256, the whitespace of [str.split]
    and [str.strip]: tab to carriage return, the four separators, the
    blank, next line and the no-break space. *)
Definition is_space (c : ascii) : bool :=
  let n := nat_of_ascii c in
  ((9 <=? n)%nat && (n <=? 13)%nat) || ((28 <=? n)%nat && (n <=? 32)%nat)
  || (n =? 133)%nat || (n =? 160)%nat.

Definition is_empty (s : string) : bool :=
  match s with
  | EmptyString => true
  | String _ _ => false
  end.

(** [s.split(sep)] for a separator of one character. *)
Fixpoint split_on (sep : ascii) (s : string) : list string :=
  match s with
  | EmptyString => [EmptyString]
  | String c r =>
      if Ascii.eqb c sep then EmptyString :: split_on sep r
      else match split_on sep r with
           | h :: t => String c h :: t
           | [] => [String c EmptyString]
           end
  end.

(** [s.split()]: the maximal runs of characters that are not whitespace;
    [cur] is the run being read. *)
Fixpoint tokens (cur s : string) : list string :=
  match s with
  | EmptyString => if is_empty cur then [] else [cur]
  | String c r =>
      if is_space c
      then (if is_empty cur then tokens EmptyString r
            else cur :: tokens EmptyString r)
      else tokens (cur ++ String c EmptyString) r
  end.

Definition split_ws (s : string) : list string := tokens EmptyString s.

(** [s.lstrip()], [s.rstrip(chars)] and [s.strip()]. *)
Fixpoint lstrip (s : string) : string :=
  match s with
  | EmptyString => EmptyString
  | String c r => if is_space c then lstrip r else s
  end.

Fixpoint rstrip_if (p : ascii -> bool) (s : string) : string :=
  match s with
  | EmptyString => EmptyString
  | String c r =>
      match rstrip_if p r with
      | EmptyString => if p c then EmptyString else String c EmptyString
      | r' => String c r'
      end
  end.

Definition strip (s : string) : string := lstrip (rstrip_if is_space s).

(** [s.replace(old, '')] for a non-empty [old]: the occurrences of [old] are
    removed from left to right; [skip] characters of an occurrence are still
    to be dropped. *)
Fixpoint remove_all_from (old : string) (skip : nat) (s : string) : string :=
  match s with
  | EmptyString => EmptyString
  | String c r =>
      match skip with
      | S k => remove_all_from old k r
      | O => if prefix old s
             then remove_all_from old (String.length old - 1) r
             else String c (remove_all_from old 0 r)
      end
  end.

Definition remove_all (old s : string) : string := remove_all_from old 0 s.

(** Assignments to one key of the dict [current_task]. *)
Definition with_description (v : string) (d : TaskData) : TaskData :=
  mkTaskData (data_id d) v (data_component d) (data_files d)
             (data_dependencies d) (data_parallel_safe d)
             (data_estimated_effort d).
Definition with_component (v : string) (d : TaskData) : TaskData :=
  mkTaskData (data_id d) (data_description d) v (data_files d)
             (data_dependencies d) (data_parallel_safe d)
             (data_estimated_effort d).
Definition with_files (v : list string) (d : TaskData) : TaskData :=
  mkTaskData (data_id d) (data_description d) (data_component d) v
             (data_dependencies d) (data_parallel_safe d)
             (data_estimated_effort d).
Definition with_dependencies (v : list string) (d : TaskData) : TaskData :=
  mkTaskData (data_id d) (data_description d) (data_component d)
             (data_files d) v (data_parallel_safe d)
             (data_estimated_effort d).

Definition header_marker : string := "### T".
Definition description_marker : string := "**Description:**".
Definition files_marker : string := "**Files:**".
Definition dependencies_marker : string := "**Dependencies:**".
Definition component_marker : string := "**Component:**".

(** [line.split()[1].rstrip(':')] (line 119); [None] is the [IndexError]. *)
Definition header_id (line : string) : option string :=
  match split_ws line with
  | _ :: tok :: _ => Some (rstrip_if (Ascii.eqb ":") tok)
  | _ => None
  end.

(** [line.replace(marker, '').strip()]. *)
Definition field_value (marker line : string) : string :=
  strip (remove_all marker line).

(** The comprehensions of lines 134 and 137. *)
Definition comma_items (s : string) : list string :=
  map strip (filter (fun f => negb (is_empty (strip f))) (split_on "," s)).

(** The state of the loop: [tasks] and [current_task]. *)
Definition ParseState : Type := (list TaskData * option TaskData)%type.

Definition flush (st : ParseState) : list TaskData :=
  match snd st with
  | Some current_task => (fst st ++ [current_task])%list
  | None => fst st
  end.

(** The body of the loop of [_parse_tasks_markdown]. *)
Definition parse_line (st : ParseState) (line : string) : option ParseState :=
  if prefix header_marker line then
    match header_id line with
    | None => None
    | Some task_id =>
        Some (flush st,
              Some (mkTaskData task_id EmptyString "general" [] []
                               (str_in "[P]" line) 1))
    end
  else
    match snd st with
    | None => Some st
    | Some current_task =>
        if negb (is_empty (strip line)) then
          if prefix description_marker line then
            Some (fst st, Some (with_description
                                  (field_value description_marker line)
                                  current_task))
          else if prefix files_marker line then
            Some (fst st, Some (with_files
                                  (comma_items (field_value files_marker line))
                                  current_task))
          else if prefix dependencies_marker line then
            Some (fst st, Some (with_dependencies
                                  (comma_items
                                     (field_value dependencies_marker line))
                                  current_task))
          else if prefix component_marker line then
            Some (fst st, Some (with_component
                                  (field_value component_marker line)
                                  current_task))
          else Some st
        else Some st
    end.

Fixpoint parse_lines (lines : list string) (st : ParseState)
  : option ParseState :=
  match lines with
  | [] => Some st
  | line :: r => match parse_line st line with
                 | Some st1 => parse_lines r st1
                 | None => None
                 end
  end.

Definition parse_document (lines : list string) : option (list TaskData) :=
  option_map flush (parse_lines lines ([], None)).

Definition newline : ascii := ascii_of_nat 10.

Definition _parse_tasks_markdown (content : string) : option (list TaskData) :=
  parse_document (split_on newline content).

(** ** The command of a task (lines 234-252) *)

Definition double_quote : ascii := ascii_of_nat 34.

Definition eol : string := String newline EmptyString.

(** The eight blanks that begin each line of the literal. *)
Definition indent : string := "        ".

(** The f-string of lines 236-250; [', '.join] is [String.concat]. *)
Definition context (agent : AuggieAgent.t) (task : Task.t) : string :=
  eol
  ++ indent ++ "You are " ++ AuggieAgent.name agent ++ ", specialized in "
     ++ AuggieAgent.specialization agent ++ "." ++ eol
  ++ indent ++ eol
  ++ indent ++ "Task: " ++ Task.description task ++ eol
  ++ indent ++ "Component: " ++ Task.component task ++ eol
  ++ indent ++ "Files to work on: " ++ String.concat ", " (Task.files task)
     ++ eol
  ++ indent ++ eol
  ++ indent ++ "Follow the specifications in specs/ directory." ++ eol
  ++ indent ++ "Apply the constitution from memory/constitution.md." ++ eol
  ++ indent ++ eol
  ++ indent ++ "Focus on your specialization: "
     ++ AuggieAgent.specialization agent ++ eol
  ++ indent ++ "Coordinate with other agents through shared specifications."
     ++ eol
  ++ indent ++ eol
  ++ indent ++ "Implement this task: " ++ Task.description task ++ eol
  ++ indent.

(** Line 252. *)
Definition _build_auggie_command (agent : AuggieAgent.t) (task : Task.t)
  : string :=
  "auggie --print " ++ String double_quote (context agent task)
  ++ String double_quote EmptyString.

(** ** The status report (lines 319-340) *)

(** [status.value] (lines 20-26). *)
Definition status_value (s : TaskStatus) : string :=
  match s with
  | PENDING => "pending"
  | ASSIGNED => "assigned"
  | IN_PROGRESS => "in_progress"
  | COMPLETED => "completed"
  | FAILED => "failed"
  | BLOCKED => "blocked"
  end.

(** The inner dicts of the report. *)
Record AgentReport : Type := mkAgentReport {
  report_name : string;
  report_specialization : string;
  report_status : string;
  report_current_task : option string
}.

Record TaskReport : Type := mkTaskReport {
  report_description : string;
  report_task_status : string;
  report_assigned_agent : option string;
  report_component : string
}.

(** The two dict comprehensions: one entry for each item of [self.agents]
    and of [self.tasks], in insertion order. *)
Record StatusReport : Type := mkStatusReport {
  report_agents : list (string * AgentReport);
  report_tasks : list (string * TaskReport)
}.

Definition get_status_report (o : Orchestrator) : StatusReport :=
  mkStatusReport
    (map (fun agent =>
            (AuggieAgent.id agent,
             mkAgentReport (AuggieAgent.name agent)
                           (AuggieAgent.specialization agent)
                           (AuggieAgent.status agent)
                           (AuggieAgent.current_task agent)))
         (agents o))
    (map (fun task =>
            (Task.id task,
             mkTaskReport (Task.description task)
                          (status_value (Task.status task))
                          (Task.assigned_agent task)
                          (Task.component task)))
         (tasks o)).

(** * Properties: definitions *)

(** The status of the task stored under [k], and the status and current task
    of the agent stored under [k]. *)
Definition task_status (k : string) (o : Orchestrator) : option TaskStatus :=
  option_map Task.status (get_task k o).

Definition agent_state (k : string) (o : Orchestrator)
  : option (string * option string) :=
  option_map (fun a => (AuggieAgent.status a, AuggieAgent.current_task a))
             (get_agent k o).

(** The worker boundary signals a failure (exit code not 0) or raises. *)
Definition worker_failed (aw : Await) : bool :=
  match aw with
  | Answer (Returned returncode) => negb (returncode =? 0)%Z
  | Answer WorkerRaised => true
  | CancelledError => false
  end.

(** The execution enters the clause [except Exception]: the worker boundary
    raised, or it answered 0 and the merge-back raised. *)
Definition internal_error (aw : Await) (m : MergeResult) : bool :=
  match aw, m with
  | Answer WorkerRaised, _ => true
  | Answer (Returned returncode), MergeRaised => (returncode =? 0)%Z
  | _, _ => false
  end.

(** The score the specification describes: both substring tests are
    case-insensitive. *)
Definition score_case_insensitive (agent : AuggieAgent.t) (task : Task.t) : Z :=
  ((if str_in (lower (AuggieAgent.specialization agent))
              (lower (Task.component task))
    then 10 else 0)
   + (if str_in (lower (AuggieAgent.specialization agent))
                (lower (Task.description task))
      then 5 else 0))%Z.

(** The two states have the same keys, in the same order. *)
Definition same_keys (o o' : Orchestrator) : Prop :=
  keys AuggieAgent.id (agents o') = keys AuggieAgent.id (agents o) /\
  keys Task.id (tasks o') = keys Task.id (tasks o).

(** An agent whose status is "working" has a current task. *)
Definition working_has_task (o : Orchestrator) : Prop :=
  forall a, In a (agents o) -> AuggieAgent.status a = "working" ->
            truthy (AuggieAgent.current_task a) = true.

(** The two values of an agent's status. *)
Definition two_statuses (o : Orchestrator) : Prop :=
  forall a, In a (agents o) ->
            AuggieAgent.status a = "idle" \/ AuggieAgent.status a = "working".

(** The agent of a coroutine that has not run yet still holds its task. *)
Definition holds_task (o : Orchestrator) (e : Exec) : Prop :=
  forall a, In a (agents o) -> AuggieAgent.id a = AuggieAgent.id (fst e) ->
            truthy (AuggieAgent.current_task a) = true.

(** What holds of the agents at every point of a run. *)
Definition agent_inv (c : Config) : Prop :=
  NoDup (keys AuggieAgent.id (agents (orch c))) /\
  working_has_task (orch c) /\
  match phase c with
  | Waiting todo _ _ => Forall (holds_task (orch c)) todo
  | _ => True
  end.

(** The fields the scheduler never writes. *)
Definition same_static (t t' : Task.t) : Prop :=
  Task.id t' = Task.id t /\ Task.files t' = Task.files t /\
  Task.dependencies t' = Task.dependencies t /\
  Task.parallel_safe t' = Task.parallel_safe t.

(** [t'] is [t] after an assign phase entered in state [o0]: untouched, or
    moved from pending to assigned after [_can_assign_task] answered [True]
    for it. *)
Definition assigned_from (o0 : Orchestrator) (t t' : Task.t) : Prop :=
  same_static t t' /\
  (Task.status t' = Task.status t \/
   (Task.status t = PENDING /\ Task.status t' = ASSIGNED /\
    _can_assign_task o0 t = true)).

(** [o] is [o0] after some iterations of the loop of [assign_tasks]. *)
Definition advance (o0 o : Orchestrator) : Prop :=
  Forall2 (assigned_from o0) (tasks o0) (tasks o).

(** Some agent is idle. *)
Definition some_idle (o : Orchestrator) : Prop :=
  exists a, In a (agents o) /\ is_idle a = true.

(** Pending tasks remain, none of them is unblocked, and no agent holds a
    task to run. *)
Definition stalled (o : Orchestrator) : Prop :=
  (exists t, In t (tasks o) /\ Task.status t = PENDING) /\
  (forall t, In t (tasks o) -> Task.status t = PENDING ->
             deps_met o t = false) /\
  (forall a, In a (agents o) -> truthy (AuggieAgent.current_task a) = false).

(** In a stall the loop turns for ever through the same three points and
    writes nothing. *)
Definition polling (o : Orchestrator) (c : Config) : Prop :=
  orch c = o /\
  (phase c = Assigning \/ phase c = Checking [] \/ phase c = Sleeping []).

(** No coroutine that is about to run or suspended at line 211 is for the
    task stored under [k]. *)
Definition not_scheduled (k : string) (c : Config) : Prop :=
  match phase c with
  | Waiting todo live _ =>
      forall e, In e (todo ++ live)%list -> Task.id (snd e) <> k
  | _ => True
  end.

(** The task stored under [k] is in_progress and nothing will resume it. *)
Definition parked (k : string) (c : Config) : Prop :=
  NoDup (keys Task.id (tasks (orch c))) /\
  task_status k (orch c) = Some IN_PROGRESS /\
  not_scheduled k c.

(** Every task held by an agent is assigned, and no task is held by two
    agents. *)
Definition held_ok (o : Orchestrator) : Prop :=
  wf o /\
  (forall a, In a (agents o) -> truthy (AuggieAgent.current_task a) = true ->
             exists k, AuggieAgent.current_task a = Some k /\
                       task_status k o = Some ASSIGNED) /\
  (forall a b, In a (agents o) -> In b (agents o) ->
               truthy (AuggieAgent.current_task a) = true ->
               AuggieAgent.current_task a = AuggieAgent.current_task b ->
               a = b).

(** The keys of the task and of the agent of a coroutine. *)
Definition exec_task_id (e : Exec) : string := Task.id (snd e).
Definition exec_agent_id (e : Exec) : string := AuggieAgent.id (fst e).

(** What holds of the coroutines and of the agents at each point of the
    loop, in a run from an initial state. *)
Definition exec_inv (c : Config) : Prop :=
  wf (orch c) /\
  match phase c with
  | Assigning =>
      forall a, In a (agents (orch c)) ->
                truthy (AuggieAgent.current_task a) = false
  | Waiting todo live _ =>
      NoDup (map exec_task_id (todo ++ live)) /\
      (forall e, In e todo ->
                 task_status (exec_task_id e) (orch c) = Some ASSIGNED) /\
      (forall e, In e live ->
                 task_status (exec_task_id e) (orch c) = Some IN_PROGRESS) /\
      (forall a, In a (agents (orch c)) ->
                 truthy (AuggieAgent.current_task a) = true ->
                 In (AuggieAgent.id a) (map exec_agent_id (todo ++ live)))
  | Checking p | Sleeping p =>
      forall a, In a (agents (orch c)) ->
                truthy (AuggieAgent.current_task a) = true ->
                In (AuggieAgent.id a) (map exec_agent_id p)
  | Terminated | Crashed => True
  end.

(** ** Parser, stores, runs and reports *)

(** A header line, and what line 119 and line 126 read from it. *)
Definition is_header (line : string) : bool := prefix header_marker line.

Definition header_of_line (line : string) : option (string * bool) :=
  option_map (fun task_id => (task_id, str_in "[P]" line)) (header_id line).

Fixpoint last_char (s : string) : option ascii :=
  match s with
  | EmptyString => None
  | String c r => match last_char r with
                  | Some d => Some d
                  | None => Some c
                  end
  end.

Definition first_char (s : string) : option ascii :=
  match s with
  | String c _ => Some c
  | EmptyString => None
  end.

Fixpoint has_char (c : ascii) (s : string) : bool :=
  match s with
  | EmptyString => false
  | String a r => Ascii.eqb a c || has_char c r
  end.

(** An identifier read from a header: "T" followed by anything, with no
    colon at the end. *)
Definition good_id (i : string) : Prop :=
  (exists w, i = String "T" w) /\ last_char i <> Some ":"%char.

(** An item of a list read from a "Files" or "Dependencies" line. *)
Definition clean_item (x : string) : Prop :=
  x <> EmptyString /\ has_char "," x = false /\
  (forall c, first_char x = Some c -> is_space c = false) /\
  (forall c, last_char x = Some c -> is_space c = false).

(** The lines the parser reads: those that start with one of the five
    markers. *)
Definition is_marked (line : string) : bool :=
  prefix header_marker line || prefix description_marker line ||
  prefix files_marker line || prefix dependencies_marker line ||
  prefix component_marker line.
(** The last entry of a list with a given identifier. *)
Fixpoint last_entry (k : string) (l : list TaskData) : option TaskData :=
  match l with
  | [] => None
  | d :: r => match last_entry k r with
              | Some x => Some x
              | None => if String.eqb (data_id d) k then Some d else None
              end
  end.

Fixpoint last_config (k : string) (l : list AgentConfig)
  : option AgentConfig :=
  match l with
  | [] => None
  | c :: r => match last_config k r with
              | Some x => Some x
              | None => if String.eqb (config_id c) k then Some c else None
              end
  end.

(** [t'] is [t] with, at most, another status and another output path: the
    two attributes of a task that [execute_task] writes. *)
Definition same_but_outcome (t t' : Task.t) : Prop :=
  Task.id t' = Task.id t /\ Task.description t' = Task.description t /\
  Task.component t' = Task.component t /\ Task.files t' = Task.files t /\
  Task.dependencies t' = Task.dependencies t /\
  Task.parallel_safe t' = Task.parallel_safe t /\
  Task.estimated_effort t' = Task.estimated_effort t /\
  Task.assigned_agent t' = Task.assigned_agent t.

(** [a'] is [a] with, at most, another status and another current task. *)
Definition same_but_activity (a a' : AuggieAgent.t) : Prop :=
  AuggieAgent.id a' = AuggieAgent.id a /\
  AuggieAgent.name a' = AuggieAgent.name a /\
  AuggieAgent.specialization a' = AuggieAgent.specialization a /\
  AuggieAgent.working_dir a' = AuggieAgent.working_dir a.

(** What lines 213-229 write on the task, for each answer of the worker and
    of the merge-back. *)
Definition task_outcome (agent : AuggieAgent.t) (aw : Await) (m : MergeResult)
  (t : Task.t) : Task.t :=
  match aw with
  | CancelledError => t
  | Answer WorkerRaised => Task.set_status FAILED t
  | Answer (Returned returncode) =>
      if (returncode =? 0)%Z then
        let done :=
          Task.set_output_path
            (Some (AuggieAgent.working_dir agent ++ "/output"))
            (Task.set_status COMPLETED t) in
        match m with
        | Merged => done
        | MergeRaised => Task.set_status FAILED done
        end
      else Task.set_status FAILED t
  end.

(** The moves of a status that the scheduler makes. *)
Definition advances (s s' : TaskStatus) : Prop :=
  s' = s \/ (s = PENDING /\ s' = ASSIGNED) \/
  (s = ASSIGNED /\ s' = IN_PROGRESS) \/
  (s = IN_PROGRESS /\ (s' = COMPLETED \/ s' = FAILED)).

(** Every current task of an agent is a key of the graph. *)
Definition holds_known_tasks (o : Orchestrator) : Prop :=
  forall a k, In a (agents o) -> AuggieAgent.current_task a = Some k ->
              In k (keys Task.id (tasks o)).

(** Every task that has left pending has its prerequisites completed, those
    that resolve to a task. *)
Definition prerequisites_done (o : Orchestrator) : Prop :=
  forall k t, get_task k o = Some t -> Task.status t <> PENDING ->
  forall d s, In d (Task.dependencies t) -> task_status d o = Some s ->
              s = COMPLETED.

(** The record of an assignment on a task: a pending task names no agent,
    any other task names an agent of the registry. *)
Definition assignment_recorded (o : Orchestrator) (t : Task.t) : Prop :=
  match Task.assigned_agent t with
  | None => Task.status t = PENDING
  | Some a => Task.status t <> PENDING /\ In a (keys AuggieAgent.id (agents o))
  end.

Definition records_consistent (o : Orchestrator) : Prop :=
  forall k t, get_task k o = Some t -> assignment_recorded o t.

(** The coroutines of the current round that have not ended. *)
Definition coroutines (p : Phase) : list Exec :=
  match p with
  | Waiting todo live _ => (todo ++ live)%list
  | Checking pending => pending
  | Sleeping cancelled => cancelled
  | Assigning | Terminated | Crashed => []
  end.

(** The task of a coroutine names the agent of the coroutine. *)
Definition runs_on_assigned_agent (o : Orchestrator) (e : Exec) : Prop :=
  exists t, get_task (exec_task_id e) o = Some t /\
            Task.assigned_agent t = Some (exec_agent_id e).

(** Every task held by an agent names that agent. *)
Definition held_names_holder (o : Orchestrator) : Prop :=
  forall a k t, In a (agents o) ->
                truthy (AuggieAgent.current_task a) = true ->
                AuggieAgent.current_task a = Some k ->
                get_task k o = Some t ->
                Task.assigned_agent t = Some (AuggieAgent.id a).

Definition coroutine_inv (c : Config) : Prop :=
  NoDup (map exec_agent_id (coroutines (phase c))) /\
  forall e, In e (coroutines (phase c)) ->
            In (exec_agent_id e) (keys AuggieAgent.id (agents (orch c))) /\
            runs_on_assigned_agent (orch c) e.

(** The occurrences of a character in a text. *)
Fixpoint count_char (c : ascii) (s : string) : nat :=
  match s with
  | EmptyString => 0
  | String a r => (if Ascii.eqb a c then 1 else 0) + count_char c r
  end.

(** [a'] is [a] with, at most, another current task. *)
Definition same_but_current_task (a a' : AuggieAgent.t) : Prop :=
  same_but_activity a a' /\ AuggieAgent.status a' = AuggieAgent.status a.

(** The coroutines that [asyncio.wait] returns as pending are suspended at
    line 211: their tasks are in_progress. *)
Definition pending_in_progress (c : Config) : Prop :=
  match phase c with
  | Checking pending =>
      forall e, In e pending ->
                task_status (exec_task_id e) (orch c) = Some IN_PROGRESS
  | _ => True
  end.

(** No agent is at work. *)
Definition all_free (o : Orchestrator) : Prop :=
  forall a, In a (agents o) ->
            AuggieAgent.status a = "idle" /\
            truthy (AuggieAgent.current_task a) = false.

(** * Sample states and runs *)

(** Sample data: agents as [main] creates them (lines 350-357), tasks as
    [load_tasks_from_spec] creates them. *)
Definition an_agent (i spec : string) : AuggieAgent.t :=
  new_agent "/path/to/project" (mkAgentConfig i (i ++ " specialist") spec).

Definition a_task (i comp : string) (fs deps : list string) (p : bool) : Task.t :=
  new_task (mkTaskData i EmptyString comp fs deps p 1).

Definition backend_agent : AuggieAgent.t := an_agent "backend" "backend".
Definition frontend_agent : AuggieAgent.t := an_agent "frontend" "frontend".
Definition api_task : Task.t := a_task "T1" "backend-api" ["api.py"] [] false.
Definition one_pair : Orchestrator := mkOrch [backend_agent] [api_task].

Definition completed_task : Task.t :=
  Task.mk "T9" EmptyString "database" ["schema.sql"] [] false 1 COMPLETED
          (Some "backend") (Some "/path/to/project/work-backend/output").

Definition running_task : Task.t :=
  Task.mk "T0" EmptyString "backend" ["api.py"; "db.py"] [] false 1 IN_PROGRESS
          (Some "frontend") None.

Definition candidate_task : Task.t :=
  a_task "T1" "backend-api" ["api.py"] ["T9"] false.

Definition busy_graph : Orchestrator :=
  mkOrch [backend_agent; frontend_agent]
         [completed_task; running_task; candidate_task].

Definition Backend_agent : AuggieAgent.t := an_agent "be" "Backend".
Definition Backend_task : Task.t :=
  Task.mk "T1" "Add the Backend endpoint" "Backend-API" ["api.py"] [] false 1
          PENDING None None.
Definition mixed_case_registry : Orchestrator :=
  mkOrch [frontend_agent; Backend_agent] [Backend_task].

Definition second_task : Task.t := a_task "T2" "backend-db" ["db.py"] [] false.
Definition one_agent_two_tasks : Orchestrator :=
  mkOrch [backend_agent] [api_task; second_task].

(** A graph whose only task names a prerequisite that is not in the graph. *)
Definition ghost_task : Task.t :=
  a_task "T1" "backend-api" ["api.py"] ["T0"] false.
Definition ghost_graph : Orchestrator := mkOrch [backend_agent] [ghost_task].

(** Two tasks that write the same file, one of them parallel-safe, and an
    agent for each. *)
Definition ui_task : Task.t := a_task "A" "frontend-ui" ["shared.py"] [] false.
Definition svc_task : Task.t := a_task "B" "backend-svc" ["shared.py"] [] true.
Definition shared_file_graph : Orchestrator :=
  mkOrch [frontend_agent; backend_agent] [ui_task; svc_task].

(** A graph for a second round: "D" waits for "C"; "A" is interrupted in the
    first round and stays in_progress. *)
Definition db_task : Task.t := a_task "C" "backend-db" ["db.py"] [] false.
Definition late_task : Task.t := a_task "D" "backend-api" ["api.py"] ["C"] false.
Definition two_rounds_graph : Orchestrator :=
  mkOrch [frontend_agent; backend_agent] [ui_task; db_task; late_task].

Definition first_round : list Label :=
  [LAssign; LStart 0; LStart 0; LFinish 0 (Returned 0) Merged; LWaitReturn;
   LCheck; LCancel 0; LWake].

Definition after_first_round : Config :=
  Eval vm_compute in
    match run first_round (start two_rounds_graph) with
    | Some c => c
    | None => start two_rounds_graph
    end.

Definition second_assign : Config :=
  Eval vm_compute in
    match step LAssign after_first_round with
    | Some c => c
    | None => after_first_round
    end.

Definition late_task_assigned : Task.t :=
  Task.set_assigned_agent (Some "backend") (Task.set_status ASSIGNED late_task).

Definition one_pair_started : Config :=
  Eval vm_compute in
    match run [LAssign; LStart 0] (start one_pair) with
    | Some c => c
    | None => start one_pair
    end.

Definition backend_agent_working : AuggieAgent.t :=
  AuggieAgent.set_current_task (Some "T1")
    (AuggieAgent.set_status "working" backend_agent).

(** "T1" waits for "T0", and the execution of "T0" fails in the first
    round. *)
Definition first_task : Task.t := a_task "T0" "backend-db" ["db.py"] [] false.
Definition blocked_initial : Orchestrator :=
  mkOrch [backend_agent] [first_task; ghost_task].

Definition failing_round : list Label :=
  [LAssign; LStart 0; LFinish 0 (Returned 1) Merged; LWaitReturn; LCheck;
   LWake].

Definition blocked_graph : Orchestrator :=
  mkOrch [backend_agent]
         [Task.set_assigned_agent (Some "backend")
            (Task.set_status FAILED first_task);
          ghost_task].

Definition first_completion : Config :=
  Eval vm_compute in
    match run [LAssign; LStart 0; LStart 0; LFinish 0 (Returned 0) Merged]
              (start two_rounds_graph) with
    | Some c => c
    | None => start two_rounds_graph
    end.

Definition frontend_holding : AuggieAgent.t :=
  AuggieAgent.set_current_task (Some "A") frontend_agent.
Definition ui_task_assigned : Task.t :=
  Task.set_assigned_agent (Some "frontend") (Task.set_status ASSIGNED ui_task).

Definition nl : string := String newline EmptyString.
Definition sample_tasks_md : string :=
  "# Tasks" ++ nl ++
  "### T001: [P] Create the API" ++ nl ++
  "**Description:** Build the backend endpoint " ++ nl ++
  "**Files:** api.py , ,db.py" ++ nl ++
  nl ++
  "### T002:" ++ nl ++
  "**Dependencies:** T001" ++ nl ++
  "**Component:** frontend".

(** What [_parse_tasks_markdown] reads from [sample_tasks_md]. *)
Definition sample_parsed : list TaskData :=
  [mkTaskData "T001" "Build the backend endpoint" "general"
              ["api.py"; "db.py"] [] true 1;
   mkTaskData "T002" EmptyString "frontend" [] ["T001"] false 1].


(** A whole run of [one_pair]. *)
Definition one_pair_run : list Label :=
  [LAssign; LStart 0; LFinish 0 (Returned 0) Merged; LWaitReturn; LCheck].

Definition one_pair_finished : Config :=
  Eval vm_compute in
    match run one_pair_run (start one_pair) with
    | Some c => c
    | None => start one_pair
    end.

(** The coroutine of [one_pair_started]. *)
Definition one_pair_exec : Exec :=
  Eval vm_compute in
    match coroutines (phase one_pair_started) with
    | e :: _ => e
    | [] => (backend_agent, api_task)
    end.

(** The coroutine that is suspended in [first_completion], and the task
    completed there. *)
Definition first_completion_live : list Exec :=
  Eval vm_compute in coroutines (phase first_completion).

Definition db_task_done : Task.t :=
  Eval vm_compute in
    match get_task "C" (orch first_completion) with
    | Some t => t
    | None => db_task
    end.

(** A registry whose only agent is at work. *)
Definition all_working : Orchestrator :=
  mkOrch [backend_agent_working] [api_task].

(** * Properties: proofs *)


(** ** Dicts *)

Section DictFacts.
Context {V : Type} (key : V -> string).

Lemma dict_get_Some (k : string) (d : list V) (v : V) :
  dict_get key k d = Some v -> In v d /\ key v = k.
Proof.
  unfold dict_get. intros H. apply find_some in H.
  destruct H as [Hin Hk]. apply String.eqb_eq in Hk. auto.
Qed.

Lemma dict_get_In (d : list V) (v : V) :
  NoDup (keys key d) -> In v d -> dict_get key (key v) d = Some v.
Proof.
  unfold dict_get, keys.
  induction d as [|x r IH]; simpl; intros Hnd Hin; [contradiction|].
  inversion Hnd as [|? ? Hx Hr]; subst.
  destruct Hin as [->|Hin].
  - now rewrite String.eqb_refl.
  - destruct (String.eqb_spec (key x) (key v)) as [E|_].
    + exfalso. apply Hx. rewrite E. now apply in_map.
    + auto.
Qed.

Lemma NoDup_keys_inj (d : list V) (x y : V) :
  NoDup (keys key d) -> In x d -> In y d -> key x = key y -> x = y.
Proof.
  intros Hnd Hx Hy E.
  pose proof (dict_get_In d x Hnd Hx) as H1.
  pose proof (dict_get_In d y Hnd Hy) as H2.
  rewrite E in H1. congruence.
Qed.

Section Update.
Variables (k : string) (f : V -> V).
Hypothesis f_key : forall v, key (f v) = key v.

Lemma dict_update_keys (d : list V) :
  keys key (dict_update key k f d) = keys key d.
Proof.
  unfold keys, dict_update. rewrite map_map. apply map_ext.
  intros v. destruct (String.eqb (key v) k); auto.
Qed.

Lemma In_dict_update (d : list V) (x : V) :
  In x (dict_update key k f d) ->
  exists y, In y d /\ key y = key x /\
            ((key y = k /\ x = f y) \/ (key y <> k /\ x = y)).
Proof.
  unfold dict_update. intros H. apply in_map_iff in H.
  destruct H as [y [E Hin]]. exists y. split; [exact Hin|].
  destruct (String.eqb_spec (key y) k) as [Hk|Hk]; subst x.
  - rewrite f_key. auto.
  - auto.
Qed.

Lemma dict_update_In (d : list V) (y : V) :
  In y d -> In (if String.eqb (key y) k then f y else y) (dict_update key k f d).
Proof.
  intros H. unfold dict_update.
  apply (in_map (fun v => if String.eqb (key v) k then f v else v)) in H.
  exact H.
Qed.

Lemma dict_get_update (k' : string) (d : list V) :
  dict_get key k' (dict_update key k f d) =
  option_map (fun v => if String.eqb (key v) k then f v else v)
             (dict_get key k' d).
Proof.
  unfold dict_get, dict_update.
  induction d as [|x r IH]; simpl; [reflexivity|].
  destruct (String.eqb (key x) k) eqn:E.
  - rewrite f_key. destruct (String.eqb (key x) k'); simpl; [now rewrite E|auto].
  - destruct (String.eqb (key x) k'); simpl; [now rewrite E|auto].
Qed.

End Update.


End DictFacts.

Lemma TaskStatus_eqb_eq (a b : TaskStatus) : TaskStatus_eqb a b = true <-> a = b.
Proof. destruct a, b; simpl; split; intros H; congruence. Qed.





(** ** Reading the stores *)

Lemma get_task_update_agent k k' f o :
  get_task k (update_agent k' f o) = get_task k o.
Proof. reflexivity. Qed.

Lemma get_agent_update_task k k' f o :
  get_agent k (update_task k' f o) = get_agent k o.
Proof. reflexivity. Qed.

Lemma get_task_update_task k k' f o :
  (forall t, Task.id (f t) = Task.id t) ->
  get_task k (update_task k' f o) =
  option_map (fun t => if String.eqb (Task.id t) k' then f t else t)
             (get_task k o).
Proof. intros Hf. unfold get_task, update_task; simpl. now apply dict_get_update. Qed.

Lemma get_agent_update_agent k k' f o :
  (forall a, AuggieAgent.id (f a) = AuggieAgent.id a) ->
  get_agent k (update_agent k' f o) =
  option_map (fun a => if String.eqb (AuggieAgent.id a) k' then f a else a)
             (get_agent k o).
Proof. intros Hf. unfold get_agent, update_agent; simpl. now apply dict_get_update. Qed.

Lemma get_task_id k o t : get_task k o = Some t -> Task.id t = k.
Proof. intros H. now apply dict_get_Some in H. Qed.

Lemma get_agent_id k o a : get_agent k o = Some a -> AuggieAgent.id a = k.
Proof. intros H. now apply dict_get_Some in H. Qed.

(** The status of the task stored under [k] after an assignment to it. *)
Lemma task_status_update_same k f o :
  (forall t, Task.id (f t) = Task.id t) ->
  task_status k (update_task k f o) =
  option_map (fun t => Task.status (f t)) (get_task k o).
Proof.
  intros Hf. unfold task_status. rewrite get_task_update_task by exact Hf.
  destruct (get_task k o) as [t|] eqn:E; simpl; [|reflexivity].
  apply get_task_id in E. rewrite E, String.eqb_refl. reflexivity.
Qed.

Lemma task_status_update_other k k' f o :
  (forall t, Task.id (f t) = Task.id t) -> k <> k' ->
  task_status k (update_task k' f o) = task_status k o.
Proof.
  intros Hf Hk. unfold task_status. rewrite get_task_update_task by exact Hf.
  destruct (get_task k o) as [t|] eqn:E; simpl; [|reflexivity].
  apply get_task_id in E.
  destruct (String.eqb_spec (Task.id t) k'); [congruence|reflexivity].
Qed.

Lemma agent_state_update_same k f o :
  (forall a, AuggieAgent.id (f a) = AuggieAgent.id a) ->
  agent_state k (update_agent k f o) =
  option_map (fun a => (AuggieAgent.status (f a), AuggieAgent.current_task (f a)))
             (get_agent k o).
Proof.
  intros Hf. unfold agent_state. rewrite get_agent_update_agent by exact Hf.
  destruct (get_agent k o) as [a|] eqn:E; simpl; [|reflexivity].
  apply get_agent_id in E. rewrite E, String.eqb_refl. reflexivity.
Qed.

(** ** The execution coordinator *)

(** The final state of the task and of the agent in each of the five ways a
    call of [execute_task] can go. *)
Lemma execute_task_cases agent task aw m o :
  get_task (Task.id task) o <> None ->
  get_agent (AuggieAgent.id agent) o <> None ->
  let r := execute_task agent task aw m o in
  agent_state (AuggieAgent.id agent) (state_of r) = Some ("idle", None) /\
  match aw with
  | CancelledError =>
      task_status (Task.id task) (state_of r) = Some IN_PROGRESS /\
      existsb is_merge (calls_of r) = false /\ returned r = None
  | Answer WorkerRaised =>
      task_status (Task.id task) (state_of r) = Some FAILED /\
      existsb is_merge (calls_of r) = false /\ returned r = Some false
  | Answer (Returned rc) =>
      if (rc =? 0)%Z then
        match m with
        | Merged =>
            task_status (Task.id task) (state_of r) = Some COMPLETED /\
            existsb is_merge (calls_of r) = true /\ returned r = Some true
        | MergeRaised =>
            task_status (Task.id task) (state_of r) = Some FAILED /\
            existsb is_merge (calls_of r) = true /\ returned r = Some false
        end
      else
        task_status (Task.id task) (state_of r) = Some FAILED /\
        existsb is_merge (calls_of r) = false /\ returned r = Some false
  end.
Proof.
  intros Ht Ha.
  destruct (get_task (Task.id task) o) as [t0|] eqn:Et; [clear Ht|congruence].
  destruct (get_agent (AuggieAgent.id agent) o) as [a0|] eqn:Ea;
    [clear Ha|congruence].
  assert (Hag : forall o1, get_agent (AuggieAgent.id agent) o1 <> None ->
            agent_state (AuggieAgent.id agent) (finally_clause agent o1)
            = Some ("idle", None)).
  { intros o1 H1. unfold finally_clause.
    rewrite agent_state_update_same by reflexivity.
    destruct (get_agent (AuggieAgent.id agent) o1); [reflexivity|congruence]. }
  assert (Hb : get_agent (AuggieAgent.id agent) (begin_execution agent task o)
               <> None).
  { unfold begin_execution.
    rewrite get_agent_update_agent, get_agent_update_task, Ea by reflexivity.
    discriminate. }
  assert (Hs : get_task (Task.id task) (begin_execution agent task o) <> None).
  { unfold begin_execution.
    rewrite get_task_update_agent, get_task_update_task, Et by reflexivity.
    discriminate. }
  destruct (get_task (Task.id task) (begin_execution agent task o))
    as [t1|] eqn:Et1; [clear Hs|congruence].
  assert (Hst1 : Task.status t1 = IN_PROGRESS).
  { unfold begin_execution in Et1.
    rewrite get_task_update_agent, get_task_update_task, Et in Et1
      by reflexivity.
    simpl in Et1. apply get_task_id in Et. rewrite Et, String.eqb_refl in Et1.
    injection Et1 as <-. reflexivity. }
  cbv zeta. unfold execute_task, resume_execution.
  destruct aw as [[rc|]|]; [destruct (rc =? 0)%Z; [destruct m|]| |];
    unfold state_of, calls_of, returned; simpl fst; simpl snd;
    (split; [apply Hag; unfold except_clause;
             repeat rewrite get_agent_update_task; exact Hb|]);
    (split; [|split; reflexivity]);
    unfold finally_clause, except_clause, task_status;
    rewrite get_task_update_agent;
    repeat (rewrite get_task_update_task by reflexivity);
    rewrite Et1; simpl;
    pose proof (get_task_id _ _ _ Et1) as Eid;
    repeat (simpl; rewrite ?Eid, ?String.eqb_refl); simpl; congruence.
Qed.

(** C7, as amended: on a failure signal or an error of the worker boundary
    [execute_task] sets the task to failed and does not call the merge-back;
    when the merge-back itself raises, the task is set to failed as well,
    after the merge-back was called; and however the execution ends, by a
    success, a failure, an error or a cancellation, the agent is left idle
    with no current task. *)
Theorem C7_failure_marks_failed_and_agent_is_reset agent task aw m o :
  get_task (Task.id task) o <> None ->
  get_agent (AuggieAgent.id agent) o <> None ->
  let r := execute_task agent task aw m o in
  (worker_failed aw = true ->
     task_status (Task.id task) (state_of r) = Some FAILED /\
     existsb is_merge (calls_of r) = false) /\
  (internal_error aw m = true ->
     task_status (Task.id task) (state_of r) = Some FAILED) /\
  agent_state (AuggieAgent.id agent) (state_of r) = Some ("idle", None).
Proof.
  intros Ht Ha r.
  pose proof (execute_task_cases agent task aw m o Ht Ha) as H.
  cbv zeta in H. fold r in H. destruct H as [Hag H].
  split; [|split; [|exact Hag]].
  - intros Hw. destruct aw as [[rc|]|]; simpl in Hw; try discriminate.
    + destruct (rc =? 0)%Z; [discriminate|]. tauto.
    + tauto.
  - intros He. destruct aw as [[rc|]|]; simpl in He; try discriminate.
    + destruct m; [discriminate|]. rewrite He in H. tauto.
    + tauto.
Qed.

Lemma C7_failure_marks_failed_and_agent_is_reset_witness :
  let r := execute_task backend_agent api_task (Answer (Returned 1)) Merged
             one_pair in
  (task_status "T1" (state_of r) = Some FAILED /\
   existsb is_merge (calls_of r) = false) /\
  agent_state "backend" (state_of r) = Some ("idle", None).
Proof.
  pose proof (C7_failure_marks_failed_and_agent_is_reset
                backend_agent api_task (Answer (Returned 1)) Merged one_pair)
    as H.
  cbv zeta in H |- *.
  destruct H as [H1 [_ H3]]; [discriminate|discriminate|].
  split; [apply H1; reflexivity|exact H3].
Defined.

(** C7 fails as stated: when the worker answers 0 and the merge-back raises,
    the execution ends by an internal error (the task is set to failed and
    [False] is returned), and the merge-back has been called. *)
Lemma C7_counterexample_merge_error :
  let r := execute_task backend_agent api_task (Answer (Returned 0)) MergeRaised
             one_pair in
  internal_error (Answer (Returned 0)) MergeRaised = true /\
  task_status "T1" (state_of r) = Some FAILED /\
  returned r = Some false /\
  calls_of r = [RunAuggie "backend" "T1"; MergeTaskResults "backend" "T1"] /\
  ~ (existsb is_merge (calls_of r) = false).
Proof. cbv zeta. repeat split; try reflexivity. vm_compute. discriminate. Qed.

(** C10, as amended: [execute_task] returns [True] iff the task is completed
    at return and [False] iff it is failed; the merge-back is called exactly
    when the worker answers 0; and [True] is returned exactly when the
    merge-back was called and did not raise. *)
Theorem C10_return_value_and_merge agent task aw m o :
  get_task (Task.id task) o <> None ->
  get_agent (AuggieAgent.id agent) o <> None ->
  let r := execute_task agent task aw m o in
  (returned r = Some true <->
     task_status (Task.id task) (state_of r) = Some COMPLETED) /\
  (returned r = Some false <->
     task_status (Task.id task) (state_of r) = Some FAILED) /\
  (existsb is_merge (calls_of r) = true <-> aw = Answer (Returned 0)) /\
  (returned r = Some true <->
     existsb is_merge (calls_of r) = true /\ m = Merged).
Proof.
  intros Ht Ha r.
  pose proof (execute_task_cases agent task aw m o Ht Ha) as H.
  cbv zeta in H. fold r in H. destruct H as [_ H].
  destruct aw as [[rc|]|].
  - destruct (Z.eqb_spec rc 0) as [->|Hrc].
    + destruct m; destruct H as [-> [-> ->]]; intuition congruence.
    + destruct H as [-> [-> ->]]; intuition congruence.
  - destruct H as [-> [-> ->]]; intuition congruence.
  - destruct H as [-> [-> ->]]; intuition congruence.
Qed.

Lemma C10_return_value_and_merge_witness :
  let r := execute_task backend_agent api_task (Answer (Returned 0)) Merged
             one_pair in
  returned r = Some true /\
  task_status "T1" (state_of r) = Some COMPLETED /\
  existsb is_merge (calls_of r) = true.
Proof.
  pose proof (C10_return_value_and_merge
                backend_agent api_task (Answer (Returned 0)) Merged one_pair)
    as H.
  cbv zeta in H |- *.
  destruct H as [H1 [_ [H3 _]]]; [discriminate|discriminate|].
  split; [reflexivity|]. split; [apply H1; reflexivity|apply H3; reflexivity].
Defined.

(** C10 fails as stated: with exit code 0 and a merge-back that raises, the
    merge-back is called on a path that returns [False]. *)
Lemma C10_counterexample_merge_on_false_path :
  let r := execute_task backend_agent api_task (Answer (Returned 0)) MergeRaised
             one_pair in
  returned r = Some false /\
  existsb is_merge (calls_of r) = true /\
  ~ (existsb is_merge (calls_of r) = true <-> returned r = Some true).
Proof.
  cbv zeta. split; [reflexivity|]. split; [reflexivity|].
  intros [H _]. specialize (H eq_refl). vm_compute in H. discriminate.
Qed.

(** ** The eligibility check *)

Lemma files_overlap_spec (a b : list string) :
  files_overlap a b = true <-> exists f, In f a /\ In f b.
Proof.
  unfold files_overlap. rewrite existsb_exists. split.
  - intros [f [Ha Hb]]. apply existsb_exists in Hb.
    destruct Hb as [g [Hg E]]. apply String.eqb_eq in E. subst g. eauto.
  - intros [f [Ha Hb]]. exists f. split; [exact Ha|].
    apply existsb_exists. exists f. split; [exact Hb|apply String.eqb_refl].
Qed.

Lemma deps_met_spec o task :
  deps_met o task = true <->
  forall d dt, In d (Task.dependencies task) -> get_task d o = Some dt ->
               Task.status dt = COMPLETED.
Proof.
  unfold deps_met. rewrite forallb_forall. split.
  - intros H d dt Hd Hg. specialize (H d Hd). rewrite Hg in H.
    now apply TaskStatus_eqb_eq.
  - intros H d Hd. destruct (get_task d o) as [dt|] eqn:E; [|reflexivity].
    apply TaskStatus_eqb_eq. eauto.
Qed.

Lemma conflicts_with_spec task other :
  conflicts_with task other = true <->
  Task.status other = IN_PROGRESS /\ Task.id other <> Task.id task /\
  exists f, In f (Task.files task) /\ In f (Task.files other).
Proof.
  unfold conflicts_with. rewrite !andb_true_iff, negb_true_iff.
  rewrite TaskStatus_eqb_eq, String.eqb_neq, files_overlap_spec. tauto.
Qed.

(** What [_can_assign_task] computes, for any task and any state. *)
Lemma can_assign_task_spec o task :
  _can_assign_task o task = true <->
  deps_met o task = true /\
  (Task.parallel_safe task = false ->
   forall other, In other (tasks o) -> conflicts_with task other = false).
Proof.
  unfold _can_assign_task.
  destruct (deps_met o task); simpl; [|intuition discriminate].
  destruct (Task.parallel_safe task); simpl; [intuition discriminate|].
  rewrite negb_true_iff. split.
  - intros H. split; [reflexivity|]. intros _ other Hin.
    destruct (conflicts_with task other) eqn:E; [|reflexivity].
    assert (existsb (conflicts_with task) (tasks o) = true)
      by (apply existsb_exists; eauto).
    congruence.
  - intros [_ H]. specialize (H eq_refl).
    destruct (existsb (conflicts_with task) (tasks o)) eqn:E; [|reflexivity].
    apply existsb_exists in E. destruct E as [other [Hin Hc]].
    rewrite (H other Hin) in Hc. discriminate.
Qed.

(** C9: for a candidate of the assign phase (a pending task of the graph)
    none of whose prerequisites blocks it, in particular when all of them are
    completed, [_can_assign_task] answers [False] iff the candidate is not
    parallel-safe and some task in status in_progress has a file in common
    with it.  A candidate with no file, in-progress tasks with no file, and a
    parallel-safe candidate never give [False]. *)
Theorem C9_conflict_check o task :
  wf o ->
  In task (tasks o) ->
  Task.status task = PENDING ->
  (forall d dt, In d (Task.dependencies task) -> get_task d o = Some dt ->
                Task.status dt = COMPLETED) ->
  (_can_assign_task o task = false <->
     Task.parallel_safe task = false /\
     exists other, In other (tasks o) /\ Task.status other = IN_PROGRESS /\
                   exists f, In f (Task.files task) /\ In f (Task.files other)) /\
  (Task.files task = [] -> _can_assign_task o task = true) /\
  ((forall other, In other (tasks o) -> Task.status other = IN_PROGRESS ->
                  Task.files other = []) ->
   _can_assign_task o task = true) /\
  (Task.parallel_safe task = true -> _can_assign_task o task = true).
Proof.
  intros [_ Hnd] Hin Hst Hdeps.
  apply deps_met_spec in Hdeps.
  assert (Hiff : _can_assign_task o task = false <->
     Task.parallel_safe task = false /\
     exists other, In other (tasks o) /\ Task.status other = IN_PROGRESS /\
                   exists f, In f (Task.files task) /\ In f (Task.files other)).
  { unfold _can_assign_task. rewrite Hdeps. simpl.
    destruct (Task.parallel_safe task); simpl.
    - split; [discriminate|intros [H _]; discriminate].
    - rewrite negb_false_iff, existsb_exists. split.
      + intros [other [Ho Hc]]. apply conflicts_with_spec in Hc.
        split; [reflexivity|]. exists other. tauto.
      + intros [_ [other [Ho [Hs Hf]]]]. exists other. split; [exact Ho|].
        apply conflicts_with_spec. split; [exact Hs|]. split; [|exact Hf].
        intros E.
        assert (other = task) by (eapply NoDup_keys_inj; eauto).
        subst other. congruence. }
  split; [exact Hiff|].
  assert (Hneg : forall P : Prop, (_can_assign_task o task = false <-> P) ->
                 ~ P -> _can_assign_task o task = true).
  { intros P HP HnP. destruct (_can_assign_task o task); [reflexivity|].
    exfalso. apply HnP. now apply HP. }
  repeat split.
  - intros Hf. apply (Hneg _ Hiff). intros [_ [other [_ [_ [f [Hf1 _]]]]]].
    rewrite Hf in Hf1. exact Hf1.
  - intros Hall. apply (Hneg _ Hiff).
    intros [_ [other [Ho [Hs [f [_ Hf2]]]]]].
    rewrite (Hall other Ho Hs) in Hf2. exact Hf2.
  - intros Hp. apply (Hneg _ Hiff). intros [Hp' _]. congruence.
Qed.

Lemma busy_graph_wf : wf busy_graph.
Proof.
  split; simpl.
  - repeat constructor; simpl; intuition discriminate.
  - repeat constructor; simpl; intuition discriminate.
Qed.

Lemma C9_conflict_check_witness :
  _can_assign_task busy_graph candidate_task = false /\
  Task.parallel_safe candidate_task = false /\
  exists other, In other (tasks busy_graph) /\
                Task.status other = IN_PROGRESS /\
                exists f, In f (Task.files candidate_task) /\
                          In f (Task.files other).
Proof.
  assert (H : _can_assign_task busy_graph candidate_task = false)
    by reflexivity.
  split; [exact H|].
  apply (C9_conflict_check busy_graph candidate_task).
  - exact busy_graph_wf.
  - simpl. auto.
  - reflexivity.
  - simpl. intros d dt [<-|[]] G. vm_compute in G. injection G as <-.
    reflexivity.
  - exact H.
Defined.

(** ** The matcher *)

Lemma sort_desc_nil {A : Type} (l : list (Z * A)) : sort_desc l = [] -> l = [].
Proof.
  destruct l as [|x r]; simpl; [reflexivity|].
  destruct (sort_desc r) as [|y s]; simpl; [discriminate|].
  destruct (fst x <? fst y)%Z; discriminate.
Qed.

(** The head of the sorted list is the first element of largest score. *)
Lemma sort_desc_head {A : Type} (l : list (Z * A)) (x : Z * A) (s : list (Z * A)) :
  sort_desc l = x :: s ->
  exists l1 l2, l = (l1 ++ x :: l2)%list /\
                (forall y, In y l1 -> (fst y < fst x)%Z) /\
                (forall y, In y l2 -> (fst y <= fst x)%Z).
Proof.
  revert x s. induction l as [|a r IH]; simpl; intros x s H; [discriminate|].
  destruct (sort_desc r) as [|y t] eqn:E; simpl in H.
  - injection H as <- <-. apply sort_desc_nil in E. subst r.
    exists [], []. split; [reflexivity|]. split; intros y [].
  - destruct (IH y t eq_refl) as [l1 [l2 [Hr [H1 H2]]]].
    destruct (Z.ltb_spec (fst a) (fst y)) as [Hlt|Hge].
    + injection H as <- <-. exists (a :: l1), l2.
      split; [simpl; now rewrite Hr|]. split; [|exact H2].
      intros z [<-|Hz]; auto.
    + injection H as <- <-. exists [], r. split; [reflexivity|].
      split; [intros z []|].
      intros z Hz. rewrite Hr in Hz. apply in_app_or in Hz.
      destruct Hz as [Hz|[<-|Hz]].
      * specialize (H1 z Hz). lia.
      * exact Hge.
      * specialize (H2 z Hz). lia.
Qed.

(** [None] exactly when no agent is idle. *)
Lemma find_best_agent_None o task :
  _find_best_agent_for_task o task = None <->
  forall a, In a (agents o) -> is_idle a = false.
Proof.
  unfold _find_best_agent_for_task. split.
  - intros H a Ha. destruct (is_idle a) eqn:E; [|reflexivity].
    assert (Hin : In a (filter is_idle (agents o)))
      by (apply filter_In; auto).
    destruct (filter is_idle (agents o)) as [|b r] eqn:F; [destruct Hin|].
    destruct (sort_desc (map (fun agent => (score agent task, agent)) (b :: r)))
      as [|[z c] s] eqn:S; [|discriminate].
    apply sort_desc_nil in S. discriminate.
  - intros H. destruct (filter is_idle (agents o)) as [|b r] eqn:F;
      [reflexivity|].
    assert (Hb : In b (filter is_idle (agents o))) by (rewrite F; simpl; auto).
    apply filter_In in Hb. destruct Hb as [Hb1 Hb2].
    rewrite (H b Hb1) in Hb2. discriminate.
Qed.

(** The selected agent is the first idle agent, in registry order, whose
    score is the largest among the idle agents. *)
Lemma find_best_agent_Some o task a :
  _find_best_agent_for_task o task = Some a ->
  exists l1 l2, filter is_idle (agents o) = (l1 ++ a :: l2)%list /\
                (forall b, In b l1 -> (score b task < score a task)%Z) /\
                (forall b, In b l2 -> (score b task <= score a task)%Z).
Proof.
  unfold _find_best_agent_for_task. intros H.
  destruct (filter is_idle (agents o)) as [|b r] eqn:F; [discriminate|].
  destruct (sort_desc (map (fun agent => (score agent task, agent)) (b :: r)))
    as [|[z c] s] eqn:S; [discriminate|].
  injection H as ->.
  apply sort_desc_head in S. destruct S as [l1 [l2 [E [H1 H2]]]].
  apply map_eq_app in E. destruct E as [m1 [m2 [E1 [E2 E3]]]].
  apply map_eq_cons in E3. destruct E3 as [a' [m3 [E3 [E4 E5]]]].
  injection E4 as Ez Ea. subst a' m2 l1 l2 z.
  exists m1, m3. split; [exact E1|]. split.
  - intros x Hx.
    apply (H1 (score x task, x)).
    apply (in_map (fun agent => (score agent task, agent))) in Hx. exact Hx.
  - intros x Hx.
    apply (H2 (score x task, x)).
    apply (in_map (fun agent => (score agent task, agent))) in Hx. exact Hx.
Qed.

Lemma find_best_agent_idle o task a :
  _find_best_agent_for_task o task = Some a ->
  In a (agents o) /\ is_idle a = true.
Proof.
  intros H. apply find_best_agent_Some in H.
  destruct H as [l1 [l2 [E _]]].
  apply filter_In. rewrite E. apply in_or_app. right. simpl. auto.
Qed.

(** The code lowers the task's texts only; the two scores agree on the
    specializations that are written in lower case. *)
Lemma score_lowercase_specialization agent task :
  lower (AuggieAgent.specialization agent) = AuggieAgent.specialization agent ->
  score agent task = score_case_insensitive agent task.
Proof. intros H. unfold score, score_case_insensitive. now rewrite H. Qed.

(** C8, on the failing input: the specialization "Backend" is a substring of
    the component "Backend-API" and of the description, whatever the case, so
    the matcher of the specification scores it 15 and selects it; the code
    scores it 0 and selects the first idle agent instead. *)
Theorem C8_uppercase_specialization_never_matches :
  score_case_insensitive Backend_agent Backend_task = 15%Z /\
  score_case_insensitive frontend_agent Backend_task = 0%Z /\
  score Backend_agent Backend_task = 0%Z /\
  score frontend_agent Backend_task = 0%Z /\
  _find_best_agent_for_task mixed_case_registry Backend_task
  = Some frontend_agent.
Proof. repeat split; reflexivity. Qed.

(** ** The assign phase, on one agent *)

(** C3, on the failing input: an assignment leaves the agent's status at
    "idle", so the matcher offers the same agent again; both tasks are
    assigned to it in one assign phase, and the agent holds the second. *)
Theorem C3_one_agent_assigned_twice :
  let o := assign_tasks one_agent_two_tasks in
  option_map (fun t => (Task.status t, Task.assigned_agent t)) (get_task "T1" o)
  = Some (ASSIGNED, Some "backend") /\
  option_map (fun t => (Task.status t, Task.assigned_agent t)) (get_task "T2" o)
  = Some (ASSIGNED, Some "backend") /\
  agent_state "backend" o = Some ("idle", Some "T2") /\
  option_map (map (fun e : Exec => Task.id (snd e))) (active_tasks o)
  = Some ["T2"].
Proof. cbv zeta. repeat split; reflexivity. Qed.

(** ** Keys are never reassigned *)

Lemma same_keys_refl o : same_keys o o.
Proof. split; reflexivity. Qed.

Lemma same_keys_trans o1 o2 o3 :
  same_keys o1 o2 -> same_keys o2 o3 -> same_keys o1 o3.
Proof. intros [A1 T1] [A2 T2]. split; congruence. Qed.

Lemma same_keys_wf o o' : same_keys o o' -> wf o -> wf o'.
Proof. intros [A T] [Ha Ht]. split; congruence. Qed.

Ltac solve_same_keys :=
  unfold same_keys, update_agent, update_task; simpl; split;
  repeat (rewrite dict_update_keys by reflexivity); reflexivity.

Lemma assign_one_same_keys o tid : same_keys o (assign_one o tid).
Proof.
  unfold assign_one.
  destruct (get_task tid o) as [task|]; [|apply same_keys_refl].
  destruct (_find_best_agent_for_task o task) as [best|];
    [|apply same_keys_refl].
  destruct (_can_assign_task o task); [|apply same_keys_refl].
  solve_same_keys.
Qed.

Lemma fold_assign_one_same_keys l o : same_keys o (fold_left assign_one l o).
Proof.
  revert o. induction l as [|tid l IH]; simpl; intros o.
  - apply same_keys_refl.
  - eapply same_keys_trans; [apply assign_one_same_keys|apply IH].
Qed.

Lemma assign_tasks_same_keys o : same_keys o (assign_tasks o).
Proof. apply fold_assign_one_same_keys. Qed.

Lemma begin_execution_same_keys agent task o :
  same_keys o (begin_execution agent task o).
Proof.
  unfold begin_execution. solve_same_keys.
Qed.

Lemma resume_execution_same_keys agent task aw m o :
  same_keys o (state_of (resume_execution agent task aw m o)).
Proof.
  unfold resume_execution, state_of, except_clause.
  destruct aw as [[rc|]|]; [destruct (rc =? 0)%Z; [destruct m|]| |];
    unfold finally_clause; solve_same_keys.
Qed.

Lemma step_Step l c c' : step l c = Some c' <-> Step l c c'.
Proof.
  split.
  - destruct c as [o ph]. unfold step. cbn [orch phase]. intros H.
    destruct l; destruct ph as [|todo live n|p|p| |]; try discriminate.
    + injection H as <-. constructor.
    + destruct (nth_error todo i) as [[agent task]|] eqn:E; [|discriminate].
      injection H as <-. exact (StepStart o todo live n i agent task E).
    + destruct todo; [|discriminate].
      destruct (nth_error live i) as [[agent task]|] eqn:E; [|discriminate].
      injection H as <-. exact (StepFinish o live n i r m agent task E).
    + destruct todo; [|discriminate]. destruct n; [discriminate|].
      injection H as <-. constructor.
    + injection H as <-. constructor.
    + destruct (nth_error p i) as [[agent task]|] eqn:E; [|discriminate].
      injection H as <-. exact (StepCancel o p i agent task E).
    + destruct p; [|discriminate]. injection H as <-. constructor.
  - intros H. destruct H; unfold step, Exec in *; cbn [orch phase];
      try match goal with E : nth_error _ _ = Some _ |- _ => rewrite E end;
      reflexivity.
Qed.

Lemma step_same_keys l c c' :
  step l c = Some c' -> same_keys (orch c) (orch c').
Proof.
  intros H. apply step_Step in H. destruct H; cbn [orch].
  - apply assign_tasks_same_keys.
  - apply begin_execution_same_keys.
  - apply resume_execution_same_keys.
  - apply same_keys_refl.
  - apply same_keys_refl.
  - apply resume_execution_same_keys.
  - apply same_keys_refl.
Qed.

(** ** Runs *)

(** A property kept by every step holds along every run. *)
Lemma run_invariant (P : Config -> Prop) :
  (forall l c c', P c -> step l c = Some c' -> P c') ->
  forall ls c c', P c -> run ls c = Some c' -> P c'.
Proof.
  intros Hstep ls. induction ls as [|l ls IH]; simpl; intros c c' Hc H.
  - injection H as <-. exact Hc.
  - destruct (step l c) as [c1|] eqn:E; [|discriminate].
    eapply IH; [|exact H]. eapply Hstep; eauto.
Qed.

Lemma run_wf ls c c' : wf (orch c) -> run ls c = Some c' -> wf (orch c').
Proof.
  apply (run_invariant (fun c => wf (orch c))).
  intros l c1 c2 Hwf Hs. eapply same_keys_wf; [|exact Hwf].
  eapply step_same_keys; eauto.
Qed.

(** ** Agents: a working agent holds a task *)

Lemma In_remove_nth {A : Type} (i : nat) (l : list A) (x : A) :
  In x (remove_nth i l) -> In x l.
Proof.
  revert i. induction l as [|y r IH]; intros [|i]; simpl; auto.
  intros [H|H]; eauto.
Qed.

Lemma In_agents_update_agent k f o a' :
  (forall a, AuggieAgent.id (f a) = AuggieAgent.id a) ->
  In a' (agents (update_agent k f o)) ->
  exists a, In a (agents o) /\ AuggieAgent.id a = AuggieAgent.id a' /\
            ((AuggieAgent.id a = k /\ a' = f a) \/
             (AuggieAgent.id a <> k /\ a' = a)).
Proof. intros Hf H. now apply (In_dict_update AuggieAgent.id k f Hf). Qed.

Lemma In_tasks_update_task k f o t' :
  (forall t, Task.id (f t) = Task.id t) ->
  In t' (tasks (update_task k f o)) ->
  exists t, In t (tasks o) /\ Task.id t = Task.id t' /\
            ((Task.id t = k /\ t' = f t) \/ (Task.id t <> k /\ t' = t)).
Proof. intros Hf H. now apply (In_dict_update Task.id k f Hf). Qed.

Lemma is_idle_not_working a :
  is_idle a = true -> AuggieAgent.status a <> "working".
Proof.
  unfold is_idle. intros H E. rewrite E in H. discriminate.
Qed.

Lemma assign_one_working_has_task o tid :
  NoDup (keys AuggieAgent.id (agents o)) ->
  working_has_task o -> working_has_task (assign_one o tid).
Proof.
  intros Hnd Hw. unfold assign_one.
  destruct (get_task tid o) as [task|]; [|exact Hw].
  destruct (_find_best_agent_for_task o task) as [best|] eqn:B; [|exact Hw].
  destruct (_can_assign_task o task); [|exact Hw].
  apply find_best_agent_idle in B. destruct B as [Bin Bidle].
  intros a' Hin Hst.
  apply In_agents_update_agent in Hin; [|reflexivity].
  destruct Hin as [a [Ha [_ [[Hk ->]|[_ ->]]]]].
  - exfalso. assert (a = best) by (eapply NoDup_keys_inj; eauto).
    subst a. simpl in Hst. now apply is_idle_not_working in Bidle.
  - now apply Hw.
Qed.

Lemma fold_assign_one_working_has_task l o :
  NoDup (keys AuggieAgent.id (agents o)) ->
  working_has_task o -> working_has_task (fold_left assign_one l o).
Proof.
  revert o. induction l as [|tid l IH]; simpl; intros o Hnd Hw; [exact Hw|].
  apply IH.
  - destruct (assign_one_same_keys o tid) as [E _]. now rewrite E.
  - now apply assign_one_working_has_task.
Qed.

(** The coroutines created at lines 294-298. *)
Lemma collect_active_In o l act agent task :
  collect_active o l = Some act -> In (agent, task) act ->
  In agent l /\ truthy (AuggieAgent.current_task agent) = true /\
  exists k, AuggieAgent.current_task agent = Some k /\
            get_task k o = Some task /\ Task.status task = ASSIGNED.
Proof.
  revert act. induction l as [|a r IH]; simpl; intros act H Hin.
  - injection H as <-. destruct Hin.
  - destruct (truthy (AuggieAgent.current_task a)) eqn:T.
    + destruct (AuggieAgent.current_task a) as [k|] eqn:C; [|discriminate].
      destruct (get_task k o) as [t|] eqn:G; [|discriminate].
      destruct (collect_active o r) as [rest|]; [|discriminate].
      destruct (TaskStatus_eqb (Task.status t) ASSIGNED) eqn:S;
        injection H as <-.
      * destruct Hin as [E|Hin].
        -- injection E as <- <-. split; [auto|]. split; [now rewrite C|].
           exists k. apply TaskStatus_eqb_eq in S. auto.
        -- destruct (IH rest eq_refl Hin) as [H1 H2]. auto.
      * destruct (IH rest eq_refl Hin) as [H1 H2]. auto.
    + destruct (IH act H Hin) as [H1 H2]. auto.
Qed.

Lemma agent_inv_step l c c' : agent_inv c -> step l c = Some c' -> agent_inv c'.
Proof.
  intros [Hnd [Hw Hph]] H.
  pose proof (step_same_keys _ _ _ H) as [Hk _].
  apply step_Step in H.
  split; [now rewrite Hk|]. clear Hk.
  destruct H; cbn [orch phase] in *.
  - (* assign *)
    assert (Hw1 : working_has_task (assign_tasks o))
      by now apply fold_assign_one_working_has_task.
    split; [exact Hw1|].
    unfold after_assign, active_tasks.
    destruct (collect_active (assign_tasks o) (agents (assign_tasks o)))
      as [[|e act]|] eqn:A; auto.
    apply Forall_forall. intros [agent task] Hin a Ha Hid.
    destruct (collect_active_In _ _ _ _ _ A Hin) as [H1 [H2 _]].
    assert (Hnd1 : NoDup (keys AuggieAgent.id (agents (assign_tasks o))))
      by (destruct (assign_tasks_same_keys o) as [E _]; now rewrite E).
    assert (a = agent); [|now subst a].
    apply (NoDup_keys_inj AuggieAgent.id (agents (assign_tasks o))); auto.
  - (* start *)
    rewrite Forall_forall in Hph.
    pose proof (Hph _ (nth_error_In _ _ H)) as Hag.
    split.
    + intros a' Hin Hst. unfold begin_execution in Hin.
      apply In_agents_update_agent in Hin; [|reflexivity].
      destruct Hin as [a [Ha [_ [[Hid ->]|[_ ->]]]]].
      * simpl. now apply Hag.
      * now apply Hw.
    + apply Forall_forall. intros e He a' Hin Hid.
      apply In_remove_nth in He. unfold begin_execution in Hin.
      apply In_agents_update_agent in Hin; [|reflexivity].
      destruct Hin as [a [Ha [Hida [[_ ->]|[_ ->]]]]].
      * simpl. apply (Hph e He a Ha). congruence.
      * now apply (Hph e He a Ha).
  - (* finish *)
    split; [|constructor].
    intros a' Hin Hst.
    assert (Hin' : In a' (agents (finally_clause agent o))).
    { revert Hin. unfold resume_execution, state_of.
      destruct r as [rc|]; [destruct (rc =? 0)%Z; [destruct m|]|];
        simpl; auto. }
    unfold finally_clause in Hin'.
    apply In_agents_update_agent in Hin'; [|reflexivity].
    destruct Hin' as [a [Ha [_ [[_ ->]|[_ ->]]]]].
    + simpl in Hst. discriminate.
    + now apply Hw.
  - auto.
  - split; [exact Hw|]. unfold after_check.
    destruct (remaining_tasks o); exact I.
  - (* cancel *)
    split; [|exact I].
    intros a' Hin Hst. unfold resume_execution, state_of in Hin.
    cbn [fst] in Hin. unfold finally_clause in Hin.
    apply In_agents_update_agent in Hin; [|reflexivity].
    destruct Hin as [a [Ha [_ [[_ ->]|[_ ->]]]]].
    + simpl in Hst. discriminate.
    + now apply Hw.
  - auto.
Qed.

Lemma initial_agent_inv o : initial o -> agent_inv (start o).
Proof.
  intros [[Hnd _] [Hag _]]. split; [exact Hnd|]. split; [|exact I].
  intros a Hin Hst. rewrite Forall_forall in Hag.
  destruct (Hag a Hin) as [Hs _]. simpl in Hst. congruence.
Qed.

(** ** What one assign phase does to the tasks *)

Lemma same_static_refl t : same_static t t.
Proof. repeat split. Qed.

Lemma advance_refl o : advance o o.
Proof.
  unfold advance. induction (tasks o) as [|t r IH]; constructor; [|exact IH].
  split; [apply same_static_refl|auto].
Qed.

Section Forall2Facts.
Variable R : Task.t -> Task.t -> Prop.
Hypothesis R_id : forall t t', R t t' -> Task.id t' = Task.id t.

Lemma Forall2_dict_get (d d' : list Task.t) (k : string) :
  Forall2 R d d' ->
  match dict_get Task.id k d, dict_get Task.id k d' with
  | Some t, Some t' => R t t'
  | None, None => True
  | _, _ => False
  end.
Proof.
  unfold dict_get. induction 1 as [|t t' d d' Ht _ IH]; simpl; [exact I|].
  rewrite (R_id _ _ Ht). destruct (String.eqb (Task.id t) k); [exact Ht|exact IH].
Qed.

Lemma Forall2_In_paired (d d' : list Task.t) (t t' : Task.t) :
  Forall2 R d d' -> NoDup (keys Task.id d) ->
  In t d -> In t' d' -> Task.id t' = Task.id t -> R t t'.
Proof.
  intros HF Hnd Hin Hin' Hid.
  pose proof (Forall2_dict_get d d' (Task.id t) HF) as H.
  rewrite (dict_get_In Task.id d t Hnd Hin) in H.
  assert (Hnd' : NoDup (keys Task.id d')).
  { replace (keys Task.id d') with (keys Task.id d); [exact Hnd|].
    clear - HF R_id. unfold keys.
    induction HF as [|x x' d d' Hx _ IH]; simpl; [reflexivity|].
    now rewrite (R_id _ _ Hx), IH. }
  rewrite <- Hid, (dict_get_In Task.id d' t' Hnd' Hin') in H. exact H.
Qed.

Lemma Forall2_In_right (d d' : list Task.t) (t' : Task.t) :
  Forall2 R d d' -> In t' d' -> exists t, In t d /\ R t t'.
Proof.
  induction 1 as [|x x' d d' Hx _ IH]; simpl; intros Hin; [destruct Hin|].
  destruct Hin as [<-|Hin]; [eauto|].
  destruct (IH Hin) as [t [Ht HR]]. eauto.
Qed.

Lemma Forall2_map_right (h : Task.t -> Task.t) (d d' : list Task.t) :
  Forall2 R d d' ->
  (forall t x, In x d' -> R t x -> R t (h x)) ->
  Forall2 R d (map h d').
Proof.
  induction 1 as [|x x' d d' Hx _ IH]; simpl; intros Hh; constructor.
  - apply Hh; auto.
  - apply IH. intros t y Hy. apply Hh. auto.
Qed.

End Forall2Facts.

Lemma assigned_from_id o0 t t' : assigned_from o0 t t' -> Task.id t' = Task.id t.
Proof. intros [[H _] _]. exact H. Qed.

(** The two tests of [_can_assign_task] read the statuses completed and
    in_progress only, and an assign phase changes neither. *)
Lemma assigned_from_status o0 t t' s :
  assigned_from o0 t t' -> s <> PENDING -> s <> ASSIGNED ->
  TaskStatus_eqb (Task.status t') s = TaskStatus_eqb (Task.status t) s.
Proof.
  intros [_ [E|[E1 [E2 _]]]] H1 H2; [now rewrite E|].
  rewrite E1, E2. destruct s; simpl; congruence.
Qed.

Lemma forallb_pointwise {A : Type} (f g : A -> bool) (l : list A) :
  (forall x, f x = g x) -> forallb f l = forallb g l.
Proof.
  intros H. induction l as [|x r IH]; simpl; [reflexivity|].
  now rewrite H, IH.
Qed.

Lemma deps_met_advance o0 o t t' :
  advance o0 o -> same_static t t' -> deps_met o t' = deps_met o0 t.
Proof.
  intros Hadv [_ [_ [Hd _]]]. unfold deps_met. rewrite Hd.
  apply forallb_pointwise. intros d. unfold get_task.
  pose proof (Forall2_dict_get _ (assigned_from_id o0) _ _ d Hadv) as H.
  destruct (dict_get Task.id d (tasks o0)) as [x|];
    destruct (dict_get Task.id d (tasks o)) as [x'|]; try contradiction.
  - apply (assigned_from_status o0); [exact H|discriminate|discriminate].
  - reflexivity.
Qed.

Lemma conflicts_advance o0 o t t' :
  advance o0 o -> same_static t t' ->
  existsb (conflicts_with t') (tasks o) = existsb (conflicts_with t) (tasks o0).
Proof.
  intros Hadv [Hid [Hf _]]. unfold advance in Hadv.
  induction Hadv as [|x x' d d' Hx _ IH]; simpl; [reflexivity|].
  rewrite IH. f_equal. unfold conflicts_with.
  rewrite (assigned_from_status o0 x x' IN_PROGRESS Hx) by discriminate.
  destruct Hx as [[Hxi [Hxf _]] _]. now rewrite Hid, Hf, Hxi, Hxf.
Qed.

Lemma can_assign_advance o0 o t t' :
  advance o0 o -> same_static t t' ->
  _can_assign_task o t' = _can_assign_task o0 t.
Proof.
  intros Hadv Hs. unfold _can_assign_task.
  rewrite (deps_met_advance o0 o t t' Hadv Hs).
  rewrite (conflicts_advance o0 o t t' Hadv Hs).
  destruct Hs as [_ [_ [_ ->]]]. reflexivity.
Qed.

Lemma advance_keys o0 o :
  advance o0 o -> keys Task.id (tasks o) = keys Task.id (tasks o0).
Proof.
  unfold advance, keys. induction 1 as [|x x' d d' Hx _ IH]; simpl;
    [reflexivity|].
  now rewrite (assigned_from_id _ _ _ Hx), IH.
Qed.

(** One iteration of the loop of [assign_tasks], on a task that is still
    pending. *)
Lemma assign_one_advance o0 o tid :
  NoDup (keys Task.id (tasks o0)) -> advance o0 o ->
  (forall x, In x (tasks o) -> Task.id x = tid -> Task.status x = PENDING) ->
  advance o0 (assign_one o tid).
Proof.
  intros Hnd Hadv Hp. unfold assign_one.
  destruct (get_task tid o) as [task|] eqn:G; [|exact Hadv].
  destruct (_find_best_agent_for_task o task) as [best|]; [|exact Hadv].
  destruct (_can_assign_task o task) eqn:C; [|exact Hadv].
  unfold advance, update_agent, update_task. cbn [tasks]. unfold dict_update.
  apply Forall2_map_right; [exact Hadv|].
  intros t x Hx HR.
  destruct (String.eqb_spec (Task.id x) tid) as [E|_]; [|exact HR].
  assert (Hnd' : NoDup (keys Task.id (tasks o)))
    by (rewrite (advance_keys o0 o Hadv); exact Hnd).
  assert (x = task).
  { apply dict_get_Some in G. destruct G as [G1 G2].
    eapply NoDup_keys_inj; eauto. congruence. }
  subst x.
  pose proof (Hp task Hx E) as Hpend.
  destruct HR as [Hs Hst]. split; [exact Hs|]. right.
  assert (Task.status t = PENDING).
  { destruct Hst as [Hst|[_ [Hst _]]]; congruence. }
  split; [assumption|]. split; [reflexivity|].
  now rewrite <- (can_assign_advance o0 o t task Hadv Hs).
Qed.

Lemma fold_assign_one_advance l o0 o :
  NoDup (keys Task.id (tasks o0)) -> advance o0 o -> NoDup l ->
  (forall tid x, In tid l -> In x (tasks o) -> Task.id x = tid ->
                 Task.status x = PENDING) ->
  advance o0 (fold_left assign_one l o).
Proof.
  intros Hnd. revert o.
  induction l as [|tid l IH]; simpl; intros o Hadv Hl Hp; [exact Hadv|].
  inversion Hl as [|? ? Hnotin Hl']; subst.
  apply IH; [|exact Hl'|].
  - apply assign_one_advance; auto.
    intros x Hx Hid. apply (Hp tid x); auto.
  - intros tid' x' Hin Hx' Hid.
    assert (Hne : tid' <> tid) by (intros ->; contradiction).
    unfold assign_one in Hx'.
    destruct (get_task tid o) as [task|]; [|eauto].
    destruct (_find_best_agent_for_task o task) as [best|]; [|eauto].
    destruct (_can_assign_task o task); [|eauto].
    unfold update_agent in Hx'. cbn [tasks] in Hx'.
    apply In_tasks_update_task in Hx'; [|reflexivity].
    destruct Hx' as [x [Hx [Hidx [[Hk _]|[_ ->]]]]].
    + congruence.
    + eauto.
Qed.

Lemma NoDup_keys_filter (p : Task.t -> bool) (d : list Task.t) :
  NoDup (keys Task.id d) -> NoDup (keys Task.id (filter p d)).
Proof.
  unfold keys. induction d as [|x r IH]; simpl; intros Hnd; [constructor|].
  inversion Hnd as [|? ? Hx Hr]; subst.
  destruct (p x); simpl; [|auto].
  constructor; [|auto].
  intros Hin. apply Hx. apply in_map_iff in Hin.
  destruct Hin as [y [E Hy]]. apply filter_In in Hy.
  apply in_map_iff. exists y. tauto.
Qed.

(** An assign phase moves tasks from pending to assigned, and only tasks for
    which [_can_assign_task] answers [True] in the state at phase entry. *)
Lemma assign_tasks_advance o :
  NoDup (keys Task.id (tasks o)) -> advance o (assign_tasks o).
Proof.
  intros Hnd. unfold assign_tasks, available_tasks.
  apply fold_assign_one_advance.
  - exact Hnd.
  - apply advance_refl.
  - now apply NoDup_keys_filter.
  - intros tid x Hin Hx Hid. unfold keys in Hin. apply in_map_iff in Hin.
    destruct Hin as [y [Hy Hyin]]. apply filter_In in Hyin.
    destruct Hyin as [Hyin Hyp].
    assert (x = y) by (eapply NoDup_keys_inj; eauto; congruence).
    subst y. now apply TaskStatus_eqb_eq in Hyp.
Qed.

(** A task that is pending at phase entry, passes [_can_assign_task] there,
    and finds an idle agent, is assigned by the phase. *)
Lemma assign_one_some_idle o tid : some_idle o -> some_idle (assign_one o tid).
Proof.
  intros [a [Ha Hi]]. unfold assign_one.
  destruct (get_task tid o) as [task|]; [|exists a; auto].
  destruct (_find_best_agent_for_task o task) as [best|]; [|exists a; auto].
  destruct (_can_assign_task o task); [|exists a; auto].
  cbn [update_agent update_task agents].
  exists (if String.eqb (AuggieAgent.id a) (AuggieAgent.id best)
          then AuggieAgent.set_current_task (Some tid) a else a).
  split.
  - apply (dict_update_In AuggieAgent.id). exact Ha.
  - destruct (String.eqb (AuggieAgent.id a) (AuggieAgent.id best)); exact Hi.
Qed.

Lemma assign_one_keeps_pending o tid tid' x' :
  tid' <> tid ->
  (forall x, In x (tasks o) -> Task.id x = tid' -> Task.status x = PENDING) ->
  In x' (tasks (assign_one o tid)) -> Task.id x' = tid' ->
  Task.status x' = PENDING.
Proof.
  intros Hne Hp Hx' Hid. unfold assign_one in Hx'.
  destruct (get_task tid o) as [task|]; [|eauto].
  destruct (_find_best_agent_for_task o task) as [best|]; [|eauto].
  destruct (_can_assign_task o task); [|eauto].
  unfold update_agent in Hx'. cbn [tasks] in Hx'.
  apply In_tasks_update_task in Hx'; [|reflexivity].
  destruct Hx' as [x [Hx [Hidx [[Hk _]|[_ ->]]]]].
  - congruence.
  - eauto.
Qed.

Lemma get_task_advance o0 o k t :
  advance o0 o -> get_task k o0 = Some t ->
  exists t', get_task k o = Some t' /\ assigned_from o0 t t'.
Proof.
  intros Hadv G. unfold get_task in *.
  pose proof (Forall2_dict_get _ (assigned_from_id o0) _ _ k Hadv) as H.
  rewrite G in H.
  destruct (dict_get Task.id k (tasks o)) as [t'|]; [eauto|contradiction].
Qed.

Lemma fold_assign_one_assigns l o0 o tid t :
  NoDup (keys Task.id (tasks o0)) -> advance o0 o -> NoDup l ->
  (forall tid x, In tid l -> In x (tasks o) -> Task.id x = tid ->
                 Task.status x = PENDING) ->
  In tid l -> get_task tid o0 = Some t -> _can_assign_task o0 t = true ->
  some_idle o ->
  exists t', get_task tid (fold_left assign_one l o) = Some t' /\
             Task.status t' = ASSIGNED.
Proof.
  intros Hnd. revert o.
  induction l as [|hd l IH]; simpl; intros o Hadv Hl Hp Hin G C Hidle;
    [destruct Hin|].
  inversion Hl as [|? ? Hnotin Hl']; subst.
  assert (Hnd' : NoDup (keys Task.id (tasks o)))
    by (rewrite (advance_keys o0 o Hadv); exact Hnd).
  assert (Hp' : forall tid' x', In tid' l ->
            In x' (tasks (assign_one o hd)) -> Task.id x' = tid' ->
            Task.status x' = PENDING).
  { intros tid' x' Hin' Hx' Hid.
    apply (assign_one_keeps_pending o hd tid' x'); auto.
    - intros ->. contradiction.
    - intros x Hx Hidx. apply (Hp tid' x); auto. }
  destruct Hin as [->|Hin].
  - (* the turn of [tid] *)
    destruct (get_task_advance o0 o tid t Hadv G) as [x [Gx Hx]].
    assert (Hone : exists x1, get_task tid (assign_one o tid) = Some x1 /\
                              Task.status x1 = ASSIGNED).
    { unfold assign_one. rewrite Gx.
      destruct (_find_best_agent_for_task o x) as [best|] eqn:B.
      - rewrite (can_assign_advance o0 o t x Hadv (proj1 Hx)), C.
        rewrite get_task_update_agent, get_task_update_task, Gx by reflexivity.
        simpl. rewrite (get_task_id _ _ _ Gx), String.eqb_refl.
        eexists. split; reflexivity.
      - exfalso. destruct Hidle as [a [Ha Hi]].
        rewrite find_best_agent_None in B. rewrite (B a Ha) in Hi.
        discriminate. }
    destruct Hone as [x1 [G1 S1]].
    assert (Hadv1 : advance (assign_one o tid)
                            (fold_left assign_one l (assign_one o tid))).
    { apply fold_assign_one_advance; auto.
      - destruct (assign_one_same_keys o tid) as [_ E]. now rewrite E.
      - apply advance_refl. }
    destruct (get_task_advance _ _ tid x1 Hadv1 G1) as [x2 [G2 [_ Hst]]].
    exists x2. split; [exact G2|].
    destruct Hst as [Hst|[Hst _]]; congruence.
  - apply IH; auto.
    + apply assign_one_advance; auto.
      intros x Hx Hid. apply (Hp hd x); auto.
    + now apply assign_one_some_idle.
Qed.

Lemma assign_tasks_assigns o t :
  NoDup (keys Task.id (tasks o)) -> In t (tasks o) ->
  Task.status t = PENDING -> _can_assign_task o t = true -> some_idle o ->
  exists t', get_task (Task.id t) (assign_tasks o) = Some t' /\
             Task.status t' = ASSIGNED.
Proof.
  intros Hnd Hin Hst C Hidle. unfold assign_tasks, available_tasks.
  apply (fold_assign_one_assigns _ o o (Task.id t) t); auto.
  - apply advance_refl.
  - now apply NoDup_keys_filter.
  - intros tid x Hin' Hx Hid. unfold keys in Hin'. apply in_map_iff in Hin'.
    destruct Hin' as [y [Hy Hyin]]. apply filter_In in Hyin.
    destruct Hyin as [Hyin Hyp].
    assert (x = y) by (eapply NoDup_keys_inj; eauto; congruence).
    subst y. now apply TaskStatus_eqb_eq in Hyp.
  - unfold keys. apply in_map. apply filter_In. split; [exact Hin|].
    unfold is_pending. now rewrite Hst.
  - now apply dict_get_In.
Qed.

(** ** What an execution does to the tasks *)

Lemma tasks_begin_execution agent task o t' :
  In t' (tasks (begin_execution agent task o)) ->
  exists t, In t (tasks o) /\ Task.id t = Task.id t' /\
            (t' = t \/ (Task.id t = Task.id task /\
                        Task.status t' = IN_PROGRESS)).
Proof.
  unfold begin_execution, update_agent. cbn [tasks]. intros H.
  apply In_tasks_update_task in H; [|reflexivity].
  destruct H as [t [Ht [Hid [[Hk ->]|[_ ->]]]]]; exists t; auto.
Qed.

Lemma tasks_resume_execution agent task aw m o t' :
  In t' (tasks (state_of (resume_execution agent task aw m o))) ->
  exists t, In t (tasks o) /\ Task.id t = Task.id t' /\
            (t' = t \/ (Task.id t = Task.id task /\ aw <> CancelledError /\
                        (Task.status t' = COMPLETED \/
                         Task.status t' = FAILED))).
Proof.
  unfold resume_execution, state_of, finally_clause, except_clause,
    update_agent.
  destruct aw as [[rc|]|]; [destruct (rc =? 0)%Z; [destruct m|]| |];
    cbn [fst tasks]; intros H;
    repeat (apply In_tasks_update_task in H; [|reflexivity];
            let t := fresh "t" in
            let Ht := fresh "Ht" in
            let Hid := fresh "Hid" in
            let Hk := fresh "Hk" in
            destruct H as [t [H [Hid [[Hk ->]|[Hk ->]]]]]);
    try (eexists; split; [eassumption|]; split; [congruence|];
         first [ left; reflexivity
               | right; split; [congruence|]; split; [discriminate|];
                 simpl; auto ]).
Qed.

(** ** The scheduler along a run *)

Lemma reachable_wf o c : initial o -> reachable_from o c -> wf (orch c).
Proof.
  intros [Hwf _] [ls Hrun]. eapply run_wf; [|exact Hrun]. exact Hwf.
Qed.

Lemma assign_tasks_paired o t t' :
  NoDup (keys Task.id (tasks o)) ->
  In t (tasks o) -> In t' (tasks (assign_tasks o)) ->
  Task.id t' = Task.id t -> assigned_from o t t'.
Proof.
  intros Hnd Hin Hin' Hid.
  apply (Forall2_In_paired _ (assigned_from_id o) (tasks o)
           (tasks (assign_tasks o))); auto.
  now apply assign_tasks_advance.
Qed.

(** Only the assign phase sets a task to assigned, and only a pending task
    that passes [_can_assign_task] in the state at phase entry. *)
Lemma step_assigned l c c' t t' :
  wf (orch c) -> step l c = Some c' ->
  In t (tasks (orch c)) -> In t' (tasks (orch c')) ->
  Task.id t' = Task.id t ->
  Task.status t <> ASSIGNED -> Task.status t' = ASSIGNED ->
  l = LAssign /\ same_static t t' /\ Task.status t = PENDING /\
  _can_assign_task (orch c) t = true.
Proof.
  intros [_ Hnd] Hs Hin Hin' Hid Hne Hst. apply step_Step in Hs.
  assert (Hsame : forall x, In x (tasks (orch c)) -> Task.id x = Task.id t' ->
                            x = t).
  { intros x Hx Hidx. eapply NoDup_keys_inj; eauto. congruence. }
  destruct Hs; cbn [orch] in *.
  - pose proof (assign_tasks_paired o t t' Hnd Hin Hin' Hid) as [Hss H].
    destruct H as [H|[H1 [_ H2]]]; [congruence|]. auto.
  - exfalso. apply tasks_begin_execution in Hin'.
    destruct Hin' as [x [Hx [Hidx [->|[_ Hx']]]]]; [|congruence].
    apply Hne. now rewrite <- (Hsame x Hx Hidx).
  - exfalso. apply tasks_resume_execution in Hin'.
    destruct Hin' as [x [Hx [Hidx [->|[_ [_ [Hx'|Hx']]]]]]]; [|congruence..].
    apply Hne. now rewrite <- (Hsame x Hx Hidx).
  - exfalso. apply Hne. now rewrite <- (Hsame t' Hin' eq_refl).
  - exfalso. apply Hne. now rewrite <- (Hsame t' Hin' eq_refl).
  - exfalso. apply tasks_resume_execution in Hin'.
    destruct Hin' as [x [Hx [Hidx [->|[_ [_ [Hx'|Hx']]]]]]]; [|congruence..].
    apply Hne. now rewrite <- (Hsame x Hx Hidx).
  - exfalso. apply Hne. now rewrite <- (Hsame t' Hin' eq_refl).
Qed.

Lemma no_overlap_can_assign o t :
  deps_met o t = true ->
  (Task.parallel_safe t = false ->
   forall r, In r (tasks o) -> Task.status r = IN_PROGRESS ->
             files_overlap (Task.files t) (Task.files r) = false) ->
  _can_assign_task o t = true.
Proof.
  intros Hd Hc. apply can_assign_task_spec. split; [exact Hd|].
  intros Hp r Hr. unfold conflicts_with.
  destruct (TaskStatus_eqb (Task.status r) IN_PROGRESS) eqn:E;
    [|reflexivity].
  apply TaskStatus_eqb_eq in E. rewrite (Hc Hp r Hr E).
  now rewrite andb_false_r.
Qed.

(** C2, as amended: a prerequisite identifier that resolves to no task of the
    graph is skipped by the dependency check.  In every state of every run,
    (1) a step sets a task [t] to assigned only if it is the assign phase,
    [t] was pending, and every prerequisite identifier of [t] that resolves
    to a task resolves to a completed one; (2) at the head of the loop, a
    pending [t] for which this holds, which has no file conflict, is set to
    assigned by the assign phase when an agent is idle. *)
Theorem C2_only_resolving_prerequisites_block o c t :
  initial o -> reachable_from o c -> In t (tasks (orch c)) ->
  (forall l c' t',
     step l c = Some c' -> In t' (tasks (orch c')) ->
     Task.id t' = Task.id t ->
     Task.status t <> ASSIGNED -> Task.status t' = ASSIGNED ->
     l = LAssign /\ Task.status t = PENDING /\
     forall d dt, In d (Task.dependencies t) ->
                  get_task d (orch c) = Some dt ->
                  Task.status dt = COMPLETED) /\
  (phase c = Assigning -> Task.status t = PENDING ->
   (forall d dt, In d (Task.dependencies t) ->
                 get_task d (orch c) = Some dt ->
                 Task.status dt = COMPLETED) ->
   (Task.parallel_safe t = false ->
    forall r, In r (tasks (orch c)) -> Task.status r = IN_PROGRESS ->
              files_overlap (Task.files t) (Task.files r) = false) ->
   some_idle (orch c) ->
   exists c' t', step LAssign c = Some c' /\
                 get_task (Task.id t) (orch c') = Some t' /\
                 Task.status t' = ASSIGNED).
Proof.
  intros Hinit Hreach Hin.
  pose proof (reachable_wf o c Hinit Hreach) as Hwf.
  split.
  - intros l c' t' Hs Hin' Hid Hne Hst.
    destruct (step_assigned l c c' t t' Hwf Hs Hin Hin' Hid Hne Hst)
      as [Hl [_ [Hp Hc]]].
    split; [exact Hl|]. split; [exact Hp|].
    apply deps_met_spec. apply can_assign_task_spec in Hc. tauto.
  - intros Hph Hp Hdeps Hconf Hidle.
    destruct c as [oc ph]. cbn [orch phase] in *. subst ph.
    destruct (assign_tasks_assigns oc t (proj2 Hwf) Hin Hp) as [t' [G S]];
      [|exact Hidle|].
    + apply no_overlap_can_assign; [|exact Hconf].
      now apply deps_met_spec.
    + eexists. exists t'. split; [reflexivity|]. cbn [orch]. auto.
Qed.

(** C1, as amended: in every state of every run at the head of the loop,
    the assign phase sets a pending task that is not parallel-safe to
    assigned only if no task in status in_progress has a file in common with
    it; and it assigns a pending parallel-safe task whose prerequisites do
    not block it as soon as an agent is idle, whatever the files of the
    tasks in progress. *)
Theorem C1_file_check_of_the_assign_phase o c t :
  initial o -> reachable_from o c -> phase c = Assigning ->
  In t (tasks (orch c)) -> Task.status t = PENDING ->
  (Task.parallel_safe t = false ->
   forall c' t',
     step LAssign c = Some c' -> In t' (tasks (orch c')) ->
     Task.id t' = Task.id t -> Task.status t' = ASSIGNED ->
     forall r, In r (tasks (orch c')) -> Task.status r = IN_PROGRESS ->
               files_overlap (Task.files t') (Task.files r) = false) /\
  (Task.parallel_safe t = true ->
   (forall d dt, In d (Task.dependencies t) ->
                 get_task d (orch c) = Some dt ->
                 Task.status dt = COMPLETED) ->
   some_idle (orch c) ->
   exists c' t', step LAssign c = Some c' /\
                 get_task (Task.id t) (orch c') = Some t' /\
                 Task.status t' = ASSIGNED).
Proof.
  intros Hinit Hreach Hph Hin Hpend.
  pose proof (reachable_wf o c Hinit Hreach) as Hwf.
  split.
  - intros Hps c' t' Hs Hin' Hid Hst r Hr Hrs.
    assert (Hne : Task.status t <> ASSIGNED) by congruence.
    destruct (step_assigned LAssign c c' t t' Hwf Hs Hin Hin' Hid Hne Hst)
      as [_ [[_ [Hf _]] [_ Hc]]].
    apply step_Step in Hs. inversion Hs as [oc| | | | | |]; subst.
    cbn [orch] in *.
    pose proof (assign_tasks_advance oc (proj2 Hwf)) as Hadv.
    destruct (Forall2_In_right _ _ _ r Hadv Hr) as [r0 [Hr0 HR]].
    apply can_assign_task_spec in Hc. destruct Hc as [_ Hc].
    specialize (Hc Hps r0 Hr0).
    assert (Hr0s : Task.status r0 = IN_PROGRESS).
    { destruct HR as [_ [E|[_ [E _]]]]; congruence. }
    destruct HR as [[Hrid [Hrf _]] _].
    unfold conflicts_with in Hc. rewrite Hr0s in Hc. simpl in Hc.
    destruct (String.eqb_spec (Task.id r0) (Task.id t)) as [E|_].
    + exfalso.
      assert (r0 = t) by (eapply NoDup_keys_inj; [apply Hwf|..]; eauto).
      subst r0. congruence.
    + simpl in Hc. now rewrite Hf, Hrf.
  - intros Hps Hdeps Hidle.
    destruct c as [oc ph]. cbn [orch phase] in *. subst ph.
    destruct (assign_tasks_assigns oc t (proj2 Hwf) Hin Hpend) as [t' [G S]];
      [|exact Hidle|].
    + apply no_overlap_can_assign; [now apply deps_met_spec|].
      intros Hf. congruence.
    + eexists. exists t'. split; [reflexivity|]. cbn [orch]. auto.
Qed.

Ltac solve_initial :=
  split;
  [ split; simpl; repeat constructor; simpl; intuition discriminate
  | split; repeat constructor ].

Lemma ghost_graph_initial : initial ghost_graph.
Proof. solve_initial. Qed.

(** C2 fails as stated: the prerequisite "T0" of "T1" resolves to no task, and
    the first assign phase sets "T1" to assigned. *)
Lemma C2_counterexample_unresolved_prerequisite :
  initial ghost_graph /\
  In ghost_task (tasks ghost_graph) /\
  In "T0" (Task.dependencies ghost_task) /\
  get_task "T0" ghost_graph = None /\
  exists c, run [LAssign] (start ghost_graph) = Some c /\
            task_status "T1" (orch c) = Some ASSIGNED.
Proof.
  split; [exact ghost_graph_initial|].
  split; [simpl; auto|]. split; [simpl; auto|]. split; [reflexivity|].
  eexists. split; reflexivity.
Qed.

Lemma C2_only_resolving_prerequisites_block_witness :
  exists c' t', step LAssign (start ghost_graph) = Some c' /\
                get_task "T1" (orch c') = Some t' /\
                Task.status t' = ASSIGNED.
Proof.
  destruct (C2_only_resolving_prerequisites_block
              ghost_graph (start ghost_graph) ghost_task) as [_ H].
  - exact ghost_graph_initial.
  - exists []. reflexivity.
  - simpl. auto.
  - apply H.
    + reflexivity.
    + reflexivity.
    + simpl. intros d dt [<-|[]] G. discriminate G.
    + simpl. intros _ r [<-|[]] Hr. discriminate Hr.
    + exists backend_agent. split; [simpl; auto|reflexivity].
Defined.

Lemma shared_file_graph_initial : initial shared_file_graph.
Proof. solve_initial. Qed.

(** C1 fails as stated: "A" is not parallel-safe, "B" is, both write
    "shared.py"; the first assign phase assigns both ("B" is not checked for
    conflicts at all), and once both coroutines have started both tasks are
    in_progress. *)
Lemma C1_counterexample_overlapping_tasks_in_progress :
  initial shared_file_graph /\
  exists c t1 t2,
    run [LAssign; LStart 0; LStart 0] (start shared_file_graph) = Some c /\
    In t1 (tasks (orch c)) /\ In t2 (tasks (orch c)) /\
    Task.id t1 = "A" /\ Task.id t2 = "B" /\
    Task.status t1 = IN_PROGRESS /\ Task.status t2 = IN_PROGRESS /\
    files_overlap (Task.files t1) (Task.files t2) = true /\
    ~ (Task.parallel_safe t1 = true /\ Task.parallel_safe t2 = true).
Proof.
  split; [exact shared_file_graph_initial|].
  eexists. eexists. eexists. split; [reflexivity|].
  cbn [orch tasks]. split; [left; reflexivity|].
  split; [right; left; reflexivity|].
  repeat (split; [reflexivity|]).
  intros [H _]. discriminate H.
Qed.

Lemma two_rounds_graph_initial : initial two_rounds_graph.
Proof. solve_initial. Qed.

Lemma C1_file_check_of_the_assign_phase_witness :
  task_status "A" (orch second_assign) = Some IN_PROGRESS /\
  In late_task_assigned (tasks (orch second_assign)) /\
  forall r, In r (tasks (orch second_assign)) ->
            Task.status r = IN_PROGRESS ->
            files_overlap (Task.files late_task_assigned) (Task.files r)
            = false.
Proof.
  split; [reflexivity|]. split; [simpl; auto|].
  destruct (C1_file_check_of_the_assign_phase
              two_rounds_graph after_first_round late_task) as [H _].
  - exact two_rounds_graph_initial.
  - exists first_round. reflexivity.
  - reflexivity.
  - simpl. auto.
  - reflexivity.
  - apply (H eq_refl second_assign late_task_assigned).
    + reflexivity.
    + simpl. auto.
    + reflexivity.
    + reflexivity.
Defined.

Lemma one_pair_initial : initial one_pair.
Proof. solve_initial. Qed.

(** ** Stalls *)

Lemma fold_assign_one_fixed l o :
  (forall tid, In tid l -> assign_one o tid = o) ->
  fold_left assign_one l o = o.
Proof.
  induction l as [|tid l IH]; simpl; intros H; [reflexivity|].
  rewrite (H tid) by auto. apply IH. intros tid' Hin. apply H. auto.
Qed.

Lemma collect_active_none_held o l :
  (forall a, In a l -> truthy (AuggieAgent.current_task a) = false) ->
  collect_active o l = Some [].
Proof.
  induction l as [|a r IH]; simpl; intros H; [reflexivity|].
  rewrite (H a) by auto. apply IH. intros b Hb. apply H. auto.
Qed.

Lemma stalled_assign_tasks o : wf o -> stalled o -> assign_tasks o = o.
Proof.
  intros [_ Hnd] [_ [Hblocked _]]. unfold assign_tasks.
  apply fold_assign_one_fixed. intros tid Hin.
  unfold available_tasks, keys in Hin. apply in_map_iff in Hin.
  destruct Hin as [t [<- Ht]]. apply filter_In in Ht. destruct Ht as [Ht Hp].
  apply TaskStatus_eqb_eq in Hp.
  unfold assign_one, get_task. rewrite (dict_get_In Task.id _ t Hnd Ht).
  destruct (_find_best_agent_for_task o t); [|reflexivity].
  unfold _can_assign_task. now rewrite (Hblocked t Ht Hp).
Qed.

Lemma stalled_remaining o : stalled o -> remaining_tasks o <> [].
Proof.
  intros [[t [Ht Hp]] _] E.
  assert (Hin : In t (remaining_tasks o)).
  { apply filter_In. split; [exact Ht|]. unfold is_remaining.
    now rewrite Hp. }
  rewrite E in Hin. destruct Hin.
Qed.

Lemma stalled_step o l c c' :
  wf o -> stalled o -> polling o c -> step l c = Some c' -> polling o c'.
Proof.
  intros Hwf Hst [Ho Hph] Hs. apply step_Step in Hs.
  destruct Hs; cbn [orch phase] in *; subst;
    destruct Hph as [Hph|[Hph|Hph]]; try discriminate.
  - rewrite (stalled_assign_tasks o Hwf Hst). split; [reflexivity|].
    right. left. unfold after_assign, active_tasks.
    destruct Hst as [_ [_ Hnone]].
    now rewrite (collect_active_none_held o (agents o) Hnone).
  - split; [reflexivity|]. right. right. unfold after_check.
    pose proof (stalled_remaining o Hst).
    injection Hph as ->.
    destruct (remaining_tasks o); [contradiction|reflexivity].
  - injection Hph as ->. destruct i; discriminate.
  - split; [reflexivity|]. auto.
Qed.

Lemma stalled_round o :
  wf o -> stalled o -> run [LAssign; LCheck; LWake] (start o) = Some (start o).
Proof.
  intros Hwf Hst. unfold run, step, start. cbn [orch phase].
  rewrite (stalled_assign_tasks o Hwf Hst).
  unfold after_assign, active_tasks.
  destruct Hst as [Hp [Hb Hnone]].
  rewrite (collect_active_none_held o (agents o) Hnone). cbn [orch phase].
  unfold after_check. pose proof (stalled_remaining o (conj Hp (conj Hb Hnone))).
  destruct (remaining_tasks o); [contradiction|reflexivity].
Qed.

Lemma terminated_all_done l c c' :
  step l c = Some c' -> phase c' = Terminated ->
  forall t, In t (tasks (orch c')) ->
            Task.status t = COMPLETED \/ Task.status t = FAILED.
Proof.
  intros Hs Hph t Ht. apply step_Step in Hs.
  destruct Hs; cbn [orch phase] in *; try discriminate.
  - unfold after_assign in Hph.
    destruct (active_tasks (assign_tasks o)) as [[|e act]|]; discriminate.
  - unfold after_check in Hph.
    destruct (remaining_tasks o) as [|x r] eqn:E; [|discriminate].
    destruct (is_remaining t) eqn:R.
    + assert (Hin : In t (remaining_tasks o)) by (apply filter_In; auto).
      rewrite E in Hin. destruct Hin.
    + unfold is_remaining in R. apply negb_false_iff in R.
      apply orb_true_iff in R. rewrite !TaskStatus_eqb_eq in R. exact R.
Qed.

(** C4, as amended: when pending tasks remain, none is unblocked and none is
    in flight, the loop does not terminate and reports nothing: every round
    leaves the tasks and the agents as they are and goes back to the head of
    the loop, and no state of the run is terminal.  The loop has one
    terminal condition, reached only when every task is completed or
    failed. *)
Theorem C4_stall_is_polled_for_ever o :
  wf o -> stalled o ->
  run [LAssign; LCheck; LWake] (start o) = Some (start o) /\
  (forall ls c, run ls (start o) = Some c ->
                orch c = o /\ phase c <> Terminated /\ phase c <> Crashed) /\
  (forall l c c', step l c = Some c' -> phase c' = Terminated ->
                  forall t, In t (tasks (orch c')) ->
                            Task.status t = COMPLETED \/
                            Task.status t = FAILED).
Proof.
  intros Hwf Hst. split; [now apply stalled_round|].
  split; [|exact terminated_all_done].
  intros ls c Hrun.
  assert (H : polling o c).
  { apply (run_invariant (polling o)
             (fun l c1 c2 => stalled_step o l c1 c2 Hwf Hst) ls (start o) c);
      [|exact Hrun].
    split; [reflexivity|]. left. reflexivity. }
  destruct H as [Ho Hph]. split; [exact Ho|].
  split; intros E; rewrite E in Hph;
    destruct Hph as [Hph|[Hph|Hph]]; discriminate.
Qed.

Lemma blocked_initial_initial : initial blocked_initial.
Proof. solve_initial. Qed.

Lemma blocked_graph_wf : wf blocked_graph.
Proof. split; simpl; repeat constructor; simpl; intuition discriminate. Qed.

Lemma blocked_graph_stalled : stalled blocked_graph.
Proof.
  split; [|split].
  - exists ghost_task. split; [simpl; auto|reflexivity].
  - simpl. intros t [<-|[<-|[]]] H; [discriminate H|reflexivity].
  - simpl. intros a [<-|[]]. reflexivity.
Qed.

Lemma C4_stall_is_polled_for_ever_witness :
  run [LAssign; LCheck; LWake] (start blocked_graph)
  = Some (start blocked_graph) /\
  forall ls c, run ls (start blocked_graph) = Some c ->
               orch c = blocked_graph /\ phase c <> Terminated /\
               phase c <> Crashed.
Proof.
  destruct (C4_stall_is_polled_for_ever blocked_graph) as [H1 [H2 _]].
  - exact blocked_graph_wf.
  - exact blocked_graph_stalled.
  - split; [exact H1|exact H2].
Defined.

(** C4 fails as stated: in the run below "T0" fails in the first round;
    after it "T1" is pending and blocked by "T0", nothing is in flight, and
    no continuation of the run reaches the end of the loop. *)
Lemma C4_counterexample_stall_never_terminates :
  initial blocked_initial /\
  run failing_round (start blocked_initial) = Some (start blocked_graph) /\
  stalled blocked_graph /\
  ~ exists ls c, run ls (start blocked_graph) = Some c /\
                 phase c = Terminated.
Proof.
  split; [exact blocked_initial_initial|]. split; [reflexivity|].
  split; [exact blocked_graph_stalled|].
  intros [ls [c [Hrun Hph]]].
  assert (H : polling blocked_graph c).
  { apply (run_invariant (polling blocked_graph)
             (fun l c1 c2 => stalled_step blocked_graph l c1 c2
                               blocked_graph_wf blocked_graph_stalled)
             ls (start blocked_graph) c); [|exact Hrun].
    split; [reflexivity|]. left. reflexivity. }
  destruct H as [_ [H|[H|H]]]; congruence.
Qed.

(** ** Interrupted executions *)

Lemma task_status_begin_other agent task k o :
  Task.id task <> k ->
  task_status k (begin_execution agent task o) = task_status k o.
Proof.
  intros Hne. unfold begin_execution, task_status.
  rewrite get_task_update_agent.
  apply (task_status_update_other k (Task.id task)); [reflexivity|congruence].
Qed.

Lemma task_status_update_agent k k' f o :
  task_status k (update_agent k' f o) = task_status k o.
Proof. reflexivity. Qed.

Lemma task_status_resume_other agent task aw m k o :
  Task.id task <> k ->
  task_status k (state_of (resume_execution agent task aw m o))
  = task_status k o.
Proof.
  intros Hne. assert (Hne' : k <> Task.id task) by congruence.
  unfold resume_execution, state_of, finally_clause, except_clause.
  destruct aw as [[rc|]|]; [destruct (rc =? 0)%Z; [destruct m|]| |];
    cbn [fst]; rewrite task_status_update_agent;
    repeat (rewrite (task_status_update_other k (Task.id task))
              by (reflexivity || exact Hne'));
    reflexivity.
Qed.

Lemma parked_step k l c c' : parked k c -> step l c = Some c' -> parked k c'.
Proof.
  intros [Hnd [Hst Hns]] Hs.
  pose proof (step_same_keys _ _ _ Hs) as [_ Hk].
  apply step_Step in Hs.
  split; [now rewrite Hk|]. clear Hk.
  destruct Hs; unfold not_scheduled in *; cbn [orch phase] in *.
  - (* assign *)
    pose proof (assign_tasks_advance o Hnd) as Hadv.
    unfold task_status in Hst.
    destruct (get_task k o) as [t|] eqn:G; [|discriminate].
    destruct (get_task_advance o _ k t Hadv G) as [t' [G' [_ HR]]].
    assert (Hst' : task_status k (assign_tasks o) = Some IN_PROGRESS).
    { unfold task_status. rewrite G'. simpl. simpl in Hst.
      injection Hst as Hst. destruct HR as [E|[E _]]; congruence. }
    split; [exact Hst'|].
    unfold after_assign, active_tasks.
    destruct (collect_active (assign_tasks o) (agents (assign_tasks o)))
      as [[|e act]|] eqn:A; auto.
    intros [agent task] Hin Hid. rewrite app_nil_r in Hin.
    destruct (collect_active_In _ _ _ _ _ A Hin) as [_ [_ [k' [_ [Gk Hs]]]]].
    pose proof (get_task_id _ _ _ Gk) as Hk'. simpl in Hid.
    unfold task_status in Hst'. rewrite <- Hid, Hk', Gk in Hst'.
    simpl in Hst'. congruence.
  - (* start *)
    assert (Hne : Task.id task <> k).
    { apply (Hns (agent, task)). apply in_or_app. left.
      eapply nth_error_In; eauto. }
    split; [now rewrite task_status_begin_other|].
    intros e He. apply Hns.
    apply in_app_or in He. apply in_or_app.
    destruct He as [He|[<-|He]].
    + left. eapply In_remove_nth; eauto.
    + left. eapply nth_error_In; eauto.
    + right. exact He.
  - (* finish *)
    assert (Hne : Task.id task <> k).
    { apply (Hns (agent, task)). simpl. eapply nth_error_In; eauto. }
    split; [now rewrite task_status_resume_other|].
    intros e He. apply Hns. simpl in *. eapply In_remove_nth; eauto.
  - split; [exact Hst|exact I].
  - split; [exact Hst|]. unfold after_check.
    destruct (remaining_tasks o); exact I.
  - split; [exact Hst|exact I].
  - split; [exact Hst|exact I].
Qed.

(** Once [asyncio.wait] has returned, a task that is in_progress stays
    in_progress at every later point of the run. *)
Lemma interrupted_stays_in_progress c live n k :
  NoDup (keys Task.id (tasks (orch c))) ->
  phase c = Waiting [] live (S n) ->
  task_status k (orch c) = Some IN_PROGRESS ->
  forall ls c', run (LWaitReturn :: ls) c = Some c' ->
                task_status k (orch c') = Some IN_PROGRESS.
Proof.
  intros Hnd Hph Hst ls c' Hrun. cbn [run] in Hrun.
  destruct (step LWaitReturn c) as [c1|] eqn:E; [|discriminate].
  assert (Hp : parked k c1).
  { apply step_Step in E. inversion E; subst. cbn [orch phase] in *.
    split; [exact Hnd|]. split; [exact Hst|exact I]. }
  apply (run_invariant (parked k) (parked_step k) ls c1 c' Hp Hrun).
Qed.

(** ** Coroutines and the tasks they run *)

(** A property kept by the loop body on a task that is still pending is kept
    by the whole assign phase. *)
Lemma fold_assign_one_inv (P : Orchestrator -> Prop) :
  (forall o tid,
     (forall x, In x (tasks o) -> Task.id x = tid -> Task.status x = PENDING) ->
     P o -> P (assign_one o tid)) ->
  forall l o,
    NoDup l ->
    (forall tid x, In tid l -> In x (tasks o) -> Task.id x = tid ->
                   Task.status x = PENDING) ->
    P o -> P (fold_left assign_one l o).
Proof.
  intros Hone l. induction l as [|tid l IH]; simpl; intros o Hl Hp HP;
    [exact HP|].
  inversion Hl as [|? ? Hnotin Hl']; subst.
  apply IH; [exact Hl'| |].
  - intros tid' x' Hin Hx' Hid.
    apply (assign_one_keeps_pending o tid tid' x'); auto.
    + intros ->. contradiction.
    + intros x Hx Hidx. apply (Hp tid' x); auto.
  - apply Hone; [|exact HP]. intros x Hx Hid. apply (Hp tid x); auto.
Qed.

Lemma assign_tasks_inv (P : Orchestrator -> Prop) o :
  NoDup (keys Task.id (tasks o)) ->
  (forall o tid,
     (forall x, In x (tasks o) -> Task.id x = tid -> Task.status x = PENDING) ->
     P o -> P (assign_one o tid)) ->
  P o -> P (assign_tasks o).
Proof.
  intros Hnd Hone HP. unfold assign_tasks, available_tasks.
  apply fold_assign_one_inv; auto.
  - now apply NoDup_keys_filter.
  - intros tid x Hin Hx Hid. unfold keys in Hin. apply in_map_iff in Hin.
    destruct Hin as [y [Hy Hyin]]. apply filter_In in Hyin.
    destruct Hyin as [Hyin Hyp].
    assert (x = y) by (eapply NoDup_keys_inj; eauto; congruence).
    subst y. now apply TaskStatus_eqb_eq in Hyp.
Qed.

Lemma task_status_pending o k :
  (forall x, In x (tasks o) -> Task.id x = k -> Task.status x = PENDING) ->
  task_status k o <> Some ASSIGNED.
Proof.
  intros Hp E. unfold task_status in E.
  destruct (get_task k o) as [t|] eqn:G; [|discriminate].
  apply dict_get_Some in G. destruct G as [G1 G2].
  simpl in E. rewrite (Hp t G1 G2) in E. discriminate.
Qed.

Lemma assign_one_held_ok o tid :
  (forall x, In x (tasks o) -> Task.id x = tid -> Task.status x = PENDING) ->
  held_ok o -> held_ok (assign_one o tid).
Proof.
  intros Hp [Hwf [H1 H2]].
  split; [eapply same_keys_wf; [apply assign_one_same_keys|exact Hwf]|].
  unfold assign_one.
  destruct (get_task tid o) as [task|] eqn:G; [|auto].
  destruct (_find_best_agent_for_task o task) as [best|] eqn:B; [|auto].
  destruct (_can_assign_task o task); [|auto].
  apply find_best_agent_idle in B. destruct B as [Bin _].
  set (f := fun t => Task.set_assigned_agent (Some (AuggieAgent.id best))
                       (Task.set_status ASSIGNED t)).
  set (o1 := update_task tid f o).
  assert (Hnew : task_status tid o1 = Some ASSIGNED).
  { unfold o1. rewrite task_status_update_same by reflexivity.
    now rewrite G. }
  assert (Hold : forall k, task_status k o = Some ASSIGNED ->
                           task_status k o1 = Some ASSIGNED).
  { intros k Hk. destruct (String.eqb_spec k tid) as [->|Hne];
      [exact Hnew|].
    unfold o1. now rewrite task_status_update_other by (reflexivity || auto). }
  assert (Hcases : forall a', In a' (agents (update_agent (AuggieAgent.id best)
                     (AuggieAgent.set_current_task (Some tid)) o1)) ->
            (a' = AuggieAgent.set_current_task (Some tid) best) \/
            (In a' (agents o) /\ a' <> best)).
  { intros a' Hin. apply In_agents_update_agent in Hin; [|reflexivity].
    destruct Hin as [a [Ha [_ [[Hk ->]|[Hk ->]]]]].
    - left. f_equal. eapply NoDup_keys_inj; [apply Hwf| | |]; eauto.
    - right. split; [exact Ha|]. intros ->. congruence. }
  split.
  - intros a' Hin Ht. destruct (Hcases a' Hin) as [->|[Ha _]].
    + exists tid. split; [reflexivity|]. exact Hnew.
    + destruct (H1 a' Ha Ht) as [k [Hk Hs]]. exists k. split; [exact Hk|].
      rewrite task_status_update_agent. now apply Hold.
  - intros a' b' Ha' Hb' Ht E.
    destruct (Hcases a' Ha') as [->|[Ha Hna]];
      destruct (Hcases b' Hb') as [->|[Hb Hnb]].
    + reflexivity.
    + exfalso. simpl in E, Ht.
      assert (Htb : truthy (AuggieAgent.current_task b') = true)
        by (rewrite <- E; exact Ht).
      destruct (H1 b' Hb Htb) as [k [Hk Hs]].
      rewrite <- E in Hk. injection Hk as <-.
      now apply (task_status_pending o tid Hp).
    + exfalso. simpl in E.
      destruct (H1 a' Ha Ht) as [k [Hk Hs]].
      rewrite E in Hk. injection Hk as <-.
      now apply (task_status_pending o tid Hp).
    + now apply H2.
Qed.

Lemma assign_tasks_held_ok o : held_ok o -> held_ok (assign_tasks o).
Proof.
  intros H. apply assign_tasks_inv; [apply H| |exact H].
  intros o1 tid Hp H1. now apply assign_one_held_ok.
Qed.

(** Lines 294-298 collect one coroutine for each agent that holds an
    assigned task. *)
Lemma collect_active_complete o l act a k t :
  collect_active o l = Some act -> In a l ->
  truthy (AuggieAgent.current_task a) = true ->
  AuggieAgent.current_task a = Some k -> get_task k o = Some t ->
  Task.status t = ASSIGNED -> In (a, t) act.
Proof.
  revert act. induction l as [|b r IH]; simpl; intros act H Hin Ht Hc G Hs;
    [destruct Hin|].
  destruct Hin as [->|Hin].
  - rewrite Ht, Hc, G in H.
    destruct (collect_active o r) as [rest|]; [|discriminate].
    rewrite Hs in H. simpl in H. injection H as <-. simpl. auto.
  - destruct (truthy (AuggieAgent.current_task b)) eqn:T.
    + destruct (AuggieAgent.current_task b) as [kb|]; [|discriminate].
      destruct (get_task kb o) as [tb|]; [|discriminate].
      destruct (collect_active o r) as [rest|]; [|discriminate].
      destruct (TaskStatus_eqb (Task.status tb) ASSIGNED);
        injection H as <-; simpl; eauto.
    + eauto.
Qed.

Lemma collect_active_defined o l :
  (forall a, In a l -> truthy (AuggieAgent.current_task a) = true ->
             exists k, AuggieAgent.current_task a = Some k /\
                       get_task k o <> None) ->
  exists act, collect_active o l = Some act.
Proof.
  induction l as [|b r IH]; simpl; intros H; [eauto|].
  destruct IH as [rest Hrest]; [intros a Ha; apply H; auto|].
  rewrite Hrest.
  destruct (truthy (AuggieAgent.current_task b)) eqn:T; [|eauto].
  destruct (H b (or_introl eq_refl) T) as [k [Hk Hg]]. rewrite Hk.
  destruct (get_task k o) as [t|]; [|congruence].
  destruct (TaskStatus_eqb (Task.status t) ASSIGNED); eauto.
Qed.

Lemma collect_active_tasks_NoDup o l act :
  NoDup l ->
  (forall a b, In a l -> In b l ->
               truthy (AuggieAgent.current_task a) = true ->
               AuggieAgent.current_task a = AuggieAgent.current_task b ->
               a = b) ->
  collect_active o l = Some act -> NoDup (map exec_task_id act).
Proof.
  revert act. induction l as [|a r IH]; simpl; intros act Hnd Hinj H.
  - injection H as <-. constructor.
  - inversion Hnd as [|? ? Hnotin Hnd']; subst.
    assert (Hinj' : forall x y, In x r -> In y r ->
              truthy (AuggieAgent.current_task x) = true ->
              AuggieAgent.current_task x = AuggieAgent.current_task y ->
              x = y) by (intros; apply Hinj; auto).
    destruct (truthy (AuggieAgent.current_task a)) eqn:T; [|eauto].
    destruct (AuggieAgent.current_task a) as [k|] eqn:C; [|discriminate].
    destruct (get_task k o) as [t|] eqn:G; [|discriminate].
    destruct (collect_active o r) as [rest|] eqn:A; [|discriminate].
    specialize (IH rest Hnd' Hinj' eq_refl).
    destruct (TaskStatus_eqb (Task.status t) ASSIGNED); injection H as <-;
      [|exact IH].
    simpl. constructor; [|exact IH].
    intros Hin. apply in_map_iff in Hin. destruct Hin as [[b tb] [Hid Hb]].
    destruct (collect_active_In _ _ _ _ _ A Hb) as [Hbr [_ [kb [Cb [Gb _]]]]].
    unfold exec_task_id in Hid. simpl in Hid.
    apply get_task_id in G. apply get_task_id in Gb.
    assert (a = b).
    { apply Hinj; auto; [now rewrite C|]. rewrite C, Cb. congruence. }
    subst b. contradiction.
Qed.

Lemma remove_nth_perm {A : Type} (i : nat) (l : list A) (e : A) :
  nth_error l i = Some e -> Permutation l (e :: remove_nth i l).
Proof.
  revert i. induction l as [|x r IH]; intros [|i]; simpl; intros H;
    try discriminate.
  - injection H as ->. apply Permutation_refl.
  - eapply Permutation_trans; [apply perm_skip, (IH i H)|apply perm_swap].
Qed.

Lemma remove_nth_differs {A B : Type} (f : A -> B) (i : nat) (l : list A)
  (e x : A) :
  NoDup (map f l) -> nth_error l i = Some e -> In x (remove_nth i l) ->
  f x <> f e.
Proof.
  intros Hnd Hn Hin E.
  apply (Permutation_NoDup (Permutation_map f (remove_nth_perm i l e Hn)))
    in Hnd.
  simpl in Hnd. inversion Hnd as [|? ? Hnotin _]; subst.
  apply Hnotin. rewrite <- E. now apply in_map.
Qed.

Lemma In_remove_nth_other {A B : Type} (f : A -> B) (i : nat) (l : list A)
  (e : A) (y : B) :
  nth_error l i = Some e -> In y (map f l) -> y <> f e ->
  In y (map f (remove_nth i l)).
Proof.
  intros Hn Hin Hne.
  apply (Permutation_in _ (Permutation_map f (remove_nth_perm i l e Hn)))
    in Hin.
  simpl in Hin. destruct Hin as [E|Hin]; [congruence|exact Hin].
Qed.

Lemma start_perm {A : Type} (i : nat) (todo live : list A) (e : A) :
  nth_error todo i = Some e ->
  Permutation (todo ++ live) (remove_nth i todo ++ e :: live).
Proof.
  intros Hn. eapply Permutation_trans.
  - apply Permutation_app_tail. apply (remove_nth_perm i todo e Hn).
  - simpl. apply Permutation_middle.
Qed.

Lemma agents_resume_execution agent task aw m o :
  agents (state_of (resume_execution agent task aw m o))
  = agents (finally_clause agent o).
Proof.
  unfold resume_execution, state_of.
  destruct aw as [[rc|]|]; [destruct (rc =? 0)%Z; [destruct m|]| |];
    reflexivity.
Qed.

(** After the [finally] clause the agent holds nothing; the other agents are
    as before. *)
Lemma In_agents_finally agent o a' :
  In a' (agents (finally_clause agent o)) ->
  truthy (AuggieAgent.current_task a') = true ->
  In a' (agents o) /\ AuggieAgent.id a' <> AuggieAgent.id agent.
Proof.
  unfold finally_clause. intros Hin Ht.
  apply In_agents_update_agent in Hin; [|reflexivity].
  destruct Hin as [a [Ha [_ [[_ ->]|[Hne ->]]]]].
  - simpl in Ht. discriminate.
  - auto.
Qed.

Lemma all_idle_held_ok o :
  wf o ->
  (forall a, In a (agents o) -> truthy (AuggieAgent.current_task a) = false) ->
  held_ok o.
Proof.
  intros Hwf H. split; [exact Hwf|]. split.
  - intros a Ha Ht. rewrite (H a Ha) in Ht. discriminate.
  - intros a b Ha _ Ht. rewrite (H a Ha) in Ht. discriminate.
Qed.

Lemma NoDup_keys_NoDup {V : Type} (key : V -> string) (d : list V) :
  NoDup (keys key d) -> NoDup d.
Proof. apply NoDup_map_inv. Qed.

Lemma exec_inv_assign o :
  held_ok o -> exec_inv (mkConfig o (after_assign o)).
Proof.
  intros [Hwf [H1 H2]]. split; [exact Hwf|]. cbn [orch phase].
  destruct (collect_active_defined o (agents o)) as [act A].
  { intros a Ha Ht. destruct (H1 a Ha Ht) as [k [Hk Hs]]. exists k.
    split; [exact Hk|]. unfold task_status in Hs.
    destruct (get_task k o); [discriminate|discriminate Hs]. }
  assert (Hall : forall a, In a (agents o) ->
            truthy (AuggieAgent.current_task a) = true ->
            In (AuggieAgent.id a) (map exec_agent_id act)).
  { intros a Ha Ht. destruct (H1 a Ha Ht) as [k [Hk Hs]].
    unfold task_status in Hs.
    destruct (get_task k o) as [t|] eqn:G; [|discriminate].
    simpl in Hs. injection Hs as Hs.
    pose proof (collect_active_complete o _ act a k t A Ha Ht Hk G Hs) as Hin.
    apply (in_map exec_agent_id) in Hin. exact Hin. }
  unfold after_assign, active_tasks. rewrite A.
  destruct act as [|e act]; [exact Hall|].
  rewrite app_nil_r. split; [|split; [|split]].
  - apply (collect_active_tasks_NoDup o (agents o)); auto.
    apply (NoDup_keys_NoDup AuggieAgent.id). apply Hwf.
  - intros [agent task] Hin.
    destruct (collect_active_In _ _ _ _ _ A Hin) as [_ [_ [k [_ [G Hs]]]]].
    unfold exec_task_id, task_status. simpl.
    rewrite (get_task_id _ _ _ G), G. simpl. now rewrite Hs.
  - intros e0 [].
  - exact Hall.
Qed.

Lemma NoDup_map_app_differs {A B : Type} (f : A -> B) (l1 l2 : list A)
  (x y : A) :
  NoDup (map f (l1 ++ l2)) -> In x l1 -> In y l2 -> f x <> f y.
Proof.
  induction l1 as [|a r IH]; simpl; intros Hnd Hx Hy; [destruct Hx|].
  inversion Hnd as [|? ? Hnotin Hnd']; subst.
  destruct Hx as [->|Hx]; [|auto].
  intros E. apply Hnotin. rewrite E. apply in_map. apply in_or_app. auto.
Qed.

Lemma NoDup_map_app_l {A B : Type} (f : A -> B) (l1 l2 : list A) :
  NoDup (map f (l1 ++ l2)) -> NoDup (map f l1).
Proof. rewrite map_app. apply NoDup_app_remove_r. Qed.

Lemma In_agents_begin agent task o a' :
  In a' (agents (begin_execution agent task o)) ->
  exists a, In a (agents o) /\ AuggieAgent.id a = AuggieAgent.id a' /\
            AuggieAgent.current_task a = AuggieAgent.current_task a'.
Proof.
  unfold begin_execution. intros Hin.
  apply In_agents_update_agent in Hin; [|reflexivity].
  destruct Hin as [a [Ha [Hid [[_ ->]|[_ ->]]]]]; exists a; auto.
Qed.

Lemma task_status_begin_same agent task o s :
  task_status (Task.id task) o = Some s ->
  task_status (Task.id task) (begin_execution agent task o) = Some IN_PROGRESS.
Proof.
  intros H. unfold begin_execution.
  rewrite task_status_update_agent, task_status_update_same by reflexivity.
  unfold task_status in H.
  destruct (get_task (Task.id task) o); [reflexivity|discriminate].
Qed.

Lemma exec_inv_step l c c' : exec_inv c -> step l c = Some c' -> exec_inv c'.
Proof.
  intros [Hwf Hph] Hs.
  assert (Hwf' : wf (orch c'))
    by (eapply same_keys_wf; [eapply step_same_keys; eauto|exact Hwf]).
  apply step_Step in Hs. destruct Hs; cbn [orch phase] in *.
  - (* assign *)
    apply exec_inv_assign. apply assign_tasks_held_ok.
    now apply all_idle_held_ok.
  - (* start *)
    destruct Hph as [Hnd [Htodo [Hlive Hag]]].
    pose proof (nth_error_In _ _ H) as Hin.
    split; [exact Hwf'|]. cbn [phase orch]. split; [|split; [|split]].
    + eapply Permutation_NoDup; [|exact Hnd].
      apply Permutation_map. now apply start_perm.
    + intros e He.
      assert (Hne : exec_task_id e <> exec_task_id (agent, task)).
      { apply (remove_nth_differs exec_task_id i todo); auto.
        eapply NoDup_map_app_l; eauto. }
      rewrite task_status_begin_other by (intros E; apply Hne; now rewrite <- E).
      apply Htodo. eapply In_remove_nth; eauto.
    + intros e [<-|He].
      * apply (task_status_begin_same agent task o ASSIGNED).
        apply (Htodo (agent, task) Hin).
      * assert (Hne : exec_task_id (agent, task) <> exec_task_id e)
          by (eapply NoDup_map_app_differs; eauto).
        rewrite task_status_begin_other by exact Hne. now apply Hlive.
    + intros a' Ha' Ht.
      destruct (In_agents_begin _ _ _ _ Ha') as [a [Ha [Hid Hct]]].
      rewrite <- Hid.
      eapply Permutation_in;
        [apply Permutation_map; apply (start_perm i todo live _ H)|].
      apply Hag; [exact Ha|]. now rewrite Hct.
  - (* finish *)
    destruct Hph as [Hnd [_ [Hlive Hag]]]. simpl in Hnd, Hag.
    split; [exact Hwf'|]. cbn [phase orch]. split; [|split; [|split]].
    + simpl.
      apply (Permutation_NoDup
               (Permutation_map exec_task_id (remove_nth_perm i live _ H)))
        in Hnd.
      simpl in Hnd. now inversion Hnd.
    + intros e [].
    + intros e He.
      assert (Hne : exec_task_id e <> exec_task_id (agent, task))
        by (apply (remove_nth_differs exec_task_id i live); auto).
      rewrite task_status_resume_other
        by (intros E; apply Hne; now rewrite <- E).
      apply Hlive. eapply In_remove_nth; eauto.
    + intros a' Ha' Ht. rewrite agents_resume_execution in Ha'.
      destruct (In_agents_finally _ _ _ Ha' Ht) as [Ha Hne]. simpl.
      apply (In_remove_nth_other exec_agent_id i live (agent, task)); auto.
  - (* wait returns *)
    destruct Hph as [_ [_ [_ Hag]]]. split; [exact Hwf'|exact Hag].
  - (* check *)
    split; [exact Hwf'|]. cbn [phase orch]. unfold after_check.
    destruct (remaining_tasks o); [exact I|exact Hph].
  - (* cancel *)
    split; [exact Hwf'|]. cbn [phase orch].
    intros a' Ha' Ht. rewrite agents_resume_execution in Ha'.
    destruct (In_agents_finally _ _ _ Ha' Ht) as [Ha Hne].
    apply (In_remove_nth_other exec_agent_id i cancelled (agent, task)); auto.
  - (* wake *)
    split; [exact Hwf'|]. cbn [phase orch]. intros a Ha.
    destruct (truthy (AuggieAgent.current_task a)) eqn:T; [|reflexivity].
    destruct (Hph a Ha T).
Qed.

Lemma initial_exec_inv o : initial o -> exec_inv (start o).
Proof.
  intros [Hwf [Hag _]]. split; [exact Hwf|]. cbn [phase start orch].
  intros a Ha. rewrite Forall_forall in Hag.
  destruct (Hag a Ha) as [_ ->]. reflexivity.
Qed.

Lemma reachable_exec_inv o c : initial o -> reachable_from o c -> exec_inv c.
Proof.
  intros Hinit [ls Hrun].
  apply (run_invariant exec_inv exec_inv_step ls (start o) c);
    [now apply initial_exec_inv|exact Hrun].
Qed.

(** C5: in every run, when [asyncio.wait] returns, every coroutine that has
    not ended by then (it was not among the first completions, and is
    cancelled) leaves its task in_progress, and the task is in_progress at
    every later point of the run: it is never set to failed, and never set
    back to pending. *)
Theorem C5_interrupted_task_remains_in_progress o c live n agent task :
  initial o -> reachable_from o c ->
  phase c = Waiting [] live (S n) -> In (agent, task) live ->
  forall ls c', run (LWaitReturn :: ls) c = Some c' ->
                task_status (Task.id task) (orch c') = Some IN_PROGRESS.
Proof.
  intros Hinit Hreach Hph Hin.
  destruct (reachable_exec_inv o c Hinit Hreach) as [Hwf Hinv].
  rewrite Hph in Hinv. destruct Hinv as [_ [_ [Hlive _]]].
  apply (interrupted_stays_in_progress c live n); auto.
  - apply Hwf.
  - apply (Hlive (agent, task) Hin).
Qed.

Lemma C5_interrupted_task_remains_in_progress_witness :
  task_status "C" (orch first_completion) = Some COMPLETED /\
  task_status "A" (orch first_completion) = Some IN_PROGRESS /\
  task_status "A" (orch second_assign) = Some IN_PROGRESS.
Proof.
  split; [reflexivity|]. split; [reflexivity|].
  apply (C5_interrupted_task_remains_in_progress
           two_rounds_graph first_completion
           [(frontend_holding, ui_task_assigned)] 0
           frontend_holding ui_task_assigned
           two_rounds_graph_initial
           (ex_intro _ [LAssign; LStart 0; LStart 0;
                        LFinish 0 (Returned 0) Merged] eq_refl)
           eq_refl (or_introl eq_refl)
           [LCheck; LCancel 0; LWake; LAssign] second_assign).
  reflexivity.
Defined.

(** ** Agents between assignment and execution *)

Lemma fold_assign_one_preserves (P : Orchestrator -> Prop) :
  (forall o tid, P o -> P (assign_one o tid)) ->
  forall l o, P o -> P (fold_left assign_one l o).
Proof.
  intros Hone l. induction l as [|tid l IH]; simpl; intros o HP; auto.
Qed.

(** The assign phase writes no status of an agent. *)
Lemma assign_one_statuses o tid a' :
  In a' (agents (assign_one o tid)) ->
  exists a, In a (agents o) /\ AuggieAgent.status a' = AuggieAgent.status a.
Proof.
  unfold assign_one.
  destruct (get_task tid o) as [task|]; [|eauto].
  destruct (_find_best_agent_for_task o task) as [best|]; [|eauto].
  destruct (_can_assign_task o task); [|eauto].
  intros Hin. apply In_agents_update_agent in Hin; [|reflexivity].
  destruct Hin as [a [Ha [_ [[_ ->]|[_ ->]]]]]; exists a; auto.
Qed.

Lemma assign_tasks_statuses o a' :
  In a' (agents (assign_tasks o)) ->
  exists a, In a (agents o) /\ AuggieAgent.status a' = AuggieAgent.status a.
Proof.
  revert a'. unfold assign_tasks.
  apply (fold_assign_one_preserves
           (fun o1 => forall a', In a' (agents o1) ->
              exists a, In a (agents o) /\
                        AuggieAgent.status a' = AuggieAgent.status a)).
  - intros o1 tid H a' Ha'.
    destruct (assign_one_statuses o1 tid a' Ha') as [a1 [Ha1 E1]].
    destruct (H a1 Ha1) as [a [Ha E]]. exists a. split; [exact Ha|congruence].
  - intros a' Ha'. eauto.
Qed.

Lemma two_statuses_step l c c' :
  two_statuses (orch c) -> step l c = Some c' -> two_statuses (orch c').
Proof.
  intros H Hs. apply step_Step in Hs. destruct Hs; cbn [orch] in *; auto.
  - intros a' Ha'. destruct (assign_tasks_statuses o a' Ha') as [a [Ha E]].
    rewrite E. now apply H.
  - intros a' Ha'. unfold begin_execution in Ha'.
    apply In_agents_update_agent in Ha'; [|reflexivity].
    destruct Ha' as [a [Ha [_ [[_ ->]|[_ ->]]]]]; [right; reflexivity|auto].
  - intros a' Ha'. rewrite agents_resume_execution in Ha'.
    unfold finally_clause in Ha'.
    apply In_agents_update_agent in Ha'; [|reflexivity].
    destruct Ha' as [a [Ha [_ [[_ ->]|[_ ->]]]]]; [left; reflexivity|auto].
  - intros a' Ha'. rewrite agents_resume_execution in Ha'.
    unfold finally_clause in Ha'.
    apply In_agents_update_agent in Ha'; [|reflexivity].
    destruct Ha' as [a [Ha [_ [[_ ->]|[_ ->]]]]]; [left; reflexivity|auto].
Qed.

Lemma reachable_two_statuses o c :
  initial o -> reachable_from o c -> two_statuses (orch c).
Proof.
  intros [_ [Hag _]] [ls Hrun].
  apply (run_invariant (fun c => two_statuses (orch c)) two_statuses_step
           ls (start o) c); [|exact Hrun].
  intros a Ha. rewrite Forall_forall in Hag. destruct (Hag a Ha) as [E _].
  left. exact E.
Qed.

Lemma reachable_agent_inv o c : initial o -> reachable_from o c -> agent_inv c.
Proof.
  intros Hinit [ls Hrun].
  apply (run_invariant agent_inv agent_inv_step ls (start o) c);
    [now apply initial_agent_inv|exact Hrun].
Qed.

(** C6, as amended: at every point of every run, an agent whose status is
    "working" has a current task (a non-empty identifier).  The converse
    does not hold: right after an assign phase every agent is "idle", and
    each agent that holds a task holds an assigned task, whose execution has
    not started. *)
Theorem C6_working_agent_has_current_task o c :
  initial o -> reachable_from o c ->
  (forall a, In a (agents (orch c)) -> AuggieAgent.status a = "working" ->
             truthy (AuggieAgent.current_task a) = true) /\
  (phase c = Assigning ->
   forall c', step LAssign c = Some c' ->
   forall a, In a (agents (orch c')) ->
             AuggieAgent.status a = "idle" /\
             (truthy (AuggieAgent.current_task a) = true ->
              exists k, AuggieAgent.current_task a = Some k /\
                        task_status k (orch c') = Some ASSIGNED)).
Proof.
  intros Hinit Hreach.
  destruct (reachable_agent_inv o c Hinit Hreach) as [_ [Hw _]].
  split; [exact Hw|].
  intros Hph c' Hs a' Ha'.
  destruct (reachable_exec_inv o c Hinit Hreach) as [Hwf Hfalsy].
  rewrite Hph in Hfalsy.
  pose proof (reachable_two_statuses o c Hinit Hreach) as Htwo.
  apply step_Step in Hs. inversion Hs as [oc| | | | | |]; subst.
  cbn [orch] in *. split.
  - destruct (assign_tasks_statuses oc a' Ha') as [a [Ha E]]. rewrite E.
    destruct (Htwo a Ha) as [Hi|Hk]; [exact Hi|].
    pose proof (Hw a Ha Hk) as Ht. rewrite (Hfalsy a Ha) in Ht. discriminate.
  - intros Ht.
    destruct (assign_tasks_held_ok oc (all_idle_held_ok oc Hwf Hfalsy))
      as [_ [H1 _]].
    now apply H1.
Qed.

Lemma C6_working_agent_has_current_task_witness :
  In backend_agent_working (agents (orch one_pair_started)) /\
  truthy (AuggieAgent.current_task backend_agent_working) = true.
Proof.
  split; [simpl; auto|].
  destruct (C6_working_agent_has_current_task one_pair one_pair_started)
    as [H _].
  - exact one_pair_initial.
  - exists [LAssign; LStart 0]. reflexivity.
  - apply H; [simpl; auto|reflexivity].
Defined.

(** C6 fails as stated: right after the assign phase the agent holds "T1"
    and its status is "idle". *)
Lemma C6_counterexample_idle_agent_with_task :
  initial one_pair /\
  exists c a,
    run [LAssign] (start one_pair) = Some c /\
    In a (agents (orch c)) /\
    AuggieAgent.status a = "idle" /\
    AuggieAgent.current_task a = Some "T1" /\
    ~ (AuggieAgent.status a = "working" <->
       truthy (AuggieAgent.current_task a) = true).
Proof.
  split; [exact one_pair_initial|].
  eexists. eexists. split; [reflexivity|].
  cbn [orch agents]. split; [left; reflexivity|].
  split; [reflexivity|]. split; [reflexivity|].
  simpl. intros [_ H]. specialize (H eq_refl). discriminate H.
Qed.

(** * Properties of the parser, of the stores and of the runs *)

(** ** The parser of [tasks.md] *)

Lemma prefix_split (p s : string) :
  prefix p s = true -> exists r, s = p ++ r.
Proof.
  revert s. induction p as [|a p IH]; intros s H.
  - exists s. reflexivity.
  - destruct s as [|b s]; simpl in H; [discriminate|].
    destruct (ascii_dec a b) as [->|_]; [|discriminate].
    destruct (IH s H) as [r ->]. exists r. reflexivity.
Qed.

Lemma append_assoc (a b c : string) : (a ++ b) ++ c = a ++ (b ++ c).
Proof. induction a as [|x a IH]; simpl; [reflexivity|now rewrite IH]. Qed.

Lemma append_nil_r (a : string) : a ++ EmptyString = a.
Proof. induction a as [|x a IH]; simpl; [reflexivity|now rewrite IH]. Qed.

Lemma is_empty_append (a : string) (c : ascii) :
  is_empty (a ++ String c EmptyString) = false.
Proof. destruct a; reflexivity. Qed.

(** The run being read is the beginning of the first token. *)
Lemma tokens_first (cur s : string) :
  is_empty cur = false ->
  exists w rest, tokens cur s = (cur ++ w) :: rest.
Proof.
  revert cur. induction s as [|c r IH]; simpl; intros cur Hc.
  - rewrite Hc. exists EmptyString, []. now rewrite append_nil_r.
  - destruct (is_space c).
    + rewrite Hc. exists EmptyString, (tokens EmptyString r).
      now rewrite append_nil_r.
    + destruct (IH (cur ++ String c EmptyString) (is_empty_append cur c))
        as [w [rest E]].
      exists (String c w), rest. rewrite E, append_assoc. reflexivity.
Qed.


Lemma last_char_None (s : string) : last_char s = None -> s = EmptyString.
Proof.
  destruct s as [|c r]; simpl; [reflexivity|].
  destruct (last_char r); discriminate.
Qed.

(** [rstrip] leaves no stripped character at the end. *)
Lemma rstrip_if_last (p : ascii -> bool) (s : string) (c : ascii) :
  last_char (rstrip_if p s) = Some c -> p c = false.
Proof.
  induction s as [|a r IH]; simpl; [discriminate|].
  destruct (rstrip_if p r) as [|b r'] eqn:E.
  - destruct (p a) eqn:Pa; simpl; [discriminate|].
    intros H. injection H as <-. exact Pa.
  - intros H. apply IH. cbn [last_char] in H.
    cbn [last_char].
    destruct (match last_char r' with Some d => Some d | None => Some b end)
      as [d|] eqn:L; [exact H|].
    destruct (last_char r'); discriminate.
Qed.

(** On a header line the index 1 of line 119 is in range, and the
    identifier read there begins with "T" and does not end with a colon. *)
Lemma header_id_defined (line : string) :
  is_header line = true ->
  exists i, header_id line = Some i /\ good_id i.
Proof.
  intros H. apply prefix_split in H. destruct H as [r ->].
  unfold header_id, split_ws, header_marker.
  change (tokens EmptyString ("### T" ++ r))
    with ("###" :: tokens "T" r).
  destruct (tokens_first "T" r eq_refl) as [w [rest E]]. rewrite E.
  eexists. split; [reflexivity|]. split.
  - exists (rstrip_if (Ascii.eqb ":") w). simpl.
    destruct (rstrip_if (Ascii.eqb ":") w); reflexivity.
  - intros L. apply rstrip_if_last in L. discriminate L.
Qed.

Lemma flush_current (l : list TaskData) (d : TaskData) :
  flush (l, Some d) = (l ++ [d])%list.
Proof. reflexivity. Qed.

(** What one line does to the list that will be returned: a header line
    appends a task, any other line rewrites at most one field of the last
    one. *)
Lemma parse_line_cases (st st' : ParseState) (line : string) :
  parse_line st line = Some st' ->
  (is_header line = true /\
   exists task_id, header_id line = Some task_id /\
     flush st' = (flush st ++
                  [mkTaskData task_id EmptyString "general" [] []
                              (str_in "[P]" line) 1])%list) \/
  (is_header line = false /\
   (st' = st \/
    exists l d v, st = (l, Some d) /\
      (st' = (l, Some (with_description v d)) \/
       st' = (l, Some (with_component v d)) \/
       st' = (l, Some (with_files (comma_items v) d)) \/
       st' = (l, Some (with_dependencies (comma_items v) d))))).
Proof.
  unfold parse_line, is_header. destruct st as [l cur]. cbn [fst snd].
  destruct (prefix header_marker line).
  - destruct (header_id line) as [i|]; [|discriminate].
    intros H. injection H as <-. left. split; [reflexivity|].
    exists i. split; reflexivity.
  - intros H. right. split; [reflexivity|].
    destruct cur as [d|]; [|injection H as <-; auto].
    destruct (negb (is_empty (strip line))); [|injection H as <-; auto].
    destruct (prefix description_marker line);
      [injection H as <-; right; eauto 10|].
    destruct (prefix files_marker line);
      [injection H as <-; right; eauto 10|].
    destruct (prefix dependencies_marker line);
      [injection H as <-; right; eauto 10|].
    destruct (prefix component_marker line);
      [injection H as <-; right; eauto 10|].
    injection H as <-. auto.
Qed.

Lemma parse_line_defined (st : ParseState) (line : string) :
  exists st', parse_line st line = Some st'.
Proof.
  unfold parse_line. destruct (prefix header_marker line) eqn:H.
  - destruct (header_id_defined line H) as [i [-> _]]. eauto.
  - destruct (snd st); [|eauto].
    destruct (negb (is_empty (strip line))); [|eauto].
    destruct (prefix description_marker line); [eauto|].
    destruct (prefix files_marker line); [eauto|].
    destruct (prefix dependencies_marker line); [eauto|].
    destruct (prefix component_marker line); eauto.
Qed.

Lemma parse_lines_defined (lines : list string) (st : ParseState) :
  exists st', parse_lines lines st = Some st'.
Proof.
  revert st. induction lines as [|line r IH]; simpl; intros st; [eauto|].
  destruct (parse_line_defined st line) as [st1 ->]. apply IH.
Qed.

Lemma parse_lines_inv (P : ParseState -> Prop) :
  (forall st line st', P st -> parse_line st line = Some st' -> P st') ->
  forall lines st st', P st -> parse_lines lines st = Some st' -> P st'.
Proof.
  intros Hstep lines. induction lines as [|line r IH]; simpl;
    intros st st' HP H.
  - injection H as <-. exact HP.
  - destruct (parse_line st line) as [st1|] eqn:E; [|discriminate].
    eapply IH; [|exact H]. eapply Hstep; eauto.
Qed.

(** A property that holds of a new task and is kept by the four assignments
    holds of every returned task. *)
Lemma parsed_Forall (Q : TaskData -> Prop) :
  (forall i p, good_id i ->
     Q (mkTaskData i EmptyString "general" [] [] p 1)) ->
  (forall v d, Q d -> Q (with_description v d)) ->
  (forall v d, Q d -> Q (with_component v d)) ->
  (forall v d, Q d -> Q (with_files (comma_items v) d)) ->
  (forall v d, Q d -> Q (with_dependencies (comma_items v) d)) ->
  forall lines ts, parse_document lines = Some ts -> Forall Q ts.
Proof.
  intros Hnew Hd Hc Hf Hp lines ts H. unfold parse_document in H.
  destruct (parse_lines lines ([], None)) as [st'|] eqn:E; [|discriminate].
  injection H as <-.
  apply (parse_lines_inv (fun st => Forall Q (flush st))) with (3 := E);
    [|constructor].
  intros st line st1 HQ Hl.
  destruct (parse_line_cases st st1 line Hl)
    as [ [Hh [i [Hi E1]]] | [_ [ E1 | [l [d [v [E1 Hcase]]]] ]] ].
  - rewrite E1. apply Forall_app. split; [exact HQ|].
    constructor; [|constructor].
    apply Hnew. destruct (header_id_defined line Hh) as [j [Hj Hg]].
    congruence.
  - now rewrite E1.
  - subst st. rewrite flush_current in HQ. apply Forall_app in HQ.
    destruct HQ as [HQl HQd]. inversion HQd as [|? ? HQd' _]; subst.
    destruct Hcase as [ -> | [ -> | [ -> | -> ]]]; rewrite flush_current;
      apply Forall_app; (split; [exact HQl|]); constructor; auto.
Qed.

Lemma parse_lines_headers (lines : list string) (st st' : ParseState) :
  parse_lines lines st = Some st' ->
  map (fun d => Some (data_id d, data_parallel_safe d)) (flush st') =
  (map (fun d => Some (data_id d, data_parallel_safe d)) (flush st)
   ++ map header_of_line (filter is_header lines))%list.
Proof.
  revert st. induction lines as [|line r IH]; simpl; intros st H.
  - injection H as <-. now rewrite app_nil_r.
  - destruct (parse_line st line) as [st1|] eqn:E; [|discriminate].
    rewrite (IH st1 H).
    destruct (parse_line_cases st st1 line E)
      as [ [Hh [i [Hi E1]]] | [Hh [ E1 | [l [d [v [E1 Hcase]]]] ]] ];
      rewrite Hh.
    + rewrite E1, map_app, <- app_assoc. simpl.
      unfold header_of_line. rewrite Hi. reflexivity.
    + now rewrite E1.
    + subst st.
      destruct Hcase as [ -> | [ -> | [ -> | -> ]]];
        rewrite !flush_current, !map_app; reflexivity.
Qed.

(** X1: one task is returned for each header line, in the order of the lines,
    with the identifier and the "[P]" flag read on that line. *)
Theorem parse_returns_one_task_per_header (content : string)
  (ts : list TaskData) :
  _parse_tasks_markdown content = Some ts ->
  map (fun d => Some (data_id d, data_parallel_safe d)) ts =
  map header_of_line (filter is_header (split_on newline content)).
Proof.
  unfold _parse_tasks_markdown, parse_document. intros H.
  destruct (parse_lines (split_on newline content) ([], None)) as [st'|] eqn:E;
    [|discriminate].
  injection H as <-. now rewrite (parse_lines_headers _ _ _ E).
Qed.

Lemma parse_returns_one_task_per_header_witness :
  _parse_tasks_markdown sample_tasks_md = Some sample_parsed /\
  map (fun d => Some (data_id d, data_parallel_safe d)) sample_parsed =
  map header_of_line (filter is_header (split_on newline sample_tasks_md)).
Proof.
  split; [reflexivity|].
  apply (parse_returns_one_task_per_header sample_tasks_md). reflexivity.
Defined.


(** X2: the parser never raises: the index 1 of line 119 is always in range.
    Every identifier it returns begins with "T" and does not end with a
    colon, so it is not empty, and every estimated effort is 1. *)
Theorem parse_never_fails (content : string) :
  exists ts, _parse_tasks_markdown content = Some ts /\
             Forall (fun d => good_id (data_id d) /\
                              data_estimated_effort d = 1%Z) ts.
Proof.
  unfold _parse_tasks_markdown.
  destruct (parse_lines_defined (split_on newline content) ([], None))
    as [st' E].
  exists (flush st'). split; [unfold parse_document; now rewrite E|].
  apply (parsed_Forall _) with (lines := split_on newline content);
    [| | | | |unfold parse_document; now rewrite E];
    simpl; auto.
Qed.

(** *** The items of a comma-separated list *)

Lemma split_on_no_sep (sep : ascii) (s x : string) :
  In x (split_on sep s) -> has_char sep x = false.
Proof.
  revert x. induction s as [|c r IH]; simpl; intros x Hin.
  - destruct Hin as [<-|[]]. reflexivity.
  - destruct (Ascii.eqb c sep) eqn:E.
    + destruct Hin as [<-|Hin]; [reflexivity|auto].
    + destruct (split_on sep r) as [|h t].
      * destruct Hin as [<-|[]]. simpl. now rewrite E.
      * destruct Hin as [<-|Hin].
        -- simpl. rewrite E. apply IH. simpl. auto.
        -- apply IH. simpl. auto.
Qed.

Lemma has_char_lstrip (c : ascii) (s : string) :
  has_char c s = false -> has_char c (lstrip s) = false.
Proof.
  induction s as [|a r IH]; simpl; [auto|].
  intros H. apply orb_false_iff in H. destruct H as [H1 H2].
  destruct (is_space a); [auto|]. simpl. now rewrite H1, H2.
Qed.

Lemma has_char_rstrip_if (p : ascii -> bool) (c : ascii) (s : string) :
  has_char c s = false -> has_char c (rstrip_if p s) = false.
Proof.
  induction s as [|a r IH]; simpl; [auto|].
  intros H. apply orb_false_iff in H. destruct H as [H1 H2].
  specialize (IH H2).
  destruct (rstrip_if p r) as [|b r'].
  - destruct (p a); simpl; [reflexivity|now rewrite H1].
  - simpl. simpl in IH. now rewrite H1, IH.
Qed.

Lemma lstrip_first (s : string) (c : ascii) :
  first_char (lstrip s) = Some c -> is_space c = false.
Proof.
  induction s as [|a r IH]; simpl; [discriminate|].
  destruct (is_space a) eqn:E; [exact IH|].
  simpl. intros H. injection H as <-. exact E.
Qed.

Lemma lstrip_last (s : string) (c : ascii) :
  last_char (lstrip s) = Some c -> last_char s = Some c.
Proof.
  induction s as [|a r IH]; simpl; [auto|].
  destruct (is_space a); [|auto].
  intros H. rewrite (IH H). reflexivity.
Qed.

Lemma strip_clean (f : string) :
  is_empty (strip f) = false -> has_char "," f = false ->
  clean_item (strip f).
Proof.
  intros Hne Hc. unfold clean_item, strip in *. repeat split.
  - intros E. rewrite E in Hne. discriminate.
  - now apply has_char_lstrip, has_char_rstrip_if.
  - apply lstrip_first.
  - intros c H. apply lstrip_last in H. now apply rstrip_if_last in H.
Qed.

Lemma comma_items_clean (s : string) : Forall clean_item (comma_items s).
Proof.
  unfold comma_items. apply Forall_forall. intros x Hx.
  apply in_map_iff in Hx. destruct Hx as [f [<- Hf]].
  apply filter_In in Hf. destruct Hf as [Hf Hne].
  apply negb_true_iff in Hne.
  apply strip_clean; [exact Hne|]. eapply split_on_no_sep; eauto.
Qed.

(** X3: every file name and every prerequisite identifier returned by the parser
    is non-empty, contains no comma, and neither begins nor ends with
    whitespace. *)
Theorem parse_lists_are_clean (content : string) (ts : list TaskData) :
  _parse_tasks_markdown content = Some ts ->
  Forall (fun d => Forall clean_item (data_files d) /\
                   Forall clean_item (data_dependencies d)) ts.
Proof.
  unfold _parse_tasks_markdown. apply parsed_Forall; simpl.
  - intros i p _. split; constructor.
  - intros v d H. exact H.
  - intros v d H. exact H.
  - intros v d [_ H]. split; [apply comma_items_clean|exact H].
  - intros v d [H _]. split; [exact H|apply comma_items_clean].
Qed.

Lemma parse_lists_are_clean_witness :
  _parse_tasks_markdown sample_tasks_md = Some sample_parsed /\
  Forall (fun d => Forall clean_item (data_files d) /\
                   Forall clean_item (data_dependencies d)) sample_parsed.
Proof.
  split; [reflexivity|].
  apply (parse_lists_are_clean sample_tasks_md). reflexivity.
Defined.

(** *** Lines without a marker *)

Lemma parse_line_unmarked (st : ParseState) (line : string) :
  is_marked line = false -> parse_line st line = Some st.
Proof.
  unfold is_marked. rewrite !orb_false_iff.
  intros [[[[H1 H2] H3] H4] H5]. unfold parse_line.
  rewrite H1, H2, H3, H4, H5.
  destruct (snd st); [|reflexivity].
  destruct (negb (is_empty (strip line))); reflexivity.
Qed.

Lemma parse_lines_filter_marked (lines : list string) (st : ParseState) :
  parse_lines (filter is_marked lines) st = parse_lines lines st.
Proof.
  revert st. induction lines as [|line r IH]; simpl; intros st; [reflexivity|].
  destruct (is_marked line) eqn:E; simpl.
  - destruct (parse_line st line); [apply IH|reflexivity].
  - rewrite (parse_line_unmarked st line E). apply IH.
Qed.

(** X4: only the lines that start with one of the five markers are read: the
    other lines (blank lines, notes, other headings) can be deleted without
    changing the result. *)
Theorem parse_ignores_unmarked_lines (lines : list string) :
  parse_document (filter is_marked lines) = parse_document lines.
Proof.
  unfold parse_document. now rewrite parse_lines_filter_marked.
Qed.

(** ** Loading the graph *)

Lemma dict_get_set {V : Type} (key : V -> string) (k : string) (v : V)
  (d : list V) :
  dict_get key k (dict_set key v d) =
  if String.eqb (key v) k then Some v else dict_get key k d.
Proof.
  unfold dict_get. induction d as [|x r IH]; simpl.
  - destruct (String.eqb (key v) k); reflexivity.
  - destruct (String.eqb_spec (key x) (key v)) as [E|NE]; simpl.
    + rewrite E. destruct (String.eqb (key v) k); reflexivity.
    + rewrite IH.
      destruct (String.eqb_spec (key x) k) as [E1|_]; [|reflexivity].
      destruct (String.eqb_spec (key v) k) as [E2|_]; [congruence|reflexivity].
Qed.

Lemma load_tasks_lookup (parsed : list TaskData) (o : Orchestrator)
  (k : string) :
  get_task k (load_tasks_from_spec parsed o) =
  match last_entry k parsed with
  | Some d => Some (new_task d)
  | None => get_task k o
  end.
Proof.
  unfold load_tasks_from_spec. revert o.
  induction parsed as [|d l IH]; simpl; intros o; [reflexivity|].
  rewrite IH. destruct (last_entry k l); [reflexivity|].
  unfold get_task. cbn [tasks]. rewrite dict_get_set.
  cbn [new_task Task.id]. destruct (String.eqb (data_id d) k); reflexivity.
Qed.

Lemma load_tasks_agents (parsed : list TaskData) (o : Orchestrator) :
  agents (load_tasks_from_spec parsed o) = agents o.
Proof.
  unfold load_tasks_from_spec. revert o.
  induction parsed as [|d l IH]; simpl; intros o; [reflexivity|].
  now rewrite IH.
Qed.

Lemma initialize_agents_lookup (root : string) (configs : list AgentConfig)
  (o : Orchestrator) (k : string) :
  get_agent k (initialize_agents root configs o) =
  match last_config k configs with
  | Some c => Some (new_agent root c)
  | None => get_agent k o
  end.
Proof.
  unfold initialize_agents. revert o.
  induction configs as [|c l IH]; simpl; intros o; [reflexivity|].
  rewrite IH. destruct (last_config k l); [reflexivity|].
  unfold get_agent. cbn [agents]. rewrite dict_get_set.
  cbn [new_agent AuggieAgent.id].
  destruct (String.eqb (config_id c) k); reflexivity.
Qed.

(** X5: when an identifier is given twice, the later entry replaces the earlier
    one: under each identifier the stores hold the object built from the last
    entry with that identifier, and nothing under the other identifiers. *)
Theorem stores_hold_the_last_entry (root : string)
  (configs : list AgentConfig) (parsed : list TaskData) (k : string) :
  let o := load_tasks_from_spec parsed
             (initialize_agents root configs new_orchestrator) in
  get_task k o = option_map new_task (last_entry k parsed) /\
  get_agent k o = option_map (new_agent root) (last_config k configs).
Proof.
  cbv zeta. split.
  - rewrite load_tasks_lookup. destruct (last_entry k parsed); [reflexivity|].
    unfold initialize_agents.
    assert (H : forall l o, tasks (fold_left
                (fun o config =>
                   mkOrch (dict_set AuggieAgent.id (new_agent root config)
                                    (agents o)) (tasks o)) l o) = tasks o).
    { induction l as [|c l IH]; simpl; intros o; [reflexivity|].
      now rewrite IH. }
    unfold get_task. rewrite H. reflexivity.
  - unfold get_agent. rewrite load_tasks_agents.
    fold (get_agent k (initialize_agents root configs new_orchestrator)).
    rewrite initialize_agents_lookup.
    destruct (last_config k configs); reflexivity.
Qed.


(** ** Induction on the runs *)

Lemma run_snoc (ls : list Label) (l : Label) (c : Config) :
  run (ls ++ [l])%list c =
  match run ls c with
  | Some c1 => step l c1
  | None => None
  end.
Proof.
  revert c. induction ls as [|x ls IH]; simpl; intros c.
  - destruct (step l c); reflexivity.
  - destruct (step x c); [apply IH|reflexivity].
Qed.

Lemma reachable_step o c l c' :
  reachable_from o c -> step l c = Some c' -> reachable_from o c'.
Proof.
  intros [ls Hrun] Hs. exists (ls ++ [l])%list. now rewrite run_snoc, Hrun.
Qed.

Lemma reachable_run o c ls c' :
  reachable_from o c -> run ls c = Some c' -> reachable_from o c'.
Proof.
  revert c. induction ls as [|l ls IH]; simpl; intros c Hr H.
  - now injection H as <-.
  - destruct (step l c) as [c1|] eqn:E; [|discriminate].
    apply (IH c1); [|exact H]. eapply reachable_step; eauto.
Qed.

(** Induction on the states of the runs from [o]. *)
Lemma reachable_induction o (P : Config -> Prop) :
  P (start o) ->
  (forall c l c', reachable_from o c -> P c -> step l c = Some c' -> P c') ->
  forall c, reachable_from o c -> P c.
Proof.
  intros H0 Hstep c [ls Hrun]. revert c Hrun.
  induction ls as [|l ls IH] using rev_ind; intros c Hrun.
  - simpl in Hrun. now injection Hrun as <-.
  - rewrite run_snoc in Hrun.
    destruct (run ls (start o)) as [c1|] eqn:E; [|discriminate].
    apply (Hstep c1 l c); [exists ls; exact E|now apply IH|exact Hrun].
Qed.

(** ** The task stored under a key after an execution *)

Lemma same_but_outcome_refl t : same_but_outcome t t.
Proof. repeat split. Qed.

(** The task stored under [k] after the first part of [execute_task]. *)
Lemma get_task_begin agent task o k :
  get_task k (begin_execution agent task o) =
  option_map (fun t => if String.eqb (Task.id t) (Task.id task)
                       then Task.set_status IN_PROGRESS t else t)
             (get_task k o).
Proof.
  unfold begin_execution.
  now rewrite get_task_update_agent, get_task_update_task by reflexivity.
Qed.

(** The task stored under [k] after the second part of [execute_task]. *)
Lemma get_task_resume agent task aw m o k :
  get_task k (state_of (resume_execution agent task aw m o)) =
  option_map (fun t => if String.eqb (Task.id t) (Task.id task)
                       then task_outcome agent aw m t else t)
             (get_task k o).
Proof.
  unfold resume_execution, state_of, finally_clause, except_clause,
    task_outcome.
  destruct aw as [[rc|]|]; [destruct (rc =? 0)%Z; [destruct m|]| |];
    cbn [fst]; rewrite get_task_update_agent;
    repeat (rewrite get_task_update_task by reflexivity);
    destruct (get_task k o) as [t|]; cbn [option_map]; try reflexivity;
    cbn [Task.id Task.set_status Task.set_output_path];
    destruct (String.eqb (Task.id t) (Task.id task)) eqn:E;
    cbn [Task.id Task.set_status Task.set_output_path];
    rewrite ?E; reflexivity.
Qed.

Lemma task_outcome_same agent aw m t :
  same_but_outcome t (task_outcome agent aw m t).
Proof.
  unfold task_outcome.
  destruct aw as [[rc|]|]; [destruct (rc =? 0)%Z; [destruct m|]| |];
    repeat split.
Qed.

Lemma task_outcome_status agent aw m t :
  match aw with
  | CancelledError => task_outcome agent aw m t = t
  | Answer _ => Task.status (task_outcome agent aw m t) = COMPLETED \/
                Task.status (task_outcome agent aw m t) = FAILED
  end.
Proof.
  unfold task_outcome.
  destruct aw as [[rc|]|]; [destruct (rc =? 0)%Z; [destruct m|]| |];
    simpl; auto.
Qed.

(** ** The loop never fails *)

Lemma after_assign_not_crashed o : held_ok o -> after_assign o <> Crashed.
Proof.
  intros [_ [H1 _]].
  destruct (collect_active_defined o (agents o)) as [act A].
  { intros a Ha Ht. destruct (H1 a Ha Ht) as [k [Hk Hs]]. exists k.
    split; [exact Hk|]. unfold task_status in Hs.
    destruct (get_task k o); [discriminate|discriminate Hs]. }
  unfold after_assign, active_tasks. rewrite A.
  destruct act; discriminate.
Qed.

Lemma not_crashed_step l c c' :
  exec_inv c -> step l c = Some c' -> phase c' <> Crashed.
Proof.
  intros [Hwf Hph] Hs. apply step_Step in Hs.
  destruct Hs; cbn [orch phase] in *; try discriminate.
  - apply after_assign_not_crashed, assign_tasks_held_ok.
    now apply all_idle_held_ok.
  - unfold after_check. destruct (remaining_tasks o); discriminate.
Qed.

(** X7: in a run from an initial state the lookup [self.tasks[agent.current_task]]
    of line 296 never raises [KeyError]: an agent's current task is always a
    key of the graph. *)
Theorem orchestrate_never_raises_KeyError o c :
  initial o -> reachable_from o c -> phase c <> Crashed.
Proof.
  intros Hinit Hreach.
  apply (reachable_induction o (fun c => phase c <> Crashed));
    [discriminate| |exact Hreach].
  intros c1 l c2 Hr _ Hs.
  apply (not_crashed_step l c1 c2); [|exact Hs].
  now apply (reachable_exec_inv o).
Qed.

Lemma orchestrate_never_raises_KeyError_witness :
  initial one_pair /\ reachable_from one_pair one_pair_started /\
  phase one_pair_started <> Crashed.
Proof.
  assert (Hr : reachable_from one_pair one_pair_started)
    by (exists [LAssign; LStart 0]; reflexivity).
  split; [exact one_pair_initial|]. split; [exact Hr|].
  exact (orchestrate_never_raises_KeyError one_pair one_pair_started
           one_pair_initial Hr).
Defined.

(** ** The statuses of a task along a run *)

Lemma task_status_resume_same agent task r m o s :
  task_status (Task.id task) o = Some s ->
  task_status (Task.id task)
    (state_of (resume_execution agent task (Answer r) m o)) = Some COMPLETED \/
  task_status (Task.id task)
    (state_of (resume_execution agent task (Answer r) m o)) = Some FAILED.
Proof.
  unfold task_status. rewrite get_task_resume.
  destruct (get_task (Task.id task) o) as [t|] eqn:G; [|discriminate].
  intros _. cbn [option_map]. rewrite (get_task_id _ _ _ G), String.eqb_refl.
  destruct (task_outcome_status agent (Answer r) m t) as [E|E]; rewrite E;
    auto.
Qed.

Lemma step_advances c l c' k s :
  exec_inv c -> step l c = Some c' ->
  task_status k (orch c) = Some s ->
  exists s', task_status k (orch c') = Some s' /\ advances s s'.
Proof.
  intros [Hwf Hph] Hs Hk.
  apply step_Step in Hs. destruct Hs; cbn [orch phase] in *.
  - (* assign *)
    pose proof (assign_tasks_advance o (proj2 Hwf)) as Hadv.
    unfold task_status in Hk.
    destruct (get_task k o) as [t|] eqn:G; [|discriminate].
    injection Hk as <-.
    destruct (get_task_advance o _ k t Hadv G) as [t' [G' [_ HR]]].
    exists (Task.status t'). unfold task_status. rewrite G'.
    split; [reflexivity|].
    destruct HR as [E|[E1 [E2 _]]]; [left; exact E|right; left; auto].
  - (* start *)
    destruct Hph as [_ [Htodo _]].
    destruct (String.eqb_spec (Task.id task) k) as [<-|NE].
    + pose proof (Htodo (agent, task) (nth_error_In _ _ H)) as Ha.
      unfold exec_task_id in Ha. cbn [snd] in Ha.
      exists IN_PROGRESS. split.
      * now apply (task_status_begin_same agent task o ASSIGNED).
      * assert (s = ASSIGNED) by congruence. subst s. right. right. left. auto.
    + exists s. split; [now rewrite task_status_begin_other|left; reflexivity].
  - (* finish *)
    destruct Hph as [_ [_ [Hlive _]]].
    destruct (String.eqb_spec (Task.id task) k) as [<-|NE].
    + pose proof (Hlive (agent, task) (nth_error_In _ _ H)) as Ha.
      unfold exec_task_id in Ha. cbn [snd] in Ha.
      assert (s = IN_PROGRESS) by congruence. subst s.
      destruct (task_status_resume_same agent task r m o IN_PROGRESS Ha)
        as [E|E]; eexists; (split; [exact E|]); right; right; right; auto.
    + exists s. split; [now rewrite task_status_resume_other|left; reflexivity].
  - exists s. split; [exact Hk|left; reflexivity].
  - exists s. split; [exact Hk|left; reflexivity].
  - exists s. split; [exact Hk|left; reflexivity].
  - exists s. split; [exact Hk|left; reflexivity].
Qed.



Lemma task_status_keys o o' k :
  same_keys o o' -> task_status k o <> None -> task_status k o' <> None.
Proof.
  intros [_ E]. unfold task_status, get_task, dict_get.
  intros H H'.
  destruct (find (fun v => String.eqb (Task.id v) k) (tasks o)) as [t|] eqn:F;
    [|now apply H].
  apply find_some in F. destruct F as [Hin Hid]. apply String.eqb_eq in Hid.
  assert (Hk : In k (keys Task.id (tasks o')))
    by (rewrite E, <- Hid; now apply in_map).
  unfold keys in Hk. apply in_map_iff in Hk. destruct Hk as [t' [Hid' Hin']].
  destruct (find (fun v => String.eqb (Task.id v) k) (tasks o')) eqn:F';
    [discriminate H'|].
  pose proof (find_none _ _ F' t' Hin') as Hn. cbv beta in Hn.
  rewrite Hid', String.eqb_refl in Hn. discriminate.
Qed.



(** X10: no task ever has the status blocked: [TaskStatus.BLOCKED] is declared
    and never assigned. *)
Theorem no_task_is_ever_blocked o c k :
  initial o -> reachable_from o c -> task_status k (orch c) <> Some BLOCKED.
Proof.
  intros Hinit Hreach. revert k.
  apply (reachable_induction o
           (fun c => forall k, task_status k (orch c) <> Some BLOCKED));
    [| |exact Hreach].
  - intros k E. unfold task_status, start in E. cbn [orch] in E.
    destruct (get_task k o) as [t|] eqn:G; [|discriminate].
    apply dict_get_Some in G. destruct G as [Hin _].
    destruct Hinit as [_ [_ Hft]]. rewrite Forall_forall in Hft.
    destruct (Hft t Hin) as [Hp _]. simpl in E. congruence.
  - intros c1 l c2 Hr IH Hs k E.
    destruct (task_status k (orch c1)) as [s|] eqn:K.
    + destruct (step_advances c1 l c2 k s
                  (reachable_exec_inv o c1 Hinit Hr) Hs K)
        as [s' [Hk' Hadv]].
      assert (s' = BLOCKED) by congruence. subst s'.
      destruct Hadv as [E1|[[_ E1]|[[_ E1]|[_ [E1|E1]]]]]; try discriminate.
      apply (IH k). congruence.
    + apply (task_status_keys (orch c2) (orch c1) k).
      * destruct (step_same_keys _ _ _ Hs) as [A B]. split; congruence.
      * congruence.
      * exact K.
Qed.

Lemma no_task_is_ever_blocked_witness :
  initial one_pair /\ reachable_from one_pair one_pair_started /\
  task_status "T1" (orch one_pair_started) <> Some BLOCKED.
Proof.
  assert (Hr : reachable_from one_pair one_pair_started)
    by (exists [LAssign; LStart 0]; reflexivity).
  split; [exact one_pair_initial|]. split; [exact Hr|].
  exact (no_task_is_ever_blocked one_pair one_pair_started "T1"
           one_pair_initial Hr).
Defined.

(** ** Agents at the head of the loop *)

Lemma reachable_same_keys o c : reachable_from o c -> same_keys o (orch c).
Proof.
  apply (reachable_induction o (fun c => same_keys o (orch c))).
  - apply same_keys_refl.
  - intros c1 l c2 _ IH Hs. eapply same_keys_trans; [exact IH|].
    eapply step_same_keys; eauto.
Qed.

Lemma assign_one_holds_known_tasks o tid :
  holds_known_tasks o -> holds_known_tasks (assign_one o tid).
Proof.
  intros H a' k Ha' Hk.
  destruct (assign_one_same_keys o tid) as [_ Ek]. rewrite Ek.
  revert Ha' Hk. unfold assign_one.
  destruct (get_task tid o) as [task|] eqn:G; [|apply H].
  destruct (_find_best_agent_for_task o task) as [best|]; [|apply H].
  destruct (_can_assign_task o task); [|apply H].
  intros Ha' Hk. apply In_agents_update_agent in Ha'; [|reflexivity].
  destruct Ha' as [a [Ha [_ [[_ ->]|[_ ->]]]]].
  - simpl in Hk. injection Hk as <-.
    apply dict_get_Some in G. destruct G as [Hin <-].
    unfold keys. now apply in_map.
  - now apply (H a).
Qed.

Lemma holds_known_tasks_step l c c' :
  holds_known_tasks (orch c) -> step l c = Some c' ->
  holds_known_tasks (orch c').
Proof.
  intros H Hs.
  destruct (step_same_keys _ _ _ Hs) as [_ Ek].
  apply step_Step in Hs. destruct Hs; cbn [orch] in *; auto.
  - unfold assign_tasks. apply fold_assign_one_preserves; [|exact H].
    intros o1 tid. apply assign_one_holds_known_tasks.
  - intros a' k Ha' Hk. rewrite Ek.
    destruct (In_agents_begin _ _ _ _ Ha') as [a [Ha [_ Hct]]].
    apply (H a k Ha). congruence.
  - intros a' k Ha' Hk. rewrite Ek.
    rewrite agents_resume_execution in Ha'. unfold finally_clause in Ha'.
    apply In_agents_update_agent in Ha'; [|reflexivity].
    destruct Ha' as [a [Ha [_ [[_ ->]|[_ ->]]]]]; [discriminate Hk|eauto].
  - intros a' k Ha' Hk. rewrite Ek.
    rewrite agents_resume_execution in Ha'. unfold finally_clause in Ha'.
    apply In_agents_update_agent in Ha'; [|reflexivity].
    destruct Ha' as [a [Ha [_ [[_ ->]|[_ ->]]]]]; [discriminate Hk|eauto].
Qed.

Lemma reachable_holds_known_tasks o c :
  initial o -> reachable_from o c -> holds_known_tasks (orch c).
Proof.
  intros [_ [Hag _]].
  apply (reachable_induction o (fun c => holds_known_tasks (orch c))).
  - intros a k Ha Hk. rewrite Forall_forall in Hag.
    destruct (Hag a Ha) as [_ E]. simpl in Hk. congruence.
  - intros c1 l c2 _ IH Hs. eapply holds_known_tasks_step; eauto.
Qed.

(** X11: every round gives every agent back: at the head of the loop each agent
    is idle and holds no task to run, also the agents whose coroutine was
    cancelled; when no task has the empty identifier, [current_task] is
    [None]. *)
Theorem agents_are_free_at_loop_head o c a :
  initial o -> reachable_from o c -> phase c = Assigning ->
  In a (agents (orch c)) ->
  AuggieAgent.status a = "idle" /\
  truthy (AuggieAgent.current_task a) = false /\
  (~ In EmptyString (keys Task.id (tasks o)) ->
   AuggieAgent.current_task a = None).
Proof.
  intros Hinit Hreach Hph Ha.
  destruct (reachable_exec_inv o c Hinit Hreach) as [_ Hfalsy].
  rewrite Hph in Hfalsy. specialize (Hfalsy a Ha).
  destruct (reachable_agent_inv o c Hinit Hreach) as [_ [Hw _]].
  split; [|split; [exact Hfalsy|]].
  - destruct (reachable_two_statuses o c Hinit Hreach a Ha) as [E|E];
      [exact E|].
    rewrite (Hw a Ha E) in Hfalsy. discriminate.
  - intros Hne.
    destruct (AuggieAgent.current_task a) as [k|] eqn:Hk; [|reflexivity].
    exfalso. apply Hne.
    pose proof (reachable_holds_known_tasks o c Hinit Hreach a k Ha Hk) as Hin.
    destruct (reachable_same_keys o c Hreach) as [_ E]. rewrite E in Hin.
    destruct k; [exact Hin|discriminate Hfalsy].
Qed.

Lemma agents_are_free_at_loop_head_witness :
  initial two_rounds_graph /\
  reachable_from two_rounds_graph after_first_round /\
  phase after_first_round = Assigning /\
  In frontend_agent (agents (orch after_first_round)) /\
  AuggieAgent.status frontend_agent = "idle" /\
  truthy (AuggieAgent.current_task frontend_agent) = false /\
  (~ In EmptyString (keys Task.id (tasks two_rounds_graph)) ->
   AuggieAgent.current_task frontend_agent = None).
Proof.
  assert (Hr : reachable_from two_rounds_graph after_first_round)
    by (exists first_round; reflexivity).
  assert (Hin : In frontend_agent (agents (orch after_first_round)))
    by (simpl; auto).
  split; [exact two_rounds_graph_initial|]. split; [exact Hr|].
  split; [reflexivity|]. split; [exact Hin|].
  exact (agents_are_free_at_loop_head two_rounds_graph after_first_round
           frontend_agent two_rounds_graph_initial Hr eq_refl Hin).
Defined.

(** ** Cancellation and the end of the loop *)

Lemma terminated_only_when_done l c c' k s :
  step l c = Some c' -> phase c' = Terminated ->
  task_status k (orch c') = Some s -> s = COMPLETED \/ s = FAILED.
Proof.
  intros Hs Hph Hk. unfold task_status in Hk.
  destruct (get_task k (orch c')) as [t|] eqn:G; [|discriminate].
  injection Hk as <-. apply dict_get_Some in G. destruct G as [Hin _].
  exact (terminated_all_done l c c' Hs Hph t Hin).
Qed.

(** X12: if a coroutine is still suspended when [asyncio.wait] returns, the loop
    never ends: the task of the cancelled coroutine stays in_progress, so
    the test of line 312 fails in every later round. *)
Theorem cancellation_prevents_termination o c live n :
  initial o -> reachable_from o c ->
  phase c = Waiting [] live (S n) -> live <> [] ->
  forall ls c', run (LWaitReturn :: ls) c = Some c' -> phase c' <> Terminated.
Proof.
  intros Hinit Hreach Hph Hne ls c' Hrun Hterm.
  destruct live as [|[agent task] live']; [congruence|].
  destruct (reachable_exec_inv o c Hinit Hreach) as [Hwf Hinv].
  rewrite Hph in Hinv. destruct Hinv as [_ [_ [Hlive _]]].
  pose proof (Hlive (agent, task) (or_introl eq_refl)) as Hst.
  pose proof (interrupted_stays_in_progress c _ n (Task.id task)
                (proj2 Hwf) Hph Hst ls c' Hrun) as Hlater.
  assert (Hlast : exists l c1, step l c1 = Some c').
  { clear - Hrun. revert c Hrun.
    generalize LWaitReturn as l0.
    induction ls as [|l ls IH]; intros l0 c Hrun; cbn [run] in Hrun.
    - destruct (step l0 c) as [c1|] eqn:E; [|discriminate].
      injection Hrun as <-. eauto.
    - destruct (step l0 c) as [c1|] eqn:E; [|discriminate].
      apply (IH l c1). exact Hrun. }
  destruct Hlast as [l [c1 Hs]].
  destruct (terminated_only_when_done l c1 c' _ _ Hs Hterm Hlater);
    discriminate.
Qed.

Lemma cancellation_prevents_termination_witness :
  initial two_rounds_graph /\
  reachable_from two_rounds_graph first_completion /\
  phase first_completion = Waiting [] first_completion_live 1 /\
  first_completion_live <> [] /\
  run [LWaitReturn; LCheck; LCancel 0; LWake] first_completion
  = Some after_first_round /\
  phase after_first_round <> Terminated.
Proof.
  assert (Hr : reachable_from two_rounds_graph first_completion)
    by (exists [LAssign; LStart 0; LStart 0; LFinish 0 (Returned 0) Merged];
        reflexivity).
  assert (Hne : first_completion_live <> []) by discriminate.
  split; [exact two_rounds_graph_initial|]. split; [exact Hr|].
  split; [reflexivity|]. split; [exact Hne|]. split; [reflexivity|].
  exact (cancellation_prevents_termination two_rounds_graph first_completion
           first_completion_live 0 two_rounds_graph_initial Hr eq_refl Hne
           [LCheck; LCancel 0; LWake] after_first_round eq_refl).
Defined.

(** ** The order of execution *)

Lemma get_task_advance_inv o0 o k t' :
  advance o0 o -> get_task k o = Some t' ->
  exists t, get_task k o0 = Some t /\ assigned_from o0 t t'.
Proof.
  intros Hadv G. unfold get_task in *.
  pose proof (Forall2_dict_get _ (assigned_from_id o0) _ _ k Hadv) as H.
  rewrite G in H.
  destruct (dict_get Task.id k (tasks o0)) as [t|]; [eauto|contradiction].
Qed.

Lemma prerequisites_done_assign o :
  NoDup (keys Task.id (tasks o)) ->
  prerequisites_done o -> prerequisites_done (assign_tasks o).
Proof.
  intros Hnd H k t' G Hne d s Hd Hs.
  pose proof (assign_tasks_advance o Hnd) as Hadv.
  destruct (get_task_advance_inv o _ k t' Hadv G) as [t [G0 [Hst HR]]].
  unfold task_status in Hs.
  destruct (get_task d (assign_tasks o)) as [dt'|] eqn:Gd; [|discriminate].
  injection Hs as <-.
  destruct (get_task_advance_inv o _ d dt' Hadv Gd) as [dt [Gd0 [_ HRd]]].
  destruct Hst as [_ [_ [Hdeps _]]]. rewrite Hdeps in Hd.
  assert (Hc : Task.status dt = COMPLETED).
  { destruct HR as [E|[_ [_ C]]].
    - assert (Hold : Task.status t <> PENDING) by congruence.
      apply (H k t G0 Hold d); [exact Hd|].
      unfold task_status. now rewrite Gd0.
    - apply can_assign_task_spec in C. destruct C as [C _].
      rewrite deps_met_spec in C. now apply (C d dt). }
  destruct HRd as [E|[E _]]; congruence.
Qed.

(** An execution that rewrites the task stored under [x], whose status is
    neither pending nor completed, keeps [prerequisites_done]. *)
Lemma prerequisites_done_frame o o' x g sx :
  (forall k, get_task k o' =
             option_map (fun t => if String.eqb (Task.id t) x then g t else t)
                        (get_task k o)) ->
  (forall t, Task.dependencies (g t) = Task.dependencies t) ->
  task_status x o = Some sx -> sx <> PENDING -> sx <> COMPLETED ->
  prerequisites_done o -> prerequisites_done o'.
Proof.
  intros Hget Hdeps Hx Hx1 Hx2 H k t' G Hne d s Hd Hs.
  rewrite Hget in G.
  destruct (get_task k o) as [t|] eqn:G0; [|discriminate].
  cbn [option_map] in G. injection G as <-.
  unfold task_status in Hs. rewrite Hget in Hs.
  destruct (get_task d o) as [dt|] eqn:Gd; [|discriminate].
  cbn [option_map] in Hs. injection Hs as <-.
  assert (Hold : Task.status t <> PENDING).
  { destruct (String.eqb_spec (Task.id t) x) as [E|_]; [|exact Hne].
    unfold task_status in Hx. rewrite <- E, (get_task_id _ _ _ G0), G0 in Hx.
    simpl in Hx. congruence. }
  assert (Hd' : In d (Task.dependencies t)).
  { destruct (String.eqb (Task.id t) x); [now rewrite Hdeps in Hd|exact Hd]. }
  assert (Hc : Task.status dt = COMPLETED).
  { apply (H k t G0 Hold d); [exact Hd'|]. unfold task_status. now rewrite Gd. }
  destruct (String.eqb_spec (Task.id dt) x) as [E|_]; [|exact Hc].
  unfold task_status in Hx. rewrite <- E, (get_task_id _ _ _ Gd), Gd in Hx.
  simpl in Hx. congruence.
Qed.

Lemma reachable_prerequisites_done o0 c :
  initial o0 -> reachable_from o0 c -> prerequisites_done (orch c).
Proof.
  intros Hinit.
  apply (reachable_induction o0 (fun c => prerequisites_done (orch c))).
  - intros k t G Hne. exfalso. apply Hne.
    apply dict_get_Some in G. destruct G as [Hin _].
    destruct Hinit as [_ [_ Hft]]. rewrite Forall_forall in Hft.
    now destruct (Hft t Hin).
  - intros c1 l c2 Hreach IH Hs.
    destruct (reachable_exec_inv o0 c1 Hinit Hreach) as [Hwf Hph].
    apply step_Step in Hs. destruct Hs; cbn [orch phase] in *; auto.
    + apply prerequisites_done_assign; [apply Hwf|exact IH].
    + destruct Hph as [_ [Htodo _]].
      pose proof (Htodo (agent, task) (nth_error_In _ _ H)) as Ha.
      apply (prerequisites_done_frame o _ (Task.id task)
               (Task.set_status IN_PROGRESS) ASSIGNED);
        auto; try discriminate.
      intros k. apply get_task_begin.
    + destruct Hph as [_ [_ [Hlive _]]].
      pose proof (Hlive (agent, task) (nth_error_In _ _ H)) as Ha.
      apply (prerequisites_done_frame o _ (Task.id task)
               (task_outcome agent (Answer r) m) IN_PROGRESS);
        auto; try discriminate.
      * intros k. apply get_task_resume.
      * intros t. apply (task_outcome_same agent (Answer r) m t).
Qed.

(** X13: executions respect the prerequisites: at every point of every run, a
    task that is assigned, in progress, completed or failed has every
    prerequisite that resolves to a task of the graph completed. *)
Theorem prerequisites_are_completed_first o c t :
  initial o -> reachable_from o c ->
  In t (tasks (orch c)) -> Task.status t <> PENDING ->
  forall d dt, In d (Task.dependencies t) ->
               get_task d (orch c) = Some dt ->
               Task.status dt = COMPLETED.
Proof.
  intros Hinit Hreach Hin Hne d dt Hd Gd.
  pose proof (reachable_wf o c Hinit Hreach) as [_ Hnd].
  assert (G : get_task (Task.id t) (orch c) = Some t)
    by now apply dict_get_In.
  apply (reachable_prerequisites_done o c Hinit Hreach (Task.id t) t G Hne d);
    [exact Hd|].
  unfold task_status. now rewrite Gd.
Qed.

Lemma prerequisites_are_completed_first_witness :
  initial two_rounds_graph /\
  reachable_from two_rounds_graph second_assign /\
  In late_task_assigned (tasks (orch second_assign)) /\
  Task.status late_task_assigned <> PENDING /\
  In "C" (Task.dependencies late_task_assigned) /\
  get_task "C" (orch second_assign) = Some db_task_done /\
  Task.status db_task_done = COMPLETED.
Proof.
  assert (Hr : reachable_from two_rounds_graph second_assign)
    by (exists (first_round ++ [LAssign])%list; reflexivity).
  assert (Hin : In late_task_assigned (tasks (orch second_assign)))
    by (simpl; auto).
  assert (Hne : Task.status late_task_assigned <> PENDING) by discriminate.
  assert (Hd : In "C" (Task.dependencies late_task_assigned))
    by (simpl; auto).
  split; [exact two_rounds_graph_initial|]. split; [exact Hr|].
  split; [exact Hin|]. split; [exact Hne|]. split; [exact Hd|].
  split; [reflexivity|].
  exact (prerequisites_are_completed_first two_rounds_graph second_assign
           late_task_assigned two_rounds_graph_initial Hr Hin Hne
           "C" db_task_done Hd eq_refl).
Defined.

(** ** What one execution writes *)

Lemma get_agent_begin agent task o k :
  get_agent k (begin_execution agent task o) =
  option_map (fun a => if String.eqb (AuggieAgent.id a) (AuggieAgent.id agent)
                       then AuggieAgent.set_status "working" a else a)
             (get_agent k o).
Proof.
  unfold begin_execution.
  now rewrite get_agent_update_agent, get_agent_update_task by reflexivity.
Qed.

Lemma get_agent_resume agent task aw m o k :
  get_agent k (state_of (resume_execution agent task aw m o)) =
  option_map (fun a => if String.eqb (AuggieAgent.id a) (AuggieAgent.id agent)
                       then AuggieAgent.set_current_task None
                              (AuggieAgent.set_status "idle" a)
                       else a)
             (get_agent k o).
Proof.
  unfold get_agent at 1. rewrite agents_resume_execution.
  unfold finally_clause.
  now rewrite <- (get_agent_update_agent k) by reflexivity.
Qed.

(** X14: one call of [execute_task], however it ends, writes two records at
    most: the task stored under the identifier of its task, of which it
    changes the status and the output path only, and the agent stored under
    the identifier of its agent, of which it changes the status and the
    current task only.  Every other task and agent, and the keys of the two
    stores, are as before the call. *)
Theorem execute_task_writes_two_records agent task aw m o :
  let o' := state_of (execute_task agent task aw m o) in
  same_keys o o' /\
  (forall k, k <> Task.id task -> get_task k o' = get_task k o) /\
  (forall k, k <> AuggieAgent.id agent -> get_agent k o' = get_agent k o) /\
  (forall t, get_task (Task.id task) o = Some t ->
             exists t', get_task (Task.id task) o' = Some t' /\
                        same_but_outcome t t') /\
  (forall a, get_agent (AuggieAgent.id agent) o = Some a ->
             exists a', get_agent (AuggieAgent.id agent) o' = Some a' /\
                        same_but_activity a a').
Proof.
  cbv zeta. unfold execute_task. split; [|split; [|split; [|split]]].
  - eapply same_keys_trans;
      [apply begin_execution_same_keys|apply resume_execution_same_keys].
  - intros k Hk. rewrite get_task_resume, get_task_begin.
    destruct (get_task k o) as [t|] eqn:G; [|reflexivity].
    apply get_task_id in G. cbn [option_map].
    destruct (String.eqb_spec (Task.id t) (Task.id task)) as [E|_];
      [congruence|].
    destruct (String.eqb_spec (Task.id t) (Task.id task)) as [E|_];
      [congruence|reflexivity].
  - intros k Hk. rewrite get_agent_resume, get_agent_begin.
    destruct (get_agent k o) as [a|] eqn:G; [|reflexivity].
    apply get_agent_id in G. cbn [option_map].
    destruct (String.eqb_spec (AuggieAgent.id a) (AuggieAgent.id agent))
      as [E|_]; [congruence|].
    destruct (String.eqb_spec (AuggieAgent.id a) (AuggieAgent.id agent))
      as [E|_]; [congruence|reflexivity].
  - intros t G. rewrite get_task_resume, get_task_begin, G.
    cbn [option_map]. eexists. split; [reflexivity|].
    pose proof (get_task_id _ _ _ G) as E. rewrite E, String.eqb_refl.
    cbn [Task.id Task.set_status]. rewrite E, String.eqb_refl.
    destruct (task_outcome_same agent aw m (Task.set_status IN_PROGRESS t))
      as [H1 [H2 [H3 [H4 [H5 [H6 [H7 H8]]]]]]].
    repeat split; assumption.
  - intros a G. rewrite get_agent_resume, get_agent_begin, G.
    cbn [option_map]. eexists. split; [reflexivity|].
    pose proof (get_agent_id _ _ _ G) as E. rewrite E, String.eqb_refl.
    cbn [AuggieAgent.id AuggieAgent.set_status]. rewrite E, String.eqb_refl.
    repeat split.
Qed.

(** ** The choice of the matcher *)



(** ** The record of an assignment *)

Lemma assign_one_records_consistent o tid :
  records_consistent o -> records_consistent (assign_one o tid).
Proof.
  intros H. unfold assign_one.
  destruct (get_task tid o) as [task|] eqn:G; [|exact H].
  destruct (_find_best_agent_for_task o task) as [best|] eqn:B; [|exact H].
  destruct (_can_assign_task o task); [|exact H].
  apply find_best_agent_idle in B. destruct B as [Bin _].
  intros k t Gk. rewrite get_task_update_agent in Gk.
  rewrite get_task_update_task in Gk by reflexivity.
  destruct (get_task k o) as [t0|] eqn:G0; [|discriminate].
  cbn [option_map] in Gk. injection Gk as <-.
  unfold assignment_recorded. cbn [agents update_agent].
  rewrite dict_update_keys by reflexivity. cbn [update_task agents].
  destruct (String.eqb (Task.id t0) tid).
  - simpl. split; [discriminate|]. unfold keys. now apply in_map.
  - apply (H k t0 G0).
Qed.

(** An execution that rewrites the task stored under [x], which is not
    pending, into a task that is not pending and names the same agent. *)
Lemma records_consistent_frame o o' x g sx :
  (forall k, get_task k o' =
             option_map (fun t => if String.eqb (Task.id t) x then g t else t)
                        (get_task k o)) ->
  keys AuggieAgent.id (agents o') = keys AuggieAgent.id (agents o) ->
  (forall t, Task.assigned_agent (g t) = Task.assigned_agent t) ->
  (forall t, Task.status (g t) <> PENDING) ->
  task_status x o = Some sx -> sx <> PENDING ->
  records_consistent o -> records_consistent o'.
Proof.
  intros Hget Hk Hag Hst Hx Hx1 H k t' G.
  rewrite Hget in G.
  destruct (get_task k o) as [t|] eqn:G0; [|discriminate].
  cbn [option_map] in G. injection G as <-.
  specialize (H k t G0). unfold assignment_recorded in *. rewrite Hk.
  destruct (String.eqb_spec (Task.id t) x) as [E|_]; [|exact H].
  rewrite Hag.
  unfold task_status in Hx. rewrite <- E, (get_task_id _ _ _ G0), G0 in Hx.
  simpl in Hx. injection Hx as Hx.
  destruct (Task.assigned_agent t) as [a|].
  - split; [apply Hst|apply H].
  - congruence.
Qed.

Lemma reachable_records_consistent o0 c :
  initial o0 -> reachable_from o0 c -> records_consistent (orch c).
Proof.
  intros Hinit.
  apply (reachable_induction o0 (fun c => records_consistent (orch c))).
  - intros k t G. apply dict_get_Some in G. destruct G as [Hin _].
    destruct Hinit as [_ [_ Hft]]. rewrite Forall_forall in Hft.
    destruct (Hft t Hin) as [Hs Ha]. unfold assignment_recorded.
    now rewrite Ha.
  - intros c1 l c2 Hreach IH Hs.
    destruct (reachable_exec_inv o0 c1 Hinit Hreach) as [Hwf Hph].
    apply step_Step in Hs. destruct Hs; cbn [orch phase] in *; auto.
    + unfold assign_tasks.
      apply fold_assign_one_preserves; [|exact IH].
      intros o1 tid. apply assign_one_records_consistent.
    + destruct Hph as [_ [Htodo _]].
      pose proof (Htodo (agent, task) (nth_error_In _ _ H)) as Ha.
      apply (records_consistent_frame o _ (Task.id task)
               (Task.set_status IN_PROGRESS) ASSIGNED);
        auto; try discriminate.
      * intros k. apply get_task_begin.
      * apply begin_execution_same_keys.
    + destruct Hph as [_ [_ [Hlive _]]].
      pose proof (Hlive (agent, task) (nth_error_In _ _ H)) as Ha.
      apply (records_consistent_frame o _ (Task.id task)
               (task_outcome agent (Answer r) m) IN_PROGRESS);
        auto; try discriminate.
      * intros k. apply get_task_resume.
      * apply resume_execution_same_keys.
      * intros t. apply (task_outcome_same agent (Answer r) m t).
      * intros t.
        pose proof (task_outcome_status agent (Answer r) m t) as Hst.
        cbn beta iota in Hst. destruct Hst as [-> | ->]; discriminate.
    + intros k t G. rewrite get_task_resume in G.
      destruct (get_task k o) as [t0|] eqn:G0; [|discriminate].
      cbn [option_map task_outcome] in G.
      assert (E : t = t0)
        by (destruct (String.eqb (Task.id t0) (Task.id task)); congruence).
      subst t. specialize (IH k t0 G0). unfold assignment_recorded in *.
      destruct (resume_execution_same_keys agent task CancelledError Merged o)
        as [Ek _].
      now rewrite Ek.
Qed.

(** X16: the two attributes written by an assignment agree at every point of
    every run: a pending task names no agent, and a task that is assigned,
    in progress, completed or failed names an agent of the registry. *)
Theorem assigned_agent_agrees_with_status o c t :
  initial o -> reachable_from o c -> In t (tasks (orch c)) ->
  match Task.assigned_agent t with
  | None => Task.status t = PENDING
  | Some a => Task.status t <> PENDING /\ In a (keys AuggieAgent.id (agents o))
  end.
Proof.
  intros Hinit Hreach Hin.
  pose proof (reachable_wf o c Hinit Hreach) as [_ Hnd].
  pose proof (reachable_same_keys o c Hreach) as [Ek _].
  pose proof (reachable_records_consistent o c Hinit Hreach (Task.id t) t) as H.
  unfold assignment_recorded in H. rewrite Ek in H. apply H.
  now apply dict_get_In.
Qed.

Lemma assigned_agent_agrees_with_status_witness :
  initial two_rounds_graph /\
  reachable_from two_rounds_graph second_assign /\
  In late_task_assigned (tasks (orch second_assign)) /\
  Task.status late_task_assigned <> PENDING /\
  In "backend" (keys AuggieAgent.id (agents two_rounds_graph)).
Proof.
  assert (Hr : reachable_from two_rounds_graph second_assign)
    by (exists (first_round ++ [LAssign])%list; reflexivity).
  assert (Hin : In late_task_assigned (tasks (orch second_assign)))
    by (simpl; auto).
  split; [exact two_rounds_graph_initial|]. split; [exact Hr|].
  split; [exact Hin|].
  exact (assigned_agent_agrees_with_status two_rounds_graph second_assign
           late_task_assigned two_rounds_graph_initial Hr Hin).
Defined.

(** ** The coroutines of a round *)

Lemma assign_one_held_names_holder o tid :
  (forall x, In x (tasks o) -> Task.id x = tid -> Task.status x = PENDING) ->
  held_ok o /\ held_names_holder o ->
  held_ok (assign_one o tid) /\ held_names_holder (assign_one o tid).
Proof.
  intros Hp [Hok H]. split; [now apply assign_one_held_ok|].
  unfold assign_one.
  destruct (get_task tid o) as [task|] eqn:G; [|exact H].
  destruct (_find_best_agent_for_task o task) as [best|] eqn:B; [|exact H].
  destruct (_can_assign_task o task); [|exact H].
  intros a' k t Ha' Ht Hk Gk.
  rewrite get_task_update_agent in Gk.
  rewrite get_task_update_task in Gk by reflexivity.
  destruct (get_task k o) as [t0|] eqn:G0; [|discriminate].
  cbn [option_map] in Gk. injection Gk as <-.
  apply In_agents_update_agent in Ha'; [|reflexivity].
  cbn [agents update_task] in Ha'.
  destruct Ha' as [a [Ha [Hid [[Hb ->]|[Hb ->]]]]].
  - cbn [AuggieAgent.current_task AuggieAgent.set_current_task] in Hk.
    injection Hk as <-.
    rewrite (get_task_id _ _ _ G0), String.eqb_refl. simpl. now rewrite Hb.
  - destruct (String.eqb_spec (Task.id t0) tid) as [E|_];
      [|now apply (H a k t0)].
    exfalso. destruct Hok as [_ [H1 _]].
    destruct (H1 a Ha Ht) as [k' [Hk' Hs]].
    rewrite Hk in Hk'. injection Hk' as <-.
    unfold task_status in Hs. rewrite G0 in Hs. simpl in Hs.
    apply dict_get_Some in G0. destruct G0 as [Hin _].
    specialize (Hp t0 Hin E). congruence.
Qed.

Lemma assign_tasks_held_names_holder o :
  held_ok o -> held_names_holder o -> held_names_holder (assign_tasks o).
Proof.
  intros Hok H.
  apply (assign_tasks_inv (fun o1 => held_ok o1 /\ held_names_holder o1) o).
  - apply Hok.
  - intros o1 tid. apply assign_one_held_names_holder.
  - split; assumption.
Qed.

Lemma collect_active_agents_NoDup o l act :
  NoDup (keys AuggieAgent.id l) -> collect_active o l = Some act ->
  NoDup (map exec_agent_id act).
Proof.
  revert act. induction l as [|a r IH]; simpl; intros act Hnd H.
  - injection H as <-. constructor.
  - inversion Hnd as [|? ? Hnotin Hnd']; subst.
    destruct (truthy (AuggieAgent.current_task a)); [|now apply IH].
    destruct (AuggieAgent.current_task a) as [k|]; [|now apply IH].
    destruct (get_task k o) as [t|]; [|discriminate].
    destruct (collect_active o r) as [rest|] eqn:R; [|discriminate].
    destruct (TaskStatus_eqb (Task.status t) ASSIGNED);
      injection H as <-; [|now apply IH].
    simpl. constructor; [|now apply IH].
    intros Hin. apply Hnotin. apply in_map_iff in Hin.
    destruct Hin as [[b tb] [Hid Hb]].
    destruct (collect_active_In o r rest b tb R Hb) as [Hbr _].
    unfold exec_agent_id in Hid. simpl in Hid. rewrite <- Hid.
    unfold keys. now apply in_map.
Qed.

Lemma coroutine_inv_assign o :
  wf o -> held_names_holder o -> coroutine_inv (mkConfig o (after_assign o)).
Proof.
  intros [Hna _] H. unfold coroutine_inv, after_assign, active_tasks.
  cbn [orch phase].
  destruct (collect_active o (agents o)) as [act|] eqn:A;
    [|split; [constructor|intros e []]].
  assert (Hact : NoDup (map exec_agent_id act) /\
                 forall e, In e act ->
                   In (exec_agent_id e) (keys AuggieAgent.id (agents o)) /\
                   runs_on_assigned_agent o e).
  { split; [now apply (collect_active_agents_NoDup o (agents o))|].
    intros [a t] Hin.
    destruct (collect_active_In o (agents o) act a t A Hin)
      as [Ha [Ht [k [Hk [G _]]]]].
    split; [unfold keys, exec_agent_id; now apply in_map|].
    exists t. unfold exec_task_id, exec_agent_id. cbn [fst snd].
    rewrite (get_task_id _ _ _ G). split; [exact G|].
    now apply (H a k t). }
  destruct act as [|e act]; [split; [constructor|intros e []]|].
  cbn [coroutines]. rewrite app_nil_r. exact Hact.
Qed.

(** Past the assign phase, a step adds no coroutine. *)
Lemma coroutines_step l c c' :
  step l c = Some c' -> phase c <> Assigning ->
  exists ended,
    Permutation (coroutines (phase c)) (ended ++ coroutines (phase c'))%list.
Proof.
  intros Hs Hph. apply step_Step in Hs.
  destruct Hs; cbn [orch phase coroutines] in *.
  - now destruct Hph.
  - exists []. simpl.
    apply Permutation_trans with ((agent, task) :: remove_nth i todo ++ live)%list.
    + apply (Permutation_app_tail live (remove_nth_perm i todo _ H)).
    + apply Permutation_middle.
  - exists [(agent, task)]. simpl. now apply remove_nth_perm.
  - exists []. apply Permutation_refl.
  - unfold after_check. destruct (remaining_tasks o).
    + exists pending. simpl. rewrite app_nil_r. apply Permutation_refl.
    + exists []. apply Permutation_refl.
  - exists [(agent, task)]. simpl. now apply remove_nth_perm.
  - exists []. apply Permutation_refl.
Qed.

(** No step past the assign phase writes the agent that a task names. *)
Lemma assigned_agent_step l c c' k t :
  step l c = Some c' -> phase c <> Assigning ->
  get_task k (orch c) = Some t ->
  exists t', get_task k (orch c') = Some t' /\
             Task.assigned_agent t' = Task.assigned_agent t.
Proof.
  intros Hs Hph G. apply step_Step in Hs.
  destruct Hs; cbn [orch phase] in *; eauto.
  - now destruct Hph.
  - rewrite get_task_begin, G. cbn [option_map]. eexists.
    split; [reflexivity|].
    now destruct (String.eqb (Task.id t) (Task.id task)).
  - rewrite get_task_resume, G. cbn [option_map]. eexists.
    split; [reflexivity|].
    destruct (String.eqb (Task.id t) (Task.id task)); [|reflexivity].
    apply (task_outcome_same agent (Answer r) m t).
Qed.

Lemma coroutine_inv_step l c c' :
  exec_inv c -> coroutine_inv c -> step l c = Some c' -> coroutine_inv c'.
Proof.
  intros Hex [Hnd Hall] Hs.
  destruct (phase c) eqn:Hph.
  1: { destruct c as [o p]. cbn [phase] in Hph. subst p.
       destruct l; try discriminate. cbn in Hs. injection Hs as <-.
       destruct Hex as [Hwf Hfalsy]. cbn [orch phase] in *.
       apply coroutine_inv_assign.
       - eapply same_keys_wf; [apply assign_tasks_same_keys|exact Hwf].
       - apply assign_tasks_held_names_holder.
         + now apply all_idle_held_ok.
         + intros a k t Ha Ht. rewrite (Hfalsy a Ha) in Ht. discriminate. }
  all: assert (Hne : phase c <> Assigning) by (rewrite Hph; discriminate);
       rewrite <- Hph in *;
       destruct (coroutines_step l c c' Hs Hne) as [ended Hperm];
       destruct (step_same_keys l c c' Hs) as [Ek _];
       (split;
        [apply (Permutation_map exec_agent_id) in Hperm;
         apply (Permutation_NoDup Hperm) in Hnd;
         rewrite map_app in Hnd; now apply NoDup_app_remove_l in Hnd
        |intros e He;
         assert (Hin : In e (coroutines (phase c)))
           by (apply (Permutation_in e (Permutation_sym Hperm));
               apply in_or_app; now right);
         destruct (Hall e Hin) as [Hk [t [G Ha]]];
         split; [now rewrite Ek|];
         destruct (assigned_agent_step l c c' _ t Hs Hne G) as [t' [G' Ha']];
         exists t'; split; [exact G'|congruence]]).
Qed.

Lemma reachable_coroutine_inv o c :
  initial o -> reachable_from o c -> coroutine_inv c.
Proof.
  intros Hinit.
  apply (reachable_induction o coroutine_inv).
  - split; [constructor|intros e []].
  - intros c1 l c2 Hreach IH Hs.
    eapply coroutine_inv_step; eauto using reachable_exec_inv.
Qed.

(** X17: at every point of every run the coroutines that have not ended belong
    to pairwise different agents: no agent runs two tasks at a time, and a
    round never has more coroutines than the registry has agents. *)
Theorem one_coroutine_per_agent o c :
  initial o -> reachable_from o c ->
  NoDup (map exec_agent_id (coroutines (phase c))) /\
  List.length (coroutines (phase c)) <= List.length (agents o).
Proof.
  intros Hinit Hreach.
  destruct (reachable_coroutine_inv o c Hinit Hreach) as [Hnd Hall].
  split; [exact Hnd|].
  pose proof (reachable_same_keys o c Hreach) as [Ek _].
  rewrite <- (List.length_map exec_agent_id).
  rewrite <- (List.length_map AuggieAgent.id (agents o)).
  apply NoDup_incl_length; [exact Hnd|].
  intros k Hk. apply in_map_iff in Hk. destruct Hk as [e [<- He]].
  destruct (Hall e He) as [Hin _]. unfold keys in *. now rewrite <- Ek.
Qed.

Lemma one_coroutine_per_agent_witness :
  initial two_rounds_graph /\
  reachable_from two_rounds_graph first_completion /\
  NoDup (map exec_agent_id (coroutines (phase first_completion))) /\
  List.length (coroutines (phase first_completion))
  <= List.length (agents two_rounds_graph).
Proof.
  assert (Hr : reachable_from two_rounds_graph first_completion)
    by (exists [LAssign; LStart 0; LStart 0; LFinish 0 (Returned 0) Merged];
        reflexivity).
  split; [exact two_rounds_graph_initial|]. split; [exact Hr|].
  exact (one_coroutine_per_agent two_rounds_graph first_completion
           two_rounds_graph_initial Hr).
Defined.

(** X18: at every point of every run, the task of a coroutine that has not
    ended is stored in the graph and names, as its assigned agent, the
    agent that runs the coroutine: a task is executed by the agent recorded
    on it. *)
Theorem task_runs_on_its_assigned_agent o c agent task :
  initial o -> reachable_from o c ->
  In (agent, task) (coroutines (phase c)) ->
  exists t, get_task (Task.id task) (orch c) = Some t /\
            Task.assigned_agent t = Some (AuggieAgent.id agent).
Proof.
  intros Hinit Hreach Hin.
  destruct (reachable_coroutine_inv o c Hinit Hreach) as [_ Hall].
  destruct (Hall (agent, task) Hin) as [_ H]. exact H.
Qed.

Lemma task_runs_on_its_assigned_agent_witness :
  initial one_pair /\ reachable_from one_pair one_pair_started /\
  In one_pair_exec (coroutines (phase one_pair_started)) /\
  exists t, get_task "T1" (orch one_pair_started) = Some t /\
            Task.assigned_agent t = Some "backend".
Proof.
  assert (Hr : reachable_from one_pair one_pair_started)
    by (exists [LAssign; LStart 0]; reflexivity).
  assert (Hin : In one_pair_exec (coroutines (phase one_pair_started)))
    by (simpl; auto).
  split; [exact one_pair_initial|]. split; [exact Hr|]. split; [exact Hin|].
  exact (task_runs_on_its_assigned_agent one_pair one_pair_started
           (fst one_pair_exec) (snd one_pair_exec) one_pair_initial Hr Hin).
Defined.

(** ** The quotes of a command *)

Lemma count_char_append c s1 s2 :
  count_char c (s1 ++ s2) = count_char c s1 + count_char c s2.
Proof. induction s1 as [|a r IH]; simpl; [reflexivity|]. rewrite IH. lia. Qed.

Lemma count_char_concat c sep l :
  count_char c sep = 0 ->
  count_char c (String.concat sep l) = list_sum (map (count_char c) l).
Proof.
  intros Hsep. induction l as [|x r IH]; [reflexivity|].
  destruct r as [|y r].
  - simpl. lia.
  - change (String.concat sep (x :: y :: r))
      with (x ++ sep ++ String.concat sep (y :: r)).
    rewrite !count_char_append, Hsep, IH. simpl. lia.
Qed.

(** X19: [_build_auggie_command] escapes nothing.  The command has two double
    quotes of its own, around the context, and every double quote of the
    agent's name and specialization and of the task's description, component
    and files is copied into it, those of the specialization and of the
    description twice: the quoted argument is one shell word only when none
    of these texts has a double quote. *)
Theorem command_copies_every_double_quote agent task :
  count_char double_quote (_build_auggie_command agent task) =
  2 + count_char double_quote (AuggieAgent.name agent)
    + 2 * count_char double_quote (AuggieAgent.specialization agent)
    + 2 * count_char double_quote (Task.description task)
    + count_char double_quote (Task.component task)
    + list_sum (map (count_char double_quote) (Task.files task)).
Proof.
  unfold _build_auggie_command, context.
  change (String double_quote ?s) with (String double_quote EmptyString ++ s).
  rewrite !count_char_append.
  rewrite (count_char_concat double_quote ", ") by reflexivity.
  change (count_char double_quote eol) with 0.
  change (count_char double_quote indent) with 0.
  simpl. lia.
Qed.

(** ** What an assign phase writes *)

Lemma assign_one_agents o tid a' :
  In a' (agents (assign_one o tid)) ->
  exists a, In a (agents o) /\ same_but_current_task a a'.
Proof.
  unfold assign_one.
  assert (Hrefl : forall a, same_but_current_task a a) by (repeat split).
  destruct (get_task tid o) as [task|]; [|eauto].
  destruct (_find_best_agent_for_task o task) as [best|]; [|eauto].
  destruct (_can_assign_task o task); [|eauto].
  intros Hin. apply In_agents_update_agent in Hin; [|reflexivity].
  destruct Hin as [a [Ha [_ [[_ ->]|[_ ->]]]]]; exists a; split; auto.
  repeat split.
Qed.

(** X20: [assign_tasks] writes pending tasks and current tasks only: the keys of
    the two stores, every task that is not pending at entry, and the
    identifier, name, specialization, working directory and status of every
    agent are as before the call. *)
Theorem assign_tasks_writes_pending_tasks_only o :
  wf o ->
  same_keys o (assign_tasks o) /\
  (forall k t, get_task k o = Some t -> Task.status t <> PENDING ->
               get_task k (assign_tasks o) = Some t) /\
  (forall a', In a' (agents (assign_tasks o)) ->
              exists a, In a (agents o) /\ same_but_current_task a a').
Proof.
  intros [_ Hnd]. split; [apply assign_tasks_same_keys|]. split.
  - intros k t G Hne.
    apply (assign_tasks_inv (fun o1 => get_task k o1 = Some t) o Hnd);
      [|exact G].
    intros o1 tid Hp G1. unfold assign_one.
    destruct (get_task tid o1) as [task|] eqn:Gt; [|exact G1].
    destruct (_find_best_agent_for_task o1 task) as [best|]; [|exact G1].
    destruct (_can_assign_task o1 task); [|exact G1].
    rewrite get_task_update_agent, get_task_update_task by reflexivity.
    rewrite G1. cbn [option_map].
    destruct (String.eqb_spec (Task.id t) tid) as [E|_]; [|reflexivity].
    exfalso. apply Hne. apply (Hp t); [|exact E].
    now apply dict_get_Some in G1.
  - unfold assign_tasks.
    apply (fold_assign_one_preserves
             (fun o1 => forall a', In a' (agents o1) ->
                exists a, In a (agents o) /\ same_but_current_task a a')).
    + intros o1 tid H a' Ha'.
      destruct (assign_one_agents o1 tid a' Ha') as [a1 [Ha1 [S1 E1]]].
      destruct (H a1 Ha1) as [a [Ha [S E]]]. exists a. split; [exact Ha|].
      destruct S as [H1 [H2 [H3 H4]]]. destruct S1 as [K1 [K2 [K3 K4]]].
      repeat split; congruence.
    + intros a' Ha'. exists a'. split; [exact Ha'|]. repeat split.
Qed.

Lemma assign_tasks_writes_pending_tasks_only_witness :
  wf busy_graph /\
  get_task "T0" busy_graph = Some running_task /\
  Task.status running_task <> PENDING /\
  get_task "T0" (assign_tasks busy_graph) = Some running_task.
Proof.
  assert (Hwf : wf busy_graph)
    by (split; simpl; repeat constructor; simpl; intuition discriminate).
  assert (Hne : Task.status running_task <> PENDING) by discriminate.
  split; [exact Hwf|]. split; [reflexivity|]. split; [exact Hne|].
  exact (proj1 (proj2 (assign_tasks_writes_pending_tasks_only busy_graph Hwf))
           "T0" running_task eq_refl Hne).
Defined.

(** X21: [assign_tasks] changes nothing when no agent is idle, and nothing when
    no task is pending. *)
Theorem assign_tasks_needs_idle_agent_and_pending_task o :
  (forall a, In a (agents o) -> AuggieAgent.status a <> "idle") \/
  (forall t, In t (tasks o) -> Task.status t <> PENDING) ->
  assign_tasks o = o.
Proof.
  intros [Hidle|Hpend]; unfold assign_tasks.
  - apply fold_assign_one_fixed. intros tid _. unfold assign_one.
    destruct (get_task tid o) as [task|]; [|reflexivity].
    assert (F : _find_best_agent_for_task o task = None).
    { apply find_best_agent_None. intros a Ha. unfold is_idle.
      apply String.eqb_neq. now apply Hidle. }
    now rewrite F.
  - unfold available_tasks.
    assert (E : filter is_pending (tasks o) = []).
    { induction (tasks o) as [|t r IH]; [reflexivity|]. simpl.
      unfold is_pending at 1.
      destruct (TaskStatus_eqb (Task.status t) PENDING) eqn:S.
      - apply TaskStatus_eqb_eq in S. exfalso.
        apply (Hpend t); simpl; auto.
      - apply IH. intros x Hx. apply Hpend. simpl. auto. }
    now rewrite E.
Qed.

Lemma assign_tasks_needs_idle_agent_and_pending_task_witness :
  (forall a, In a (agents all_working) -> AuggieAgent.status a <> "idle") /\
  assign_tasks all_working = all_working.
Proof.
  assert (H : forall a, In a (agents all_working) ->
                        AuggieAgent.status a <> "idle").
  { intros a [<-|[]]. discriminate. }
  split; [exact H|].
  exact (assign_tasks_needs_idle_agent_and_pending_task all_working
           (or_introl H)).
Defined.

(** ** The return of [orchestrate] *)

Lemma reachable_pending_in_progress o c :
  initial o -> reachable_from o c -> pending_in_progress c.
Proof.
  intros Hinit.
  apply (reachable_induction o pending_in_progress); [exact I|].
  intros c1 l c2 Hreach _ Hs.
  destruct (reachable_exec_inv o c1 Hinit Hreach) as [_ Hph].
  apply step_Step in Hs.
  destruct Hs; unfold pending_in_progress; cbn [orch phase] in *;
    try exact I.
  - unfold after_assign.
    destruct (active_tasks (assign_tasks o0)) as [[|e act]|]; try exact I.
    intros e [].
  - destruct Hph as [_ [_ [Hlive _]]]. exact Hlive.
  - unfold after_check. destruct (remaining_tasks o0); exact I.
Qed.

Lemma in_progress_remains o k :
  task_status k o = Some IN_PROGRESS -> remaining_tasks o <> [].
Proof.
  unfold task_status. intros H E.
  destruct (get_task k o) as [t|] eqn:G; [|discriminate].
  simpl in H. injection H as Hst.
  apply dict_get_Some in G. destruct G as [Hin _].
  assert (Hr : In t (remaining_tasks o)).
  { apply filter_In. split; [exact Hin|]. unfold is_remaining.
    now rewrite Hst. }
  rewrite E in Hr. destruct Hr.
Qed.

Lemma terminated_all_free o c :
  initial o -> reachable_from o c -> phase c = Terminated ->
  all_free (orch c).
Proof.
  intros Hinit Hreach. revert c Hreach.
  apply (reachable_induction o
           (fun c => phase c = Terminated -> all_free (orch c)));
    [discriminate|].
  intros c1 l c2 Hreach _ Hs Hterm.
  destruct (reachable_exec_inv o c1 Hinit Hreach) as [_ Hph].
  pose proof (reachable_pending_in_progress o c1 Hinit Hreach) as Hpend.
  destruct (reachable_agent_inv o c1 Hinit Hreach) as [_ [Hw _]].
  pose proof (reachable_two_statuses o c1 Hinit Hreach) as Htwo.
  apply step_Step in Hs.
  destruct Hs; unfold pending_in_progress in Hpend;
    cbn [orch phase] in *; try discriminate.
  - unfold after_assign in Hterm.
    destruct (active_tasks (assign_tasks o0)) as [[|e act]|]; discriminate.
  - unfold after_check in Hterm.
    destruct (remaining_tasks o0) eqn:R; [|discriminate].
    destruct pending as [|e pending].
    + intros a Ha.
      assert (Hf : truthy (AuggieAgent.current_task a) = false).
      { destruct (truthy (AuggieAgent.current_task a)) eqn:T;
          [|reflexivity].
        destruct (Hph a Ha T). }
      split; [|exact Hf].
      destruct (Htwo a Ha) as [Hi|Hk]; [exact Hi|].
      rewrite (Hw a Ha Hk) in Hf. discriminate.
    + exfalso.
      apply (in_progress_remains o0 (exec_task_id e));
        [apply Hpend; simpl; auto|exact R].
Qed.

(** X22: when [orchestrate] returns, every agent is idle and holds no task to
    run; when no task has the empty identifier, [current_task] is [None]. *)
Theorem orchestrate_returns_with_free_agents o c a :
  initial o -> reachable_from o c -> phase c = Terminated ->
  In a (agents (orch c)) ->
  AuggieAgent.status a = "idle" /\
  truthy (AuggieAgent.current_task a) = false /\
  (~ In EmptyString (keys Task.id (tasks o)) ->
   AuggieAgent.current_task a = None).
Proof.
  intros Hinit Hreach Hterm Ha.
  destruct (terminated_all_free o c Hinit Hreach Hterm a Ha) as [Hs Hf].
  split; [exact Hs|]. split; [exact Hf|].
  intros Hne.
  destruct (AuggieAgent.current_task a) as [k|] eqn:Hk; [|reflexivity].
  pose proof (reachable_holds_known_tasks o c Hinit Hreach a k Ha Hk) as Hin.
  destruct (reachable_same_keys o c Hreach) as [_ Et]. rewrite Et in Hin.
  destruct k; [contradiction|discriminate].
Qed.

Lemma orchestrate_returns_with_free_agents_witness :
  initial one_pair /\ reachable_from one_pair one_pair_finished /\
  phase one_pair_finished = Terminated /\
  In backend_agent (agents (orch one_pair_finished)) /\
  AuggieAgent.status backend_agent = "idle" /\
  truthy (AuggieAgent.current_task backend_agent) = false /\
  (~ In EmptyString (keys Task.id (tasks one_pair)) ->
   AuggieAgent.current_task backend_agent = None).
Proof.
  assert (Hr : reachable_from one_pair one_pair_finished)
    by (exists one_pair_run; reflexivity).
  assert (Hin : In backend_agent (agents (orch one_pair_finished)))
    by (simpl; auto).
  split; [exact one_pair_initial|]. split; [exact Hr|].
  split; [reflexivity|]. split; [exact Hin|].
  exact (orchestrate_returns_with_free_agents one_pair one_pair_finished
           backend_agent one_pair_initial Hr eq_refl Hin).
Defined.

(** ** The report of a run *)

Lemma reachable_terminated_done o c t :
  reachable_from o c -> phase c = Terminated -> In t (tasks (orch c)) ->
  Task.status t = COMPLETED \/ Task.status t = FAILED.
Proof.
  intros Hreach. revert c Hreach t.
  apply (reachable_induction o
           (fun c => forall t, phase c = Terminated -> In t (tasks (orch c)) ->
                     Task.status t = COMPLETED \/ Task.status t = FAILED)).
  - discriminate.
  - intros c1 l c2 _ _ Hs t Hterm. now apply (terminated_all_done l c1 c2).
Qed.

Lemma reachable_not_blocked o c t :
  initial o -> reachable_from o c -> In t (tasks (orch c)) ->
  Task.status t <> BLOCKED.
Proof.
  intros Hinit Hreach. revert c Hreach t.
  apply (reachable_induction o
           (fun c => forall t, In t (tasks (orch c)) ->
                               Task.status t <> BLOCKED)).
  - intros t Hin. destruct Hinit as [_ [_ Hft]].
    rewrite Forall_forall in Hft. destruct (Hft t Hin) as [Hp _].
    rewrite Hp. discriminate.
  - intros c1 l c2 Hr IH Hs t Hin E.
    pose proof (reachable_wf o c2 Hinit (reachable_step o c1 l c2 Hr Hs))
      as [_ Hnd2].
    pose proof (dict_get_In Task.id (tasks (orch c2)) t Hnd2 Hin) as G2.
    assert (K2 : task_status (Task.id t) (orch c2) = Some BLOCKED)
      by (unfold task_status, get_task; now rewrite G2, <- E).
    destruct (task_status (Task.id t) (orch c1)) as [s|] eqn:K.
    + destruct (step_advances c1 l c2 _ s
                  (reachable_exec_inv o c1 Hinit Hr) Hs K)
        as [s' [Hk' Hadv]].
      assert (s' = BLOCKED) by congruence. subst s'.
      destruct Hadv as [E1|[[_ E1]|[[_ E1]|[_ [E1|E1]]]]]; try discriminate.
      subst s. unfold task_status in K.
      destruct (get_task (Task.id t) (orch c1)) as [t1|] eqn:G1;
        [|discriminate].
      injection K as K. apply dict_get_Some in G1.
      now apply (IH t1 (proj1 G1)).
    + apply (task_status_keys (orch c2) (orch c1) (Task.id t)).
      * destruct (step_same_keys _ _ _ Hs) as [A B]. split; congruence.
      * congruence.
      * exact K.
Qed.

(** X23: a report made at any point of a run lists the agents and the tasks of
    the initial state, each once and in the order of their registration, and
    never shows the status blocked.  A report made after [orchestrate] has
    returned shows every task as completed or failed and every agent as idle
    with no task to run. *)
Theorem report_of_a_run o c :
  initial o -> reachable_from o c ->
  let r := get_status_report (orch c) in
  map fst (report_agents r) = keys AuggieAgent.id (agents o) /\
  map fst (report_tasks r) = keys Task.id (tasks o) /\
  (forall k e, In (k, e) (report_tasks r) ->
               report_task_status e <> "blocked") /\
  (phase c = Terminated ->
   (forall k e, In (k, e) (report_tasks r) ->
                report_task_status e = "completed" \/
                report_task_status e = "failed") /\
   (forall k e, In (k, e) (report_agents r) ->
                report_status e = "idle" /\
                truthy (report_current_task e) = false)).
Proof.
  intros Hinit Hreach. cbv zeta.
  destruct (reachable_same_keys o c Hreach) as [Ea Et].
  unfold get_status_report. cbn [report_agents report_tasks].
  rewrite !map_map. cbn [fst].
  split; [exact Ea|]. split; [exact Et|]. split.
  - intros k e Hin. apply in_map_iff in Hin.
    destruct Hin as [t [E Ht]]. injection E as _ <-.
    cbn [report_task_status].
    pose proof (reachable_not_blocked o c t Hinit Hreach Ht) as Hnb.
    destruct (Task.status t); try discriminate. now destruct Hnb.
  - intros Hterm. split.
    + intros k e Hin. apply in_map_iff in Hin.
      destruct Hin as [t [E Ht]]. injection E as _ <-.
      cbn [report_task_status].
      destruct (reachable_terminated_done o c t Hreach Hterm Ht) as [-> | ->];
        auto.
    + intros k e Hin. apply in_map_iff in Hin.
      destruct Hin as [a [E Ha]]. injection E as _ <-.
      cbn [report_status report_current_task].
      now apply (terminated_all_free o c Hinit Hreach Hterm).
Qed.

Lemma report_of_a_run_witness :
  initial one_pair /\ reachable_from one_pair one_pair_finished /\
  map fst (report_agents (get_status_report (orch one_pair_finished)))
  = ["backend"] /\
  map fst (report_tasks (get_status_report (orch one_pair_finished)))
  = ["T1"] /\
  map (fun e => report_task_status (snd e))
      (report_tasks (get_status_report (orch one_pair_finished)))
  = ["completed"].
Proof.
  assert (Hr : reachable_from one_pair one_pair_finished)
    by (exists one_pair_run; reflexivity).
  split; [exact one_pair_initial|]. split; [exact Hr|].
  destruct (report_of_a_run one_pair one_pair_finished one_pair_initial Hr)
    as [Ha [Ht _]].
  split; [exact Ha|]. split; [exact Ht|]. reflexivity.
Defined.
